(** * PyLink: shared S2S protocol state machine (protocols/ircs2s_common.py)
      and the remote-command router (plugins/networks.py).

    A shallow embedding of the Python code: strings are [string], dicts are
    [gmap], sets are [gset], exceptions are an explicit outcome type and the
    mutable network object is threaded through a small state monad. *)

From Stdlib Require Import ZArith Ascii String List Lia Bool.
From stdpp Require Import base option list gmap strings fin_maps fin_sets.

Open Scope string_scope.
Open Scope list_scope.

Set Warnings "-clear-no-such-hyp".

(** ** Python string primitives used by the source *)

Module Py.

(** [s.startswith(c)] for a one-character prefix. *)
Definition startswith (c : ascii) (s : string) : bool :=
  match s with
  | EmptyString => false
  | String d _ => Ascii.eqb d c
  end.

(** [c in s] for a one-character needle. *)
Fixpoint contains (c : ascii) (s : string) : bool :=
  match s with
  | EmptyString => false
  | String d s' => Ascii.eqb d c || contains c s'
  end.

(** [sep.join(l)]. *)
Fixpoint join (sep : string) (l : list string) : string :=
  match l with
  | [] => EmptyString
  | [x] => x
  | x :: rest => x ++ sep ++ join sep rest
  end.

(** [s[1:]]. *)
Definition slice_from1 (s : string) : string :=
  match s with
  | EmptyString => EmptyString
  | String _ s' => s'
  end.

(** [s[:-1]]. *)
Fixpoint slice_to_last (s : string) : string :=
  match s with
  | EmptyString => EmptyString
  | String c s' =>
      match s' with
      | EmptyString => EmptyString
      | String _ _ => String c (slice_to_last s')
      end
  end.

(** [s[1:-1]]. *)
Definition slice_1_last (s : string) : string := slice_to_last (slice_from1 s).

(** [s.split(sep)] for a one-character separator: every occurrence splits,
    so a string with k separators yields k+1 (possibly empty) pieces. *)
Fixpoint split (sep : ascii) (s : string) : list string :=
  match s with
  | EmptyString => [EmptyString]
  | String c s' =>
      if Ascii.eqb c sep then EmptyString :: split sep s'
      else match split sep s' with
           | [] => [String c EmptyString]
           | w :: ws => String c w :: ws
           end
  end.

(** [s.split(sep, 1)]: split at the first separator only. *)
Fixpoint split1 (sep : ascii) (s : string) : list string :=
  match s with
  | EmptyString => [EmptyString]
  | String c s' =>
      if Ascii.eqb c sep then [EmptyString; s']
      else match split1 sep s' with
           | [] => [String c EmptyString]
           | w :: ws => String c w :: ws
           end
  end.

(** [s.lower()] on ASCII text. *)
Definition lower_ascii (c : ascii) : ascii :=
  let n := nat_of_ascii c in
  if (65 <=? n)%nat && (n <=? 90)%nat then ascii_of_nat (n + 32) else c.

Fixpoint lower (s : string) : string :=
  match s with
  | EmptyString => EmptyString
  | String c s' => String (lower_ascii c) (lower s')
  end.

(** Exceptions the modelled code can raise. *)
Inductive exn : Type :=
  | IndexError
  | KeyError
  | TypeError
  | NameError
  | ValueError
  | LookupError (msg : string)
  | ProtocolError (msg : string)
  | OtherError (cls : string).

(** Result of running a piece of Python: a value, a raised exception, or
    the recursion budget of the model ran out. *)
Inductive outcome (A : Type) : Type :=
  | Ok (a : A)
  | Raise (e : exn)
  | OutOfFuel.
Arguments Ok {A} a.
Arguments Raise {A} e.
Arguments OutOfFuel {A}.

(** [l[i]] on a list with a non-negative literal index. *)
Definition index {A} (l : list A) (i : nat) : outcome A :=
  match l !! i with
  | Some x => Ok x
  | None => Raise IndexError
  end.

Lemma split_nonempty sep s : split sep s <> [].
Proof.
  destruct s as [|c s]; simpl; [discriminate|].
  destruct (Ascii.eqb c sep); [discriminate|].
  destruct (split sep s); discriminate.
Qed.

Lemma split1_no_sep sep s : contains sep s = false -> split1 sep s = [s].
Proof.
  induction s as [|c s IH]; simpl; [reflexivity|].
  destruct (Ascii.eqb c sep); simpl; [discriminate|].
  intros H. rewrite (IH H). reflexivity.
Qed.

Lemma split_no_sep sep s : contains sep s = false -> split sep s = [s].
Proof.
  induction s as [|c s IH]; simpl; [reflexivity|].
  destruct (Ascii.eqb c sep); simpl; [discriminate|].
  intros H. rewrite (IH H). reflexivity.
Qed.

End Py.

(** ** Argument parser (IRCCommonProtocol.parse_args / parse_prefixed_args) *)

Module Args.
Import Py.

(** The argument is either a [str] or a list of fields. *)
Inductive raw_args : Type :=
  | ArgStr (s : string)
  | ArgList (l : list string).

(** The [for idx, arg in enumerate(args)] loop; [args] is the remaining
    suffix [args[idx:]], the returned list is what is appended to
    [real_args] from this point on. *)
Fixpoint parse_args_loop (idx : nat) (args : list string) : list string :=
  match args with
  | [] => []
  | arg :: rest =>
      if startswith ":" arg && negb (Nat.eqb idx 0)
      then [slice_from1 (join " " args)]
      else arg :: parse_args_loop (S idx) rest
  end.

Definition parse_args (args : raw_args) : list string :=
  let args := match args with
              | ArgStr s => split " " s
              | ArgList l => l
              end in
  parse_args_loop 0 args.

(** [args[0] = args[0].split(':', 1)[1]] after the base parser ran. *)
Definition parse_prefixed_args (args : raw_args) : outcome (list string) :=
  let args := parse_args args in
  match args with
  | [] => Raise IndexError
  | a0 :: rest =>
      match index (split1 ":" a0) 1 with
      | Ok a0' => Ok (a0' :: rest)
      | Raise e => Raise e
      | OutOfFuel => OutOfFuel
      end
  end.

Example parse_args_privmsg :
  parse_args (ArgList ["PRIVMSG"; "#chan"; ":hello"; "world"])
  = ["PRIVMSG"; "#chan"; "hello world"].
Proof. reflexivity. Qed.

Example parse_args_str :
  parse_args (ArgStr ":src PRIVMSG #chan :hello  world")
  = [":src"; "PRIVMSG"; "#chan"; "hello  world"].
Proof. reflexivity. Qed.

Example parse_prefixed_args_ok :
  parse_prefixed_args (ArgList [":42X"; "PING"; ":a b"]) = Ok ["42X"; "PING"; "a b"].
Proof. reflexivity. Qed.

Lemma parse_args_loop_plain idx pre tl :
  Forall (fun x => startswith ":" x = false) pre ->
  parse_args_loop idx (pre ++ tl) = pre ++ parse_args_loop (idx + length pre) tl.
Proof.
  revert idx. induction pre as [|p pre IH]; intros idx Hpre; simpl.
  - by rewrite Nat.add_0_r.
  - inversion Hpre as [|? ? Hp Hrest]; subst. rewrite Hp. simpl.
    rewrite IH by assumption.
    replace (S idx + length pre) with (idx + S (length pre)) by lia. reflexivity.
Qed.

(** C8. When some field after the first begins with ':', the fields before
    the first such field are returned unchanged, followed by one last
    argument: that field and everything after it joined with single spaces,
    without the leading ':'. *)
Theorem parse_args_rest_of_line (first : string) (pre post : list string) (f : string) :
  Forall (fun x => startswith ":" x = false) pre ->
  parse_args (ArgList (first :: pre ++ String ":" f :: post))
  = first :: pre ++ [join " " (f :: post)].
Proof.
  intros Hpre. unfold parse_args. cbn [parse_args_loop].
  rewrite andb_false_r. f_equal.
  rewrite parse_args_loop_plain by assumption.
  f_equal. cbn [parse_args_loop startswith]. rewrite Ascii.eqb_refl.
  replace (Nat.eqb (1 + length pre) 0) with false by reflexivity.
  cbn [andb negb]. destruct post; reflexivity.
Qed.

Lemma parse_args_rest_of_line_witness :
  Forall (fun x => startswith ":" x = false) ["#chan"] /\
  parse_args (ArgList ["PRIVMSG"; "#chan"; ":hello"; "world"])
  = ["PRIVMSG"; "#chan"; "hello world"].
Proof.
  split.
  - repeat constructor.
  - apply (parse_args_rest_of_line "PRIVMSG" ["#chan"] ["world"] "hello").
    repeat constructor.
Defined.

(** C10. On a non-empty field list whose first field has no ':' the
    prefixed parser raises IndexError, while the base parser returns a list
    that still starts with that field. *)
Theorem parse_prefixed_args_partial (a0 : string) (rest : list string) :
  contains ":" a0 = false ->
  parse_prefixed_args (ArgList (a0 :: rest)) = Raise IndexError
  /\ exists tl, parse_args (ArgList (a0 :: rest)) = a0 :: tl.
Proof.
  intros Hno. unfold parse_prefixed_args, parse_args. cbn [parse_args_loop].
  rewrite andb_false_r. split.
  - rewrite (split1_no_sep _ _ Hno). reflexivity.
  - eexists. reflexivity.
Qed.

Lemma parse_prefixed_args_partial_witness :
  contains ":" "PING" = false /\
  parse_prefixed_args (ArgList ["PING"; "x"]) = Raise IndexError.
Proof.
  split; [reflexivity|].
  apply (parse_prefixed_args_partial "PING" ["x"]). reflexivity.
Defined.

(** *** Further properties of the argument parser *)

Lemma join_cons_cons sep x y l : join sep (x :: y :: l) = (x ++ sep ++ join sep (y :: l))%string.
Proof. reflexivity. Qed.

Lemma split_cons_sep sep s : split sep (String sep s) = EmptyString :: split sep s.
Proof. cbn [split]. by rewrite Ascii.eqb_refl. Qed.

Lemma split_cons_other sep c s :
  Ascii.eqb c sep = false ->
  split sep (String c s)
  = match split sep s with
    | [] => [String c EmptyString]
    | w :: ws => String c w :: ws
    end.
Proof. intros H. cbn [split]. by rewrite H. Qed.

(** Splitting at a separator that follows a separator-free prefix. *)
Lemma split_app_sep sep a b :
  contains sep a = false ->
  split sep (a ++ String sep b)%string = a :: split sep b.
Proof.
  induction a as [|c a IH]; intros Hno.
  - apply split_cons_sep.
  - cbn [contains] in Hno. apply orb_false_iff in Hno as [Hc Ha].
    change (String c a ++ String sep b)%string with (String c (a ++ String sep b)).
    rewrite split_cons_other by exact Hc. by rewrite IH.
Qed.

Lemma split1_app_sep sep a b :
  contains sep a = false ->
  split1 sep (a ++ String sep b)%string = [a; b].
Proof.
  induction a as [|c a IH]; intros Hno.
  - change (split1 sep (String sep b) = [EmptyString; b]).
    cbn [split1]. by rewrite Ascii.eqb_refl.
  - cbn [contains] in Hno. apply orb_false_iff in Hno as [Hc Ha].
    change (String c a ++ String sep b)%string with (String c (a ++ String sep b)).
    cbn [split1]. rewrite Hc. by rewrite IH.
Qed.

(** Joining the pieces of a split gives the string back. *)
Lemma join_split sep s : join (String sep EmptyString) (split sep s) = s.
Proof.
  induction s as [|c s IH]; [reflexivity|].
  cbn [split]. destruct (Ascii.eqb c sep) eqn:E.
  - apply Ascii.eqb_eq in E. subst c.
    pose proof (split_nonempty sep s) as Hne.
    destruct (split sep s) as [|w ws]; [done|].
    rewrite join_cons_cons, IH. reflexivity.
  - pose proof (split_nonempty sep s) as Hne.
    destruct (split sep s) as [|w ws]; [done|].
    destruct ws as [|w' ws].
    + cbn in *. by rewrite IH.
    + rewrite join_cons_cons in *. cbn. by rewrite <- IH.
Qed.

Lemma parse_args_loop_length idx l :
  (List.length (parse_args_loop idx l) <= List.length l)%nat.
Proof.
  revert idx. induction l as [|a l IH]; intros idx; cbn; [lia|].
  destruct (_ && _); cbn; [lia|]. specialize (IH (S idx)). lia.
Qed.

(** X1. A field list in which no field after the first begins with ':' is
    returned as it is. *)
Theorem parse_args_no_marker (l : list string) :
  Forall (fun x => startswith ":" x = false) (tail l) ->
  parse_args (ArgList l) = l.
Proof.
  intros H. destruct l as [|a l]; [reflexivity|]. cbn [tail] in H.
  unfold parse_args. cbn [parse_args_loop]. rewrite andb_false_r. f_equal.
  rewrite <- (app_nil_r l) at 1.
  rewrite parse_args_loop_plain by exact H. cbn. by rewrite app_nil_r.
Qed.

Lemma parse_args_no_marker_witness :
  parse_args (ArgList [":src"; "MODE"; "#chan"; "+o"; "nick"])
  = [":src"; "MODE"; "#chan"; "+o"; "nick"].
Proof.
  apply (parse_args_no_marker [":src"; "MODE"; "#chan"; "+o"; "nick"]).
  repeat constructor.
Defined.

(** The parser never returns more arguments than it was given fields,
    never drops or changes the first field, and on a [str] it always returns
    at least one argument. *)
Theorem parse_args_shape (l : list string) (s : string) :
  (List.length (parse_args (ArgList l)) <= List.length l)%nat
  /\ head (parse_args (ArgList l)) = head l
  /\ parse_args (ArgStr s) <> [].
Proof.
  split; [apply parse_args_loop_length|]. split.
  - destruct l as [|a l]; [reflexivity|].
    unfold parse_args. cbn [parse_args_loop]. by rewrite andb_false_r.
  - unfold parse_args. pose proof (split_nonempty " " s) as Hne.
    destruct (split " " s) as [|a0 l0]; [done|].
    cbn [parse_args_loop]. by rewrite andb_false_r.
Qed.

(** X2. A line that is the space-joined fields followed by a last field
    ":text" parses back to those fields and the text, whatever spaces or
    colons the text holds. *)
Theorem parse_args_line_round_trip (first : string) (mid : list string) (text : string) :
  Forall (fun x => contains " " x = false) (first :: mid) ->
  Forall (fun x => startswith ":" x = false) mid ->
  parse_args (ArgStr (join " " (first :: mid ++ [String ":" text])))
  = first :: mid ++ [text].
Proof.
  intros Hsp Hcol.
  assert (Hsplit : forall pre : list string,
            Forall (fun x => contains " " x = false) pre ->
            forall tl, tl <> [] ->
            split " " (join " " (pre ++ tl)) = pre ++ split " " (join " " tl)).
  { induction pre as [|p pre IH]; intros Hpre tl Htl; [reflexivity|].
    apply Forall_cons in Hpre as [Hp Hpre].
    destruct (pre ++ tl) as [|y ys] eqn:E.
    { destruct pre, tl; done. }
    cbn [app]. rewrite E, join_cons_cons.
    change (p ++ " " ++ join " " (y :: ys))%string
      with (p ++ String " " (join " " (y :: ys)))%string.
    rewrite split_app_sep by exact Hp. rewrite <- E. by rewrite IH. }
  unfold parse_args.
  change (first :: mid ++ [String ":" text]) with ((first :: mid) ++ [String ":" text]).
  rewrite Hsplit; [|exact Hsp|done].
  change (join " " [String ":" text]) with (String ":" text).
  pose proof (join_split " " (String ":" text)) as Hjs.
  pose proof (split_nonempty " " (String ":" text)) as Hne.
  destruct (split " " (String ":" text)) as [|w ws] eqn:Ew; [done|].
  assert (Hw : startswith ":" w = true).
  { cbn [split] in Ew. change (Ascii.eqb ":" " ") with false in Ew.
    destruct (split " " text); injection Ew as <- <-; apply Ascii.eqb_refl. }
  cbn [app parse_args_loop]. rewrite andb_false_r. f_equal.
  rewrite parse_args_loop_plain by exact Hcol. f_equal.
  cbn [parse_args_loop]. rewrite Hw.
  replace (Nat.eqb (1 + List.length mid) 0) with false by reflexivity.
  cbn [andb negb]. by rewrite Hjs.
Qed.

Lemma parse_args_line_round_trip_witness :
  parse_args (ArgStr (join " " ("src" :: ["PRIVMSG"; "#chan"] ++ [String ":" "a :b  c"])))
  = "src" :: ["PRIVMSG"; "#chan"] ++ ["a :b  c"].
Proof.
  apply (parse_args_line_round_trip "src" ["PRIVMSG"; "#chan"] "a :b  c");
    repeat constructor.
Defined.

(** X3. The prefixed parser keeps, of the first field, what follows its
    first ':' (so text in front of that ':' is lost as well), and leaves the
    other arguments as the base parser returns them; an empty field list
    raises IndexError. *)
Theorem parse_prefixed_args_sender (pre post : string) (rest : list string) :
  contains ":" pre = false ->
  parse_prefixed_args (ArgList ((pre ++ String ":" post)%string :: rest))
  = Ok (post :: tail (parse_args (ArgList ((pre ++ String ":" post)%string :: rest))))
  /\ parse_prefixed_args (ArgList []) = Raise IndexError.
Proof.
  intros Hno. split; [|reflexivity].
  unfold parse_prefixed_args, parse_args. cbn [parse_args_loop].
  rewrite andb_false_r. rewrite split1_app_sep by exact Hno. reflexivity.
Qed.

Lemma parse_prefixed_args_sender_witness :
  parse_prefixed_args (ArgList [":42XAAAAAB"; "PRIVMSG"; "#chan"; ":hi"; "there"])
  = Ok ["42XAAAAAB"; "PRIVMSG"; "#chan"; "hi there"].
Proof.
  apply (parse_prefixed_args_sender "" "42XAAAAAB" ["PRIVMSG"; "#chan"; ":hi"; "there"]).
  reflexivity.
Defined.

End Args.

(** ** Incremental UID generator (class IncrementalUIDGenerator) *)

Module UIDGen.
Import Py.

(** Python sequence indexing: [0 <= i < len] counts from the front,
    [-len <= i < 0] from the back, anything else is an IndexError. *)
Definition norm_index (len : nat) (i : Z) : option nat :=
  if ((0 <=? i) && (i <? Z.of_nat len))%Z then Some (Z.to_nat i)
  else if ((- Z.of_nat len <=? i) && (i <? 0))%Z then Some (Z.to_nat (Z.of_nat len + i))
  else None.

Definition py_nth {A} (l : list A) (i : Z) : outcome A :=
  match norm_index (length l) i with
  | Some n => index l n
  | None => Raise IndexError
  end.

(** [l[i] = x]. *)
Definition py_set {A} (l : list A) (i : Z) (x : A) : outcome (list A) :=
  match norm_index (length l) i with
  | Some n => Ok (<[n := x]> l)
  | None => Raise IndexError
  end.

(** [s.find(c)]: first position of [c], or -1. *)
Fixpoint find_from (c : ascii) (l : list ascii) (i : Z) : Z :=
  match l with
  | [] => (-1)%Z
  | d :: l' => if Ascii.eqb d c then i else find_from c l' (i + 1)%Z
  end.

Definition find (c : ascii) (l : list ascii) : Z := find_from c l 0.

(** The generator object.  [allowedchars] and [length] are the class
    attributes a dialect subclass supplies; [uidchars] is the cursor. *)
Record generator : Type := mkGen {
  allowedchars : list ascii;
  length : Z;
  uidchars : list ascii;
  sid : string
}.

Definition set_uidchars (g : generator) (u : list ascii) : generator :=
  mkGen (allowedchars g) (length g) u (sid g).

(** [__init__]: [self.uidchars = [self.allowedchars[0]] * self.length]. *)
Definition init (allowed : string) (len : Z) (sid : string) : outcome generator :=
  let al := list_ascii_of_string allowed in
  match py_nth al 0 with
  | Ok c0 => Ok (mkGen al len (repeat c0 (Z.to_nat len)) sid)
  | Raise e => Raise e
  | OutOfFuel => OutOfFuel
  end.

(** [increment(pos)].  The object is mutated in place, so the generator
    reached so far is returned next to the outcome. *)
Fixpoint increment (fuel : nat) (g : generator) (pos : Z) : outcome unit * generator :=
  match fuel with
  | O => (OutOfFuel, g)
  | S fuel' =>
      match py_nth (uidchars g) pos, py_nth (allowedchars g) (-1) with
      | Ok cur, Ok last =>
          if Ascii.eqb cur last then
            match py_nth (allowedchars g) 0 with
            | Ok c0 =>
                match py_set (uidchars g) pos c0 with
                | Ok u => increment fuel' (set_uidchars g u) (pos - 1)
                | Raise e => (Raise e, g)
                | OutOfFuel => (OutOfFuel, g)
                end
            | Raise e => (Raise e, g)
            | OutOfFuel => (OutOfFuel, g)
            end
          else
            let idx := find cur (allowedchars g) in
            match py_nth (allowedchars g) (idx + 1) with
            | Ok c =>
                match py_set (uidchars g) pos c with
                | Ok u => (Ok tt, set_uidchars g u)
                | Raise e => (Raise e, g)
                | OutOfFuel => (OutOfFuel, g)
                end
            | Raise e => (Raise e, g)
            | OutOfFuel => (OutOfFuel, g)
            end
      | Raise e, _ => (Raise e, g)
      | _, Raise e => (Raise e, g)
      | _, _ => (OutOfFuel, g)
      end
  end.

(** Every recursive call lowers [pos] by one and an index below
    [-len(uidchars)] raises, so this many steps always suffice. *)
Definition increment_fuel (g : generator) : nat := 2 * List.length (uidchars g) + 2.

(** [next_uid()]: build the UID from the cursor, then advance the cursor. *)
Definition next_uid (g : generator) : outcome string * generator :=
  let uid := (sid g ++ string_of_list_ascii (uidchars g))%string in
  match increment (increment_fuel g) g (length g - 1) with
  | (Ok _, g') => (Ok uid, g')
  | (Raise e, g') => (Raise e, g')
  | (OutOfFuel, g') => (OutOfFuel, g')
  end.

(** [n] successive calls of [next_uid], each on the object left by the one
    before (also when that one raised). *)
Fixpoint calls (n : nat) (g : generator) : list (outcome string) * generator :=
  match n with
  | O => ([], g)
  | S n' =>
      let '(r, g1) := next_uid g in
      let '(rs, g2) := calls n' g1 in
      (r :: rs, g2)
  end.

Definition fresh (allowed : string) (len : Z) (sid : string) : generator :=
  match init allowed len sid with
  | Ok g => g
  | _ => mkGen (list_ascii_of_string allowed) len [] sid
  end.

Example calls_AB_2 :
  fst (calls 5 (fresh "AB" 2 "0"))
  = [Ok "0AA"; Ok "0AB"; Ok "0BA"; Ok "0BB"; Ok "0AB"].
Proof. vm_compute. reflexivity. Qed.

(** *** The cursor as an odometer *)

Lemma norm_index_front len n : (n < len)%nat -> norm_index len (Z.of_nat n) = Some n.
Proof.
  intros H. unfold norm_index.
  replace (0 <=? Z.of_nat n)%Z with true by (symmetry; apply Z.leb_le; lia).
  replace (Z.of_nat n <? Z.of_nat len)%Z with true by (symmetry; apply Z.ltb_lt; lia).
  cbn [andb]. by rewrite Nat2Z.id.
Qed.

Lemma norm_index_last len : (0 < len)%nat -> norm_index len (-1) = Some (len - 1)%nat.
Proof.
  intros H. unfold norm_index. cbn [Z.leb Z.compare andb].
  replace (- Z.of_nat len <=? -1)%Z with true by (symmetry; apply Z.leb_le; lia).
  cbn [Z.ltb Z.compare andb]. f_equal. lia.
Qed.

Lemma norm_index_bounds len i n :
  norm_index len i = Some n -> (- Z.of_nat len <= i)%Z /\ (n < len)%nat.
Proof.
  unfold norm_index.
  destruct ((0 <=? i) && (i <? Z.of_nat len))%Z eqn:E1.
  - apply andb_true_iff in E1 as [H1 H2]. apply Z.leb_le in H1. apply Z.ltb_lt in H2.
    intros [= <-]. lia.
  - destruct ((- Z.of_nat len <=? i) && (i <? 0))%Z eqn:E2; [|discriminate].
    apply andb_true_iff in E2 as [H1 H2]. apply Z.leb_le in H1. apply Z.ltb_lt in H2.
    intros [= <-]. lia.
Qed.

Lemma py_nth_mid {A} (pre suf : list A) x :
  py_nth (pre ++ x :: suf) (Z.of_nat (List.length pre)) = Ok x.
Proof.
  unfold py_nth. rewrite norm_index_front by (rewrite length_app; simpl; lia).
  unfold index. rewrite lookup_app_r by lia. by rewrite Nat.sub_diag.
Qed.

Lemma py_set_mid {A} (pre suf : list A) x y :
  py_set (pre ++ x :: suf) (Z.of_nat (List.length pre)) y = Ok (pre ++ y :: suf).
Proof.
  unfold py_set. rewrite norm_index_front by (rewrite length_app; simpl; lia).
  f_equal. rewrite insert_app_r_alt by lia. by rewrite Nat.sub_diag.
Qed.

Lemma py_nth_last {A} (pre : list A) x : py_nth (pre ++ [x]) (-1) = Ok x.
Proof.
  unfold py_nth. rewrite norm_index_last by (rewrite length_app; simpl; lia).
  unfold index. rewrite length_app. simpl.
  rewrite lookup_app_r by lia.
  replace (List.length pre + 1 - 1 - List.length pre)%nat with 0%nat by lia. reflexivity.
Qed.

Lemma py_set_last {A} (pre : list A) x y : py_set (pre ++ [x]) (-1) y = Ok (pre ++ [y]).
Proof.
  unfold py_set. rewrite norm_index_last by (rewrite length_app; simpl; lia).
  f_equal. rewrite length_app. simpl. rewrite insert_app_r_alt by lia.
  replace (List.length pre + 1 - 1 - List.length pre)%nat with 0%nat by lia. reflexivity.
Qed.

Lemma find_from_lookup c l : forall d i,
  NoDup l -> l !! d = Some c -> find_from c l i = (i + Z.of_nat d)%Z.
Proof.
  induction l as [|x l IH]; intros d i Hnd Hd; [discriminate|].
  apply NoDup_cons in Hnd as [Hx Hnd]. destruct d as [|d]; simpl in *.
  - injection Hd as ->. rewrite Ascii.eqb_refl. lia.
  - destruct (Ascii.eqb x c) eqn:E.
    + apply Ascii.eqb_eq in E. subst. exfalso. apply Hx.
      apply list_elem_of_lookup. eauto.
    + rewrite (IH d) by assumption. lia.
Qed.

Lemma set_uidchars_id g : set_uidchars g (uidchars g) = g.
Proof. by destruct g. Qed.

Lemma set_uidchars_twice g u v : set_uidchars (set_uidchars g u) v = set_uidchars g v.
Proof. reflexivity. Qed.

Lemma repeat_snoc_app {A} (x : A) n (l : list A) :
  repeat x (S n) ++ l = repeat x n ++ x :: l.
Proof.
  induction n as [|n IH]; [reflexivity|].
  change (repeat x (S (S n)) ++ l) with (x :: (repeat x (S n) ++ l)).
  by rewrite IH.
Qed.

Lemma py_nth_Ok_bounds {A} (l : list A) i x :
  py_nth l i = Ok x -> (- Z.of_nat (List.length l) <= i < Z.of_nat (List.length l))%Z.
Proof.
  unfold py_nth, norm_index.
  destruct ((0 <=? i) && (i <? Z.of_nat (List.length l)))%Z eqn:E1.
  - apply andb_true_iff in E1 as [H1 H2]. apply Z.leb_le in H1. apply Z.ltb_lt in H2. lia.
  - destruct ((- Z.of_nat (List.length l) <=? i) && (i <? 0))%Z eqn:E2; [|discriminate].
    apply andb_true_iff in E2 as [H1 H2]. apply Z.leb_le in H1. apply Z.ltb_lt in H2. lia.
Qed.

Lemma py_set_length {A} (l l' : list A) i x :
  py_set l i x = Ok l' -> List.length l' = List.length l.
Proof.
  unfold py_set. destruct (norm_index _ _); [|discriminate].
  intros [= <-]. apply length_insert.
Qed.

Lemma py_nth_not_fuel {A} (l : list A) i : py_nth l i = OutOfFuel -> False.
Proof.
  unfold py_nth, index. destruct (norm_index _ _); [|discriminate].
  destruct (_ !! _); discriminate.
Qed.

Lemma py_set_not_fuel {A} (l : list A) i x : py_set l i x = OutOfFuel -> False.
Proof. unfold py_set. destruct (norm_index _ _); discriminate. Qed.

Ltac no_fuel :=
  match goal with
  | H : py_nth _ _ = OutOfFuel |- _ => exfalso; exact (py_nth_not_fuel _ _ H)
  | H : py_set _ _ _ = OutOfFuel |- _ => exfalso; exact (py_set_not_fuel _ _ _ H)
  end.

(** The recursion of [increment] always ends: the budget is never what
    stops it. *)
Lemma increment_terminates fuel : forall g pos,
  (1 <= fuel)%nat ->
  ((pos < Z.of_nat (List.length (uidchars g)))%Z ->
   (pos + Z.of_nat (List.length (uidchars g)) + 1 < Z.of_nat fuel)%Z) ->
  fst (increment fuel g pos) <> OutOfFuel.
Proof.
  induction fuel as [|fuel IH]; intros g pos H1 Hfuel; [lia|].
  cbn [increment].
  destruct (py_nth (uidchars g) pos) as [cur| |] eqn:Hcur; [| |no_fuel].
  2:{ destruct (py_nth (allowedchars g) (-1)); discriminate. }
  apply py_nth_Ok_bounds in Hcur as Hb.
  destruct (py_nth (allowedchars g) (-1)) as [last| |] eqn:Hlast;
    [|discriminate|no_fuel].
  destruct (Ascii.eqb cur last).
  - destruct (py_nth (allowedchars g) 0) as [c| |] eqn:Hc; [|discriminate|no_fuel].
    destruct (py_set (uidchars g) pos c) as [u| |] eqn:Hset; [|discriminate|no_fuel].
    apply py_set_length in Hset. apply IH; cbn [uidchars set_uidchars]; lia.
  - destruct (py_nth (allowedchars g) (find cur (allowedchars g) + 1)) as [c| |] eqn:Hc;
      [|discriminate|no_fuel].
    destruct (py_set (uidchars g) pos c) as [u| |] eqn:Hset; [|discriminate|no_fuel].
    discriminate.
Qed.

(** X4. The recursion of [increment] always comes to an end: on every
    generator [next_uid] returns or raises within twice the cursor length
    plus two nested calls. *)
Lemma next_uid_terminates g : fst (next_uid g) <> OutOfFuel.
Proof.
  unfold next_uid.
  pose proof (increment_terminates (increment_fuel g) g (length g - 1)) as H.
  destruct (increment _ _ _) as [[| |] g']; try discriminate.
  exfalso. apply H; [unfold increment_fuel; lia| |reflexivity].
  unfold increment_fuel. lia.
Qed.

Section Odometer.
Variable al : list ascii.
Variables c0 cl : ascii.
Hypothesis al_nodup : NoDup al.
Hypothesis al_two : (2 <= List.length al)%nat.
Hypothesis al_first : al !! 0%nat = Some c0.
Hypothesis al_last : al !! (List.length al - 1)%nat = Some cl.

Lemma al_nth_first : py_nth al 0 = Ok c0.
Proof.
  unfold py_nth. rewrite (norm_index_front _ 0) by lia.
  unfold index. by rewrite al_first.
Qed.

Lemma al_nth_last : py_nth al (-1) = Ok cl.
Proof.
  unfold py_nth. rewrite norm_index_last by lia.
  unfold index. by rewrite al_last.
Qed.

Lemma al_digit_inj d e c : al !! d = Some c -> al !! e = Some c -> d = e.
Proof. intros Hd He. eapply NoDup_lookup; eauto. Qed.

Lemma al_not_last d c :
  al !! d = Some c -> (d < List.length al - 1)%nat -> Ascii.eqb c cl = false.
Proof.
  intros Hd Hlt. apply Ascii.eqb_neq. intros ->.
  pose proof (al_digit_inj _ _ _ Hd al_last). lia.
Qed.

Lemma al_nth_succ d c c' :
  al !! d = Some c -> al !! (S d) = Some c' ->
  py_nth al (find c al + 1) = Ok c'.
Proof.
  intros Hd Hs. unfold find. rewrite (find_from_lookup c al d 0) by assumption.
  replace (0 + Z.of_nat d + 1)%Z with (Z.of_nat (S d)) by lia.
  unfold py_nth. rewrite norm_index_front by (apply lookup_lt_Some in Hs; lia).
  unfold index. by rewrite Hs.
Qed.

(** Carrying: a run of [j] last-symbols ending at [pos] is reset to
    first-symbols and the increment moves to the position before it. *)
Lemma increment_carry j : forall f g pre suf,
  allowedchars g = al ->
  uidchars g = pre ++ repeat cl j ++ suf ->
  increment (j + f) g (Z.of_nat (List.length pre + j) - 1)
  = increment f (set_uidchars g (pre ++ repeat c0 j ++ suf))
              (Z.of_nat (List.length pre) - 1).
Proof.
  induction j as [|j IH]; intros f g pre suf Hal Hu.
  - simpl in *. rewrite <- Hu, set_uidchars_id. do 2 f_equal. lia.
  - rewrite repeat_snoc_app in Hu. rewrite app_assoc in Hu.
    replace (Z.of_nat (List.length pre + S j) - 1)%Z
      with (Z.of_nat (List.length (pre ++ repeat cl j))) by (rewrite length_app, repeat_length; lia).
    cbn [Nat.add increment]. rewrite Hu, py_nth_mid, Hal, al_nth_last.
    rewrite Ascii.eqb_refl, al_nth_first, py_set_mid.
    replace (Z.of_nat (List.length (pre ++ repeat cl j)) - 1)%Z
      with (Z.of_nat (List.length pre + j) - 1)%Z by (rewrite length_app, repeat_length; lia).
    rewrite (IH f _ pre (c0 :: suf)); [|exact Hal|by rewrite <- app_assoc].
    rewrite set_uidchars_twice, repeat_snoc_app. reflexivity.
Qed.

(** No overflow: the symbol before the run of last-symbols is advanced. *)
Lemma increment_advance j f g pre d c c' :
  allowedchars g = al ->
  al !! d = Some c -> al !! (S d) = Some c' ->
  uidchars g = pre ++ c :: repeat cl j ->
  increment (j + S f) g (Z.of_nat (List.length (uidchars g)) - 1)
  = (Ok tt, set_uidchars g (pre ++ c' :: repeat c0 j)).
Proof.
  intros Hal Hd Hs Hu.
  assert (Hlt : (d < List.length al - 1)%nat) by (apply lookup_lt_Some in Hs; lia).
  replace (pre ++ c :: repeat cl j) with ((pre ++ [c]) ++ repeat cl j ++ [])
    in Hu by (rewrite app_nil_r, <- app_assoc; reflexivity).
  replace (Z.of_nat (List.length (uidchars g)) - 1)%Z
    with (Z.of_nat (List.length (pre ++ [c]) + j) - 1)%Z
    by (rewrite Hu, !length_app, repeat_length; simpl; lia).
  rewrite (increment_carry j (S f) g _ _ Hal Hu).
  rewrite app_nil_r, <- app_assoc. cbn [app].
  replace (Z.of_nat (List.length (pre ++ [c])) - 1)%Z
    with (Z.of_nat (List.length pre)) by (rewrite length_app; simpl; lia).
  cbn [increment uidchars set_uidchars allowedchars].
  rewrite py_nth_mid, Hal, al_nth_last, (al_not_last d c Hd Hlt).
  rewrite (al_nth_succ d c c' Hd Hs), py_set_mid. reflexivity.
Qed.

(** Overflow: every position holds the last symbol.  The carry runs off
    the front to [pos = -1], which Python reads as the last position, so
    the cursor ends on first-symbols followed by the second symbol. *)
Lemma increment_overflow w f g c1 :
  allowedchars g = al ->
  al !! 1%nat = Some c1 ->
  uidchars g = repeat cl (S w) ->
  increment (S w + S f) g (Z.of_nat (List.length (uidchars g)) - 1)
  = (Ok tt, set_uidchars g (repeat c0 w ++ [c1])).
Proof.
  intros Hal H1 Hu.
  assert (Hu' : uidchars g = [] ++ repeat cl (S w) ++ []) by (by rewrite app_nil_r).
  replace (Z.of_nat (List.length (uidchars g)) - 1)%Z
    with (Z.of_nat (List.length (@nil ascii) + S w) - 1)%Z
    by (rewrite Hu, repeat_length; simpl; lia).
  rewrite (increment_carry (S w) (S f) g _ _ Hal Hu').
  cbn [app List.length]. rewrite app_nil_r.
  replace (repeat c0 (S w)) with (repeat c0 w ++ [c0])
    by (by rewrite <- (app_nil_r (repeat c0 (S w))), repeat_snoc_app).
  change (Z.of_nat 0 - 1)%Z with (-1)%Z.
  cbn [increment uidchars set_uidchars allowedchars].
  rewrite py_nth_last, Hal, al_nth_last.
  rewrite (al_not_last 0 c0 al_first) by lia.
  rewrite (al_nth_succ 0 c0 c1 al_first H1), py_set_last. reflexivity.
Qed.

(** The cursor read as a number in base [len(allowedchars)]. *)
Definition digit (c : ascii) : nat := Z.to_nat (find c al).

Definition val_from (acc : nat) (u : list ascii) : nat :=
  fold_left (fun a c => a * List.length al + digit c)%nat u acc.

Definition val (u : list ascii) : nat := val_from 0 u.

Lemma digit_lookup d c : al !! d = Some c -> digit c = d.
Proof.
  intros Hd. unfold digit, find. rewrite (find_from_lookup c al d 0) by assumption. lia.
Qed.

Lemma val_from_app acc u v : val_from acc (u ++ v) = val_from (val_from acc u) v.
Proof. apply fold_left_app. Qed.

Lemma val_repeat_last j : forall acc,
  (val_from acc (repeat cl j) + 1 = (acc + 1) * List.length al ^ j)%nat.
Proof.
  induction j as [|j IH]; intros acc; simpl; [lia|].
  unfold val_from in *. rewrite IH, (digit_lookup _ _ al_last).
  replace (acc * List.length al + (List.length al - 1) + 1)%nat
    with ((acc + 1) * List.length al)%nat by lia.
  lia.
Qed.

Lemma val_repeat_first j : forall acc,
  (val_from acc (repeat c0 j) = acc * List.length al ^ j)%nat.
Proof.
  induction j as [|j IH]; intros acc; simpl; [lia|].
  unfold val_from in *. rewrite IH, (digit_lookup _ _ al_first). lia.
Qed.

Lemma val_bound u : forall acc,
  Forall (fun c => c ∈ al) u ->
  (val_from acc u + 1 <= (acc + 1) * List.length al ^ List.length u)%nat.
Proof.
  induction u as [|c u IH]; intros acc Hu; simpl; [lia|].
  apply Forall_cons in Hu as [Hc Hu].
  apply list_elem_of_lookup in Hc as [d Hd].
  pose proof (lookup_lt_Some _ _ _ Hd) as Hlt.
  unfold val_from in *. etransitivity; [apply IH; assumption|].
  rewrite (digit_lookup _ _ Hd).
  rewrite Nat.mul_assoc. apply Nat.mul_le_mono_r. lia.
Qed.

Lemma val_advance pre c c' d j :
  al !! d = Some c -> al !! (S d) = Some c' ->
  val (pre ++ c' :: repeat c0 j) = (val (pre ++ c :: repeat cl j) + 1)%nat.
Proof.
  intros Hd Hs. unfold val. rewrite !val_from_app.
  change (val_from ?a (?x :: ?l)) with (val_from (a * List.length al + digit x) l).
  rewrite val_repeat_first, val_repeat_last.
  rewrite (digit_lookup _ _ Hd), (digit_lookup _ _ Hs). lia.
Qed.

(** Every cursor over the alphabet is all last-symbols, or has a symbol
    that can still be advanced in front of a run of last-symbols. *)
Lemma cursor_shape u :
  Forall (fun c => c ∈ al) u ->
  u = repeat cl (List.length u) \/
  exists pre c c' d j,
    u = pre ++ c :: repeat cl j /\ al !! d = Some c /\ al !! (S d) = Some c'.
Proof.
  induction u as [|x u IH] using rev_ind; intros Hu; [by left|].
  apply Forall_app in Hu as [Hu Hx]. apply Forall_cons in Hx as [Hx _].
  apply list_elem_of_lookup in Hx as [d Hd].
  pose proof (lookup_lt_Some _ _ _ Hd) as Hlt.
  destruct (decide (d = List.length al - 1)%nat) as [->|Hne].
  - assert (x = cl) as -> by congruence.
    destruct (IH Hu) as [Hall|(pre & c & c' & e & j & -> & He & Hs)].
    + left. rewrite length_app. simpl. rewrite Nat.add_1_r.
      rewrite <- (app_nil_r (repeat cl (S _))), repeat_snoc_app. by rewrite <- Hall.
    + right. exists pre, c, c', e, (S j). split; [|done].
      rewrite <- app_assoc. cbn [app]. f_equal.
      change (c :: repeat cl (S j)) with (c :: (repeat cl (S j))).
      rewrite <- (app_nil_r (repeat cl (S j))), repeat_snoc_app. reflexivity.
  - right. destruct (lookup_lt_is_Some_2 al (S d)) as [c' Hs]; [lia|].
    exists u, x, c', d, 0%nat. done.
Qed.

(** Generators over this alphabet whose cursor has the declared width. *)
Definition wf (g : generator) : Prop :=
  allowedchars g = al /\
  Forall (fun c => c ∈ al) (uidchars g) /\
  length g = Z.of_nat (List.length (uidchars g)).

Definition uid_of (g : generator) (u : list ascii) : string :=
  (sid g ++ string_of_list_ascii u)%string.

Lemma al_elem d c : al !! d = Some c -> c ∈ al.
Proof. intros H. apply list_elem_of_lookup. eauto. Qed.

Lemma repeat_elem c j : c ∈ al -> Forall (fun c => c ∈ al) (repeat c j).
Proof. intros H. induction j; simpl; constructor; assumption. Qed.

Lemma next_uid_advance g :
  wf g ->
  (val (uidchars g) + 1 < List.length al ^ List.length (uidchars g))%nat ->
  exists u',
    next_uid g = (Ok (uid_of g (uidchars g)), set_uidchars g u') /\
    wf (set_uidchars g u') /\
    val u' = (val (uidchars g) + 1)%nat /\
    List.length u' = List.length (uidchars g).
Proof.
  intros (Hal & Hu & Hlen) Hlt.
  destruct (cursor_shape _ Hu) as [Hall|(pre & c & c' & d & j & Heq & Hd & Hs)].
  - exfalso. pose proof (val_repeat_last (List.length (uidchars g)) 0) as Hv.
    rewrite <- Hall in Hv. unfold val in Hlt. lia.
  - exists (pre ++ c' :: repeat c0 j).
    assert (Hj : (j < List.length (uidchars g))%nat)
      by (rewrite Heq, length_app; simpl; rewrite repeat_length; lia).
    unfold next_uid, increment_fuel. rewrite Hlen.
    replace (2 * List.length (uidchars g) + 2)%nat
      with (j + S (2 * List.length (uidchars g) + 1 - j))%nat by lia.
    rewrite (increment_advance j _ g pre d c c' Hal Hd Hs Heq).
    split; [reflexivity|]. split; [|split].
    + split; [exact Hal|]. split.
      * cbn [uidchars set_uidchars]. rewrite Heq in Hu.
        apply Forall_app in Hu as [Hpre _]. apply Forall_app. split; [exact Hpre|].
        constructor; [exact (al_elem _ _ Hs)|apply repeat_elem, (al_elem _ _ al_first)].
      * cbn [uidchars set_uidchars length]. rewrite Hlen, Heq.
        rewrite !length_app. simpl. by rewrite !repeat_length.
    + rewrite Heq. exact (val_advance pre c c' d j Hd Hs).
    + rewrite Heq, !length_app. simpl. by rewrite !repeat_length.
Qed.

Lemma next_uid_overflow g c1 :
  wf g -> al !! 1%nat = Some c1 ->
  (1 <= List.length (uidchars g))%nat ->
  (val (uidchars g) + 1 = List.length al ^ List.length (uidchars g))%nat ->
  next_uid g = (Ok (uid_of g (uidchars g)),
                set_uidchars g (repeat c0 (List.length (uidchars g) - 1) ++ [c1])).
Proof.
  intros (Hal & Hu & Hlen) H1 Hpos Hv.
  destruct (cursor_shape _ Hu) as [Hall|(pre & c & c' & d & j & Heq & Hd & Hs)].
  - destruct (List.length (uidchars g)) as [|w] eqn:Hw; [lia|].
    unfold next_uid, increment_fuel. rewrite Hlen, Hw.
    replace (2 * S w + 2)%nat with (S w + S (S (S w)))%nat by lia.
    pose proof (increment_overflow w (S (S w)) g c1 Hal H1 Hall) as Hinc.
    rewrite Hw in Hinc. rewrite Hinc.
    replace (S w - 1)%nat with w by lia. reflexivity.
  - exfalso.
    assert (Hu' : Forall (fun c => c ∈ al) (pre ++ c' :: repeat c0 j)).
    { rewrite Heq in Hu. apply Forall_app in Hu as [Hpre _]. apply Forall_app.
      split; [exact Hpre|].
      constructor; [exact (al_elem _ _ Hs)|apply repeat_elem, (al_elem _ _ al_first)]. }
    pose proof (val_bound _ 0 Hu') as Hb.
    pose proof (val_advance pre c c' d j Hd Hs) as Ha. unfold val in *.
    rewrite Heq in Hv.
    replace (List.length (pre ++ c' :: repeat c0 j))
      with (List.length (pre ++ c :: repeat cl j)) in Hb
      by (rewrite !length_app; simpl; by rewrite !repeat_length).
    lia.
Qed.

Lemma calls_app n m : forall g,
  calls (n + m) g
  = (fst (calls n g) ++ fst (calls m (snd (calls n g))),
     snd (calls m (snd (calls n g)))).
Proof.
  induction n as [|n IH]; intros g; simpl.
  - by destruct (calls m g).
  - destruct (next_uid g) as [r g1]. rewrite IH.
    destruct (calls n g1) as [rs g2]. reflexivity.
Qed.

(** While the cursor stays below the largest value, call number [i]
    returns the cursor of value [v + i] and leaves value [v + i + 1]. *)
Lemma calls_advance n : forall g,
  wf g ->
  (val (uidchars g) + n < List.length al ^ List.length (uidchars g))%nat ->
  exists us,
    fst (calls n g) = map (fun u => Ok (uid_of g u)) us /\
    map val us = seq (val (uidchars g)) n /\
    wf (snd (calls n g)) /\
    val (uidchars (snd (calls n g))) = (val (uidchars g) + n)%nat /\
    List.length (uidchars (snd (calls n g))) = List.length (uidchars g) /\
    sid (snd (calls n g)) = sid g.
Proof.
  induction n as [|n IH]; intros g Hwf Hlt.
  - exists []. simpl. repeat split; try apply Hwf. lia.
  - destruct (next_uid_advance g Hwf) as (u' & Hnext & Hwf' & Hval & Hlen); [lia|].
    destruct (IH (set_uidchars g u') Hwf') as (us & Hus & Hvals & Hwf2 & Hv2 & Hl2 & Hs2).
    { cbn [uidchars set_uidchars]. rewrite Hval, Hlen. lia. }
    exists (uidchars g :: us). cbn [calls]. rewrite Hnext.
    destruct (calls n (set_uidchars g u')) as [rs g2] eqn:Hc.
    cbn [fst snd uidchars set_uidchars] in *.
    repeat split; try apply Hwf2.
    + cbn [map]. by rewrite Hus.
    + cbn [map seq]. f_equal. rewrite Hvals, Hval. f_equal. lia.
    + lia.
    + lia.
    + exact Hs2.
Qed.

Variable c1 : ascii.
Hypothesis al_second : al !! 1%nat = Some c1.

Lemma next_uid_ok g :
  wf g -> (1 <= List.length (uidchars g))%nat ->
  exists g', next_uid g = (Ok (uid_of g (uidchars g)), g').
Proof.
  intros Hwf Hpos. pose proof (val_bound _ 0 (proj1 (proj2 Hwf))) as Hb.
  destruct (decide (val (uidchars g) + 1 < List.length al ^ List.length (uidchars g))%nat)
    as [Hlt|Hge].
  - destruct (next_uid_advance g Hwf Hlt) as (u' & Hn & _). eauto.
  - eexists. apply (next_uid_overflow g c1 Hwf al_second Hpos). unfold val in *. lia.
Qed.

Lemma pow_pos_al n : (1 <= List.length al ^ n)%nat.
Proof. induction n; simpl; nia. Qed.

(** All [N = k ^ width] calls on a fresh cursor succeed, enumerate the
    values [0 .. N-1], and leave the cursor on value 1, not on 0. *)
Lemma calls_all w g :
  wf g -> uidchars g = repeat c0 (S w) ->
  let N := (List.length al ^ S w)%nat in
  exists us,
    fst (calls N g) = map (fun u => Ok (uid_of g u)) us /\
    map val us = seq 0 N /\
    wf (snd (calls N g)) /\
    uidchars (snd (calls N g)) = repeat c0 w ++ [c1] /\
    sid (snd (calls N g)) = sid g.
Proof.
  intros Hwf Hu N.
  assert (Hv0 : val (uidchars g) = 0%nat).
  { rewrite Hu. unfold val. rewrite val_repeat_first. lia. }
  assert (Hl : List.length (uidchars g) = S w) by (by rewrite Hu, repeat_length).
  pose proof (pow_pos_al (S w)) as HN. fold N in HN.
  destruct N as [|M] eqn:HNM; [lia|]. clear HN.
  destruct (calls_advance M g Hwf) as (us & Hus & Hvals & Hwf1 & Hv1 & Hl1 & Hs1).
  { rewrite Hv0, Hl. unfold N in HNM. rewrite HNM. lia. }
  replace (S M) with (M + 1)%nat by lia.
  rewrite calls_app. cbn [fst snd].
  set (g1 := snd (calls M g)) in *.
  assert (Hnext : next_uid g1 = (Ok (uid_of g1 (uidchars g1)),
                                 set_uidchars g1 (repeat c0 w ++ [c1]))).
  { rewrite (next_uid_overflow g1 c1 Hwf1 al_second).
    - rewrite Hl1, Hl. replace (S w - 1)%nat with w by lia. reflexivity.
    - lia.
    - rewrite Hv1, Hv0, Hl1, Hl. unfold N in HNM. rewrite HNM. lia. }
  cbn [calls]. rewrite Hnext. cbn [fst snd].
  exists (us ++ [uidchars g1]). rewrite map_app, Hus. cbn [map].
  unfold uid_of at 2. rewrite Hs1. fold (uid_of g (uidchars g1)).
  split; [reflexivity|]. split; [|split; [|split]].
  - rewrite map_app, Hvals. cbn [map]. rewrite Hv1, Hv0.
    rewrite seq_app. reflexivity.
  - destruct Hwf1 as (Ha & Hf & Hlen). split; [exact Ha|]. split.
    + cbn [uidchars set_uidchars]. apply Forall_app. split.
      * apply repeat_elem, (al_elem _ _ al_first).
      * constructor; [exact (al_elem _ _ al_second)|constructor].
    + cbn [uidchars set_uidchars length]. rewrite Hlen, Hl1, Hl.
      rewrite length_app, repeat_length. simpl. f_equal. lia.
  - reflexivity.
  - exact Hs1.
Qed.

Lemma uid_of_inj g u v : uid_of g u = uid_of g v -> u = v.
Proof.
  unfold uid_of. intros H.
  assert (Hs : string_of_list_ascii u = string_of_list_ascii v).
  { induction (sid g) as [|a s IH]; [exact H|]. simpl in H. injection H. exact IH. }
  apply (f_equal list_ascii_of_string) in Hs.
  by rewrite !list_ascii_of_string_of_list_ascii in Hs.
Qed.

Lemma next_uid_first w g :
  wf g -> uidchars g = repeat c0 (S w) ->
  next_uid g = (Ok (uid_of g (uidchars g)), set_uidchars g (repeat c0 w ++ [c1])).
Proof.
  intros (Hal & Hf & Hlen) Hu.
  assert (Hu' : uidchars g = repeat c0 w ++ c0 :: repeat cl 0).
  { rewrite Hu, <- (app_nil_r (repeat c0 (S w))), repeat_snoc_app. reflexivity. }
  unfold next_uid, increment_fuel. rewrite Hlen.
  replace (2 * List.length (uidchars g) + 2)%nat
    with (0 + S (2 * List.length (uidchars g) + 1))%nat by lia.
  rewrite (increment_advance 0 _ g (repeat c0 w) 0 c0 c1 Hal al_first al_second Hu').
  reflexivity.
Qed.

Lemma calls_distinct w g :
  wf g -> uidchars g = repeat c0 (S w) ->
  exists uids,
    fst (calls (List.length al ^ S w) g) = map Ok uids /\ NoDup uids.
Proof.
  intros Hwf Hu.
  destruct (calls_all w g Hwf Hu) as (us & Hus & Hvals & _).
  exists (map (uid_of g) us). split.
  - rewrite Hus, map_map. reflexivity.
  - assert (Hnd : NoDup us).
    { apply (NoDup_fmap_1 val). change (NoDup (map val us)).
      rewrite Hvals. apply NoDup_ListNoDup, List.seq_NoDup. }
    clear Hus Hvals. induction Hnd as [|u us Hnot Hnd IH]; [constructor|].
    cbn [map]. constructor; [|exact IH].
    intros Hin. apply Hnot. apply list_elem_of_In in Hin.
    apply in_map_iff in Hin as (v & Heq & Hv). apply uid_of_inj in Heq. subst v.
    by apply list_elem_of_In.
Qed.

(** Call number N+1 does not raise: it hands out the identifier of the
    second call again. *)
Lemma calls_wrap w g :
  wf g -> uidchars g = repeat c0 (S w) ->
  let N := (List.length al ^ S w)%nat in
  let u := uid_of g (repeat c0 w ++ [c1]) in
  fst (calls (N + 1) g) !! N = Some (Ok u) /\
  fst (calls (N + 1) g) !! 1%nat = Some (Ok u).
Proof.
  intros Hwf Hu N u.
  assert (Hl : List.length (uidchars g) = S w) by (by rewrite Hu, repeat_length).
  assert (HN : (2 <= N)%nat).
  { unfold N. cbn [Nat.pow]. pose proof (pow_pos_al w). nia. }
  split.
  - destruct (calls_all w g Hwf Hu) as (us & Hus & Hvals & Hwf1 & Hu1 & Hs1).
    fold N in Hus, Hvals, Hwf1, Hu1, Hs1.
    rewrite calls_app. cbn [fst].
    assert (Hlen : List.length (fst (calls N g)) = N).
    { rewrite Hus, length_map, <- (length_map val), Hvals. apply length_seq. }
    rewrite lookup_app_r by lia. rewrite Hlen, Nat.sub_diag.
    destruct (next_uid_ok (snd (calls N g)) Hwf1) as (g' & Hn).
    { rewrite Hu1, length_app. simpl. lia. }
    cbn [calls]. rewrite Hn. cbn [fst lookup]. unfold uid_of. rewrite Hs1, Hu1.
    reflexivity.
  - replace (N + 1)%nat with (2 + (N - 1))%nat by lia.
    rewrite calls_app. cbn [fst calls].
    rewrite (next_uid_first w g Hwf Hu).
    assert (Hwf1 : wf (set_uidchars g (repeat c0 w ++ [c1]))).
    { destruct Hwf as (Ha & Hf & Hlen). split; [exact Ha|]. split.
      - cbn [uidchars set_uidchars]. apply Forall_app. split.
        + apply repeat_elem, (al_elem _ _ al_first).
        + constructor; [exact (al_elem _ _ al_second)|constructor].
      - cbn [uidchars set_uidchars length]. rewrite Hlen, Hl.
        rewrite length_app, repeat_length. simpl. f_equal. lia. }
    destruct (next_uid_ok _ Hwf1) as (g' & Hn).
    { cbn [uidchars set_uidchars]. rewrite length_app. simpl. lia. }
    rewrite Hn. reflexivity.
Qed.

End Odometer.

Lemma fresh_shape (allowed : string) (w : nat) (s : string) :
  (2 <= List.length (list_ascii_of_string allowed))%nat ->
  exists c0 c1 cl,
    let al := list_ascii_of_string allowed in
    al !! 0%nat = Some c0 /\ al !! 1%nat = Some c1 /\
    al !! (List.length al - 1)%nat = Some cl /\
    fresh allowed (Z.of_nat w) s = mkGen al (Z.of_nat w) (repeat c0 w) s.
Proof.
  intros Hk. set (al := list_ascii_of_string allowed) in *.
  destruct (lookup_lt_is_Some_2 al 0) as [c0 H0]; [lia|].
  destruct (lookup_lt_is_Some_2 al 1) as [c1 H1]; [lia|].
  destruct (lookup_lt_is_Some_2 al (List.length al - 1)) as [cl Hl]; [lia|].
  exists c0, c1, cl. cbn zeta. repeat split; try assumption.
  unfold fresh, init. fold al.
  unfold py_nth. rewrite (norm_index_front _ 0) by lia. unfold index. rewrite H0.
  by rewrite Nat2Z.id.
Qed.

(** X5. With at least two distinct symbols and a width of at least one, the
    first N = k ^ width calls on a fresh generator all return, and the
    identifiers are pairwise distinct. *)
Theorem fresh_calls_distinct (allowed : string) (w : nat) (s : string) :
  NoDup (list_ascii_of_string allowed) ->
  (2 <= List.length (list_ascii_of_string allowed))%nat ->
  (1 <= w)%nat ->
  exists uids,
    fst (calls (List.length (list_ascii_of_string allowed) ^ w)
               (fresh allowed (Z.of_nat w) s)) = map Ok uids
    /\ NoDup uids.
Proof.
  intros Hnd Hk Hw. destruct w as [|w]; [lia|].
  destruct (fresh_shape allowed (S w) s Hk) as (c0 & c1 & cl & H0 & H1 & Hl & Hg).
  rewrite Hg.
  apply (calls_distinct _ c0 cl Hnd Hk H0 Hl c1 H1 w); [|reflexivity].
  split; [reflexivity|]. split.
  - apply repeat_elem. apply list_elem_of_lookup. eauto.
  - cbn [length uidchars]. by rewrite repeat_length.
Qed.

(** X6. Under the same conditions call N+1 returns as well, with the very
    identifier the second call returned. *)
Theorem fresh_calls_wrap (allowed : string) (w : nat) (s : string) :
  NoDup (list_ascii_of_string allowed) ->
  (2 <= List.length (list_ascii_of_string allowed))%nat ->
  (1 <= w)%nat ->
  let N := (List.length (list_ascii_of_string allowed) ^ w)%nat in
  let rs := fst (calls (N + 1) (fresh allowed (Z.of_nat w) s)) in
  exists uid, rs !! N = Some (Ok uid) /\ rs !! 1%nat = Some (Ok uid).
Proof.
  intros Hnd Hk Hw. destruct w as [|w]; [lia|].
  destruct (fresh_shape allowed (S w) s Hk) as (c0 & c1 & cl & H0 & H1 & Hl & Hg).
  cbn zeta. rewrite Hg. eexists.
  apply (calls_wrap _ c0 cl Hnd Hk H0 Hl c1 H1 w); [|reflexivity].
  split; [reflexivity|]. split.
  - apply repeat_elem. apply list_elem_of_lookup. eauto.
  - cbn [length uidchars]. by rewrite repeat_length.
Qed.

(** A one-symbol alphabet never yields an identifier: the carry walks
    through every index down to [-width - 1] and raises IndexError. *)
Example one_symbol_alphabet :
  fst (calls 1 (fresh "A" 3 "0")) = [Raise IndexError].
Proof. vm_compute. reflexivity. Qed.

(** C2. Alphabet "AB", width 2, server segment "0": the four identifiers
    of the space are handed out once each, and the fifth call, where the
    space is exhausted, raises nothing and returns "0AB" a second time. *)
Theorem next_uid_exhausted_repeats :
  let rs := fst (calls 5 (fresh "AB" 2 "0")) in
  rs = [Ok "0AA"; Ok "0AB"; Ok "0BA"; Ok "0BB"; Ok "0AB"]
  /\ rs !! 4%nat = rs !! 1%nat
  /\ (forall e, rs !! 4%nat <> Some (Raise e)).
Proof.
  cbn zeta.
  assert (H : fst (calls 5 (fresh "AB" 2 "0"))
              = [Ok "0AA"; Ok "0AB"; Ok "0BA"; Ok "0BB"; Ok "0AB"])
    by (vm_compute; reflexivity).
  rewrite H. split; [reflexivity|]. split; [reflexivity|]. intros e; discriminate.
Qed.

(** *** Further properties of the generator *)

Lemma lookup_repeat {A} (x : A) w n : (n < w)%nat -> repeat x w !! n = Some x.
Proof.
  revert n. induction w as [|w IH]; intros n Hn; [lia|].
  destruct n as [|n]; [reflexivity|]. cbn. apply IH. lia.
Qed.

Lemma py_nth_repeat {A} (x : A) w pos :
  (- Z.of_nat w <= pos < Z.of_nat w)%Z -> py_nth (repeat x w) pos = Ok x.
Proof.
  intros H. unfold py_nth. rewrite repeat_length.
  destruct (norm_index w pos) as [n|] eqn:E.
  - apply norm_index_bounds in E as [_ Hn]. unfold index. by rewrite lookup_repeat.
  - unfold norm_index in E.
    destruct ((0 <=? pos) && (pos <? Z.of_nat w))%Z eqn:E1; [discriminate|].
    destruct ((- Z.of_nat w <=? pos) && (pos <? 0))%Z eqn:E2; [discriminate|].
    apply andb_false_iff in E1, E2. exfalso.
    destruct E1 as [E1|E1], E2 as [E2|E2];
      rewrite ?Z.leb_gt, ?Z.ltb_ge in E1, E2; lia.
Qed.

Lemma py_set_repeat {A} (x : A) w pos :
  (- Z.of_nat w <= pos < Z.of_nat w)%Z -> py_set (repeat x w) pos x = Ok (repeat x w).
Proof.
  intros H. pose proof (py_nth_repeat x w pos H) as Hn.
  unfold py_nth, py_set in *. rewrite repeat_length in *.
  destruct (norm_index w pos) as [n|] eqn:E; [|discriminate].
  apply norm_index_bounds in E as [_ Hlt]. f_equal.
  apply list_insert_id. by apply lookup_repeat.
Qed.

(** With one symbol every position already holds the last symbol, so the
    carry walks down through every index Python accepts and then fails. *)
Lemma increment_one_symbol c w n : forall fuel g,
  allowedchars g = [c] -> uidchars g = repeat c w ->
  (n <= 2 * w)%nat -> (n < fuel)%nat ->
  increment fuel g (Z.of_nat n - Z.of_nat w - 1) = (Raise IndexError, g).
Proof.
  induction n as [|n IH]; intros fuel g Hal Hu Hn Hfuel;
    (destruct fuel as [|fuel]; [lia|]); cbn [increment].
  - rewrite Hu. unfold py_nth at 1. rewrite repeat_length.
    assert (E : norm_index w (Z.of_nat 0 - Z.of_nat w - 1) = None).
    { unfold norm_index.
      rewrite (proj2 (andb_false_iff _ _)) by (left; apply Z.leb_gt; lia).
      by rewrite (proj2 (andb_false_iff _ _)) by (left; apply Z.leb_gt; lia). }
    by rewrite E.
  - rewrite Hu, Hal.
    rewrite py_nth_repeat by lia. change (py_nth [c] (-1)) with (Ok c).
    cbv beta iota. rewrite Ascii.eqb_refl. change (py_nth [c] 0) with (Ok c).
    cbv beta iota. rewrite py_set_repeat by lia. rewrite <- Hu at 1. rewrite set_uidchars_id.
    replace (Z.of_nat (S n) - Z.of_nat w - 1 - 1)%Z with (Z.of_nat n - Z.of_nat w - 1)%Z by lia.
    apply IH; auto; lia.
Qed.

(** X7. With one symbol in the alphabet a fresh generator of any width
    never hands out an identifier: the first call raises IndexError and the
    generator is as before. *)
Theorem one_symbol_never_yields (c : ascii) (w : nat) (s : string) :
  next_uid (fresh (String c EmptyString) (Z.of_nat w) s)
  = (Raise IndexError, fresh (String c EmptyString) (Z.of_nat w) s).
Proof.
  assert (Hg : fresh (String c EmptyString) (Z.of_nat w) s
               = mkGen [c] (Z.of_nat w) (repeat c w) s).
  { unfold fresh, init. cbn [list_ascii_of_string]. change (py_nth [c] 0) with (Ok c).
    by rewrite Nat2Z.id. }
  rewrite Hg. unfold next_uid, increment_fuel. cbn [uidchars length sid allowedchars].
  rewrite repeat_length.
  replace (Z.of_nat w - 1)%Z with (Z.of_nat (2 * w) - Z.of_nat w - 1)%Z by lia.
  rewrite (increment_one_symbol c w (2 * w)); [reflexivity| reflexivity | reflexivity | lia | lia].
Qed.

Lemma nodup_AB : NoDup (list_ascii_of_string "AB").
Proof. apply (bool_decide_unpack _). vm_compute. exact I. Qed.

Lemma fresh_calls_distinct_witness :
  exists uids,
    fst (calls (List.length (list_ascii_of_string "AB") ^ 2) (fresh "AB" (Z.of_nat 2) "0"))
    = map Ok uids
    /\ NoDup uids.
Proof.
  apply (fresh_calls_distinct "AB" 2 "0").
  - exact nodup_AB.
  - vm_compute. lia.
  - lia.
Defined.

Lemma fresh_calls_wrap_witness :
  let N := (List.length (list_ascii_of_string "AB") ^ 2)%nat in
  let rs := fst (calls (N + 1) (fresh "AB" (Z.of_nat 2) "0")) in
  exists uid, rs !! N = Some (Ok uid) /\ rs !! 1%nat = Some (Ok uid).
Proof.
  apply (fresh_calls_wrap "AB" 2 "0").
  - exact nodup_AB.
  - vm_compute. lia.
  - lia.
Defined.

End UIDGen.

(** ** Network state and the shared protocol handlers *)

Module Proto.
Import Py.

(** [s[-1]] of a list. *)
Definition index_last {A} (l : list A) : outcome A :=
  match last l with
  | Some x => Ok x
  | None => Raise IndexError
  end.

(** [l.remove(x)]: drops the first occurrence; [None] stands for the
    ValueError of a missing element. *)
Fixpoint list_remove (x : string) (l : list string) : option (list string) :=
  match l with
  | [] => None
  | y :: l' =>
      if bool_decide (y = x) then Some l'
      else match list_remove x l' with
           | Some r => Some (y :: r)
           | None => None
           end
  end.

(** *** Data model (the classes of classes.py as this module uses them) *)

Record Server : Type := mkServer {
  s_name : string;
  s_uplink : option string;
  s_users : gset string
}.

Record User : Type := mkUser {
  nick : string;
  channels : gset string
}.

Record Channel : Type := mkChannel {
  c_users : gset string;
  c_topic : string;
  c_topicset : bool
}.

(** One network object.  [sent] is the log of lines handed to [send()]. *)
Record Network : Type := mkNetwork {
  name : string;
  sid : option string;
  uplink : option string;
  servers : gmap string Server;
  users : gmap string User;
  _channels : gmap string Channel;
  sent : list string
}.

Definition set_servers (st : Network) (s : gmap string Server) : Network :=
  mkNetwork (name st) (sid st) (uplink st) s (users st) (_channels st) (sent st).
Definition set_users (st : Network) (u : gmap string User) : Network :=
  mkNetwork (name st) (sid st) (uplink st) (servers st) u (_channels st) (sent st).
Definition set_channels (st : Network) (c : gmap string Channel) : Network :=
  mkNetwork (name st) (sid st) (uplink st) (servers st) (users st) c (sent st).
Definition set_sent (st : Network) (l : list string) : Network :=
  mkNetwork (name st) (sid st) (uplink st) (servers st) (users st) (_channels st) l.

(** *** State-and-exception monad: a raised exception keeps the mutations
    made before it, as in-place mutation of the network object does. *)
Definition M (A : Type) : Type := Network -> outcome A * Network.

Definition ret {A} (a : A) : M A := fun st => (Ok a, st).
Definition raise {A} (e : exn) : M A := fun st => (Raise e, st).
Definition out_of_fuel {A} : M A := fun st => (OutOfFuel, st).
Definition bind {A B} (m : M A) (k : A -> M B) : M B :=
  fun st =>
    match m st with
    | (Ok a, st') => k a st'
    | (Raise e, st') => (Raise e, st')
    | (OutOfFuel, st') => (OutOfFuel, st')
    end.
Definition get : M Network := fun st => (Ok st, st).
Definition put (st : Network) : M unit := fun _ => (Ok tt, st).
Definition lift {A} (o : outcome A) : M A := fun st => (o, st).

Notation "'let*' x ':=' m 'in' k" := (bind m (fun x => k))
  (at level 10, x pattern, m at level 200, k at level 200).

(** [for x in l: acc = body(acc, x)] with the effects of each body. *)
Fixpoint foldM {A B} (f : B -> A -> M B) (l : list A) (acc : B) : M B :=
  match l with
  | [] => ret acc
  | x :: l' => let* acc' := f acc x in foldM f l' acc'
  end.

(** [d[k]] on a plain dict. *)
Definition dict_get {V} (d : gmap string V) (k : string) : M V :=
  match d !! k with
  | Some v => ret v
  | None => raise KeyError
  end.

(** Parts of the base class IRCNetwork (classes.py) that this module calls
    and that it reads only through their results. *)
Record Base : Type := mkBase {
  nick_to_uid : Network -> string -> option string;
  is_internal_client : Network -> string -> bool;
  is_internal_server : Network -> string -> bool;
  _expandPUID : Network -> string -> string;
  get_friendly_name : Network -> string -> outcome string;
  (** whether a channel left without members is deleted from the table *)
  drops_empty : string -> Channel -> bool
}.

(** Modelled from the spec: Channel.remove_user of classes.py, which is
    not part of the sources at hand.  It takes the UID out of the channel's
    membership. *)
Definition remove_user (target : string) (c : Channel) : Channel :=
  mkChannel (c_users c ∖ {[target]}) (c_topic c) (c_topicset c).

(** Modelled from the spec: the channel table of classes.py.  A channel
    comes into being on first access ("created on first join/topic burst"),
    so [self._channels[name]] never fails: a missing entry is created
    empty. *)
Definition new_channel : Channel := mkChannel ∅ "" false.

Definition channel_at (st : Network) (cname : string) : Channel :=
  default new_channel (_channels st !! cname).

Definition with_channel (cname : string) (f : Channel -> Channel) : M unit :=
  fun st => (Ok tt, set_channels st (<[cname := f (channel_at st cname)]> (_channels st))).

Section WithBase.
Variable B : Base.

(** Modelled from the spec: IRCNetwork._remove_client of classes.py.  The
    client leaves every channel's membership (a channel left empty is
    deleted where the channel policy says so), the user table, and the
    user set of its home server. *)
Definition channel_kept (kv : string * Channel) : bool :=
  negb (bool_decide (c_users kv.2 = ∅) && drops_empty B kv.1 kv.2).

Definition _remove_client (numeric : string) : M unit :=
  fun st =>
    let chans := filter (fun kv => channel_kept kv = true)
                        (remove_user numeric <$> _channels st) in
    let srvs := (fun s => mkServer (s_name s) (s_uplink s) (s_users s ∖ {[numeric]}))
                  <$> servers st in
    (Ok tt, mkNetwork (name st) (sid st) (uplink st) srvs
                      (delete numeric (users st)) chans (sent st)).

(** [_get_SID]: a key of the server table (looked up lower-cased), else the
    first server whose lower-cased name matches, else the text itself. *)
Definition _get_SID (st : Network) (sname : string) : string :=
  let name := lower sname in
  if bool_decide (is_Some (servers st !! name)) then name
  else match List.find (fun kv => bool_decide (lower (s_name kv.2) = name))
                       (map_to_list (servers st)) with
       | Some kv => kv.1
       | None => sname
       end.

(** [_get_UID]: [self.nick_to_uid(target) or target]. *)
Definition _get_UID (st : Network) (target : string) : string :=
  if bool_decide (is_Some (users st !! target)) then target
  else match nick_to_uid B st target with
       | Some u => if bool_decide (u = "") then target else u
       | None => target
       end.

(** *** Inbound handlers *)

Record part_payload : Type := mkPart {
  part_channels : list string;
  part_text : string
}.

(** One round of the [for channel in channels.copy()] loop of
    [handle_part]; the accumulator is the list [channels] as edited so far
    and the local [reason] (unbound before the first round). *)
Definition part_step (source : string) (args : list string)
    (acc : list string * option string) (channel : string)
    : M (list string * option string) :=
  let* st := get in
  let* chans :=
    (if negb (bool_decide (is_Some (_channels st !! channel)))
        || negb (bool_decide (source ∈ c_users (channel_at st channel)))
     then match list_remove channel acc.1 with
          | Some l => ret l
          | None => raise ValueError
          end
     else ret acc.1) in
  let* _ := with_channel channel (remove_user source) in
  let* _ := (fun st =>
               (Ok tt,
                match users st !! source with
                | Some u =>
                    set_users st (<[source := mkUser (nick u) (channels u ∖ {[channel]})]>
                                    (users st))
                | None => st   (* the KeyError is caught and logged *)
                end)) in
  let reason := default "" (args !! 1%nat) in
  ret (chans, Some reason).

Definition handle_part (source command : string) (args : list string)
    : M (option part_payload) :=
  let* a0 := lift (index args 0) in
  let chans := split "," a0 in
  let* r := foldM (part_step source args) chans (chans, None) in
  match r.1 with
  | [] => ret None
  | _ :: _ =>
      match r.2 with
      | Some reason => ret (Some (mkPart r.1 reason))
      | None => raise NameError
      end
  end.

Record kick_payload : Type := mkKick {
  kick_channel : string;
  kick_target : string;
  kick_text : string
}.

Definition handle_kick (source command : string) (args : list string)
    : M (option kick_payload) :=
  let* channel := lift (index args 0) in
  let* a1 := lift (index args 1) in
  let* st := get in
  let kicked := _get_UID st a1 in
  let reason := default "" (args !! 2%nat) in
  let* _ := handle_part kicked "KICK" [channel; reason] in
  ret (Some (mkKick channel kicked reason)).

Record kill_payload : Type := mkKill {
  kill_target : string;
  kill_text : string;
  kill_userdata : option User
}.

Definition handle_kill (source command : string) (args : list string)
    : M (option kill_payload) :=
  let* a0 := lift (index args 0) in
  let* st := get in
  let killed := _get_UID st a0 in
  let data := users st !! killed in
  let* _ := (match data with
             | Some _ => _remove_client killed
             | None => ret tt
             end) in
  let* a1 := lift (index args 1) in
  let* first := lift (index (split1 " " a1) 0) in
  let* killmsg :=
    (if contains "!" first then
       let* st' := get in
       let* killer := (match get_friendly_name B st' source with
                       | Ok n => ret n
                       | Raise KeyError => ret source
                       | Raise e => raise e
                       | OutOfFuel => out_of_fuel
                       end) in
       let killmsg := slice_1_last (join " " (tail (split " " a1))) in
       if bool_decide (killmsg = "")
       then raise NameError   (* [irc.name]: no [irc] is in scope here *)
       else ret killmsg
     else ret a1) in
  ret (Some (mkKill killed killmsg data)).

Record quit_payload : Type := mkQuit { quit_text : string }.

Definition handle_quit (numeric command : string) (args : list string)
    : M (option quit_payload) :=
  let* _ := _remove_client numeric in
  let* a0 := lift (index args 0) in
  ret (Some (mkQuit a0)).

(** *** Topology cascade *)

Record squit_payload : Type := mkSquit {
  sq_target : string;
  sq_users : list string;
  sq_name : string;
  sq_uplink : option string;
  sq_nicks : gmap string (list string);
  sq_serverdata : Server;
  sq_channeldata : gmap string Channel;
  sq_affected_servers : list string
}.

(** [affected_nicks[name].append(nick)] on a [defaultdict(list)]. *)
Definition nicks_append (name nick : string) (m : gmap string (list string))
    : gmap string (list string) :=
  <[name := default [] (m !! name) ++ [nick]]> m.

(** The inner loop over [old_channels.items()] for one user. *)
Definition note_nicks (old_channels : gmap string Channel) (user nick : string)
    (m : gmap string (list string)) : gmap string (list string) :=
  fold_left (fun acc kv =>
               if bool_decide (user ∈ c_users kv.2) then nicks_append kv.1 nick acc
               else acc)
            (map_to_list old_channels) m.

(** One round of [for user in self.servers[split_server].users.copy()]. *)
Definition squit_user_step (old_channels : gmap string Channel)
    (acc : list string * gmap string (list string)) (user : string)
    : M (list string * gmap string (list string)) :=
  let affected_users := acc.1 ++ [user] in
  let* st := get in
  let* u := dict_get (users st) user in
  let affected_nicks := note_nicks old_channels user (nick u) acc.2 in
  let* _ := _remove_client user in
  ret (affected_users, affected_nicks).

(** [serverdata = self.servers[k]] followed by [del self.servers[k]]. *)
Definition pop_server (k : string) : M Server :=
  fun st =>
    match servers st !! k with
    | Some serverdata => (Ok serverdata, set_servers st (delete k (servers st)))
    | None => (Raise KeyError, st)
    end.

Definition is_target (st : Network) (s : string) : bool :=
  bool_decide (sid st = Some s) || bool_decide (uplink st = Some s).

(** One round of [for sid, data in old_servers.items()]; [rec] is the
    recursive [self._squit].  The accumulator is
    [(affected_users, affected_servers)]. *)
Definition squit_child_step
    (rec : string -> string -> list string -> M (option squit_payload))
    (split_server : string)
    (acc : list string * list string) (kv : string * Server)
    : M (list string * list string) :=
  if bool_decide (s_uplink kv.2 = Some split_server) then
    let* sub := rec kv.1 "SQUIT"
                  [kv.1; "0";
                   "PyLink: Automatically splitting leaf servers of " +:+ kv.1] in
    match sub with
    | Some p => ret (acc.1 ++ sq_users p, acc.2 ++ sq_affected_servers p)
    | None => raise TypeError   (* subscripting None *)
    end
  else ret acc.

Fixpoint _squit (fuel : nat) (numeric command : string) (args : list string)
    : M (option squit_payload) :=
  match fuel with
  | O => out_of_fuel
  | S fuel' =>
      let* a0 := lift (index args 0) in
      let* st := get in
      let split_server := _get_SID st a0 in
      if is_target st split_server then
        let* reason := lift (index_last args) in
        raise (ProtocolError ("SQUIT received: (reason: " +:+ reason +:+ ")"))
      else if negb (bool_decide (is_Some (servers st !! split_server))) then
        ret None
      else
        let old_servers := servers st in
        let old_channels := _channels st in
        (* children first *)
        let* r := foldM (squit_child_step (_squit fuel') split_server)
                        (map_to_list old_servers) ([], [split_server]) in
        (* then the users of the split server itself *)
        let* st1 := get in
        let* srv := dict_get (servers st1) split_server in
        let* r2 := foldM (squit_user_step old_channels) (elements (s_users srv))
                         (r.1, ∅) in
        let* serverdata := pop_server split_server in
        ret (Some (mkSquit split_server r2.1 (s_name serverdata) (s_uplink serverdata)
                           r2.2 serverdata old_channels r.2))
  end.

(** [self.handle_squit = self._squit]; the budget covers one level of
    recursion per server in the table. *)
Definition handle_squit (numeric command : string) (args : list string)
    : M (option squit_payload) :=
  fun st => _squit (S (size (servers st))) numeric command args st.

(** *** Outbound command builders *)

(** [self.send(line)]: the line goes on the wire. *)
Definition send (line : string) : M unit :=
  fun st => (Ok tt, set_sent st (sent st ++ [line])).

Definition _send_with_prefix (source msg : string) : M unit :=
  let* st := get in
  send (":" +:+ _expandPUID B st source +:+ " " +:+ msg).

Definition no_client : exn := LookupError "No such PyLink client exists.".
Definition no_client_server : exn := LookupError "No such PyLink client/server exists.".

Definition invite (source target channel : string) : M unit :=
  let* st := get in
  if negb (is_internal_client B st source) then raise no_client
  else _send_with_prefix source ("INVITE " +:+ _expandPUID B st target +:+ " " +:+ channel).

Definition kick (numeric channel target : string) (reason : option string) : M unit :=
  let* st := get in
  if negb (is_internal_client B st numeric) && negb (is_internal_server B st numeric)
  then raise no_client_server
  else
    let reason := match reason with
                  | Some r => if bool_decide (r = "") then "No reason given" else r
                  | None => "No reason given"
                  end in
    let real_target := _expandPUID B st target in
    let* _ := _send_with_prefix numeric
                ("KICK " +:+ channel +:+ " " +:+ real_target +:+ " :" +:+ reason) in
    let* _ := handle_part target "KICK" [channel] in
    ret tt.

Definition numeric (source num target text : string) : M unit :=
  let* st := get in
  let target := _expandPUID B st target in
  _send_with_prefix source (num +:+ " " +:+ target +:+ " " +:+ text).

Definition part (client channel : string) (reason : option string) : M unit :=
  let* st := get in
  if negb (is_internal_client B st client) then raise no_client
  else
    let msg := "PART " +:+ channel in
    let msg := match reason with
               | Some r => if bool_decide (r = "") then msg else msg +:+ " :" +:+ r
               | None => msg
               end in
    let* _ := _send_with_prefix client msg in
    let* _ := handle_part client "PART" [channel] in
    ret tt.

Definition quit (numeric reason : string) : M unit :=
  let* st := get in
  if is_internal_client B st numeric then
    let* _ := _send_with_prefix numeric ("QUIT :" +:+ reason) in
    _remove_client numeric
  else raise no_client.

Definition message (numeric target text : string) : M unit :=
  let* st := get in
  if negb (is_internal_client B st numeric) then raise no_client
  else
    let target := _expandPUID B st target in
    _send_with_prefix numeric ("PRIVMSG " +:+ target +:+ " :" +:+ text).

Definition notice (numeric target text : string) : M unit :=
  let* st := get in
  if negb (is_internal_client B st numeric) && negb (is_internal_server B st numeric)
  then raise no_client_server
  else
    let target := _expandPUID B st target in
    _send_with_prefix numeric ("NOTICE " +:+ target +:+ " :" +:+ text).

Definition squit (source target text : string) : M unit :=
  let* st := get in
  let* _ := _send_with_prefix source
              ("SQUIT " +:+ _expandPUID B st target +:+ " :" +:+ text) in
  let* _ := handle_squit source "SQUIT" [target; text] in
  ret tt.

Definition topic (source target text : string) : M unit :=
  let* st := get in
  if negb (is_internal_client B st source) && negb (is_internal_server B st source)
  then raise no_client_server
  else
    let* _ := _send_with_prefix source ("TOPIC " +:+ target +:+ " :" +:+ text) in
    let* _ := with_channel target (fun c => mkChannel (c_users c) text (c_topicset c)) in
    with_channel target (fun c => mkChannel (c_users c) (c_topic c) true).

End WithBase.

(** *** A small network used in the examples below *)

(** No nick index, nothing owned, identity expansion, names looked up in
    the user table, emptied channels deleted. *)
Definition plain_base : Base :=
  mkBase (fun _ _ => None) (fun _ _ => false) (fun _ _ => false) (fun _ s => s)
         (fun st s => match users st !! s with
                      | Some u => Ok (nick u)
                      | None => Raise KeyError
                      end)
         (fun _ _ => true).

(** Own server 0AL, uplink 1ML; behind the uplink a hub 2AA with leaves
    3BB and 4CC, and 5DD below 3BB.  Users sit on 1ML, 2AA, 3BB and 5DD. *)
Definition demo_servers : gmap string Server :=
  list_to_map
    [("0AL", mkServer "pylink.local" None ∅);
     ("1ML", mkServer "uplink.net" None {["1MLAAAAAA"]});
     ("2AA", mkServer "hub.net" (Some "1ML") {["2AAAAAAAA"]});
     ("3BB", mkServer "leaf1.net" (Some "2AA") {["3BBAAAAAA"]});
     ("4CC", mkServer "leaf2.net" (Some "2AA") ∅);
     ("5DD", mkServer "deep.net" (Some "3BB") {["5DDAAAAAA"]})].

Definition demo_users : gmap string User :=
  list_to_map
    [("1MLAAAAAA", mkUser "alice" {["#a"]});
     ("2AAAAAAAA", mkUser "bob" {["#a"; "#b"]});
     ("3BBAAAAAA", mkUser "carol" {["#b"]});
     ("5DDAAAAAA", mkUser "dave" {["#a"]})].

Definition demo_channels : gmap string Channel :=
  list_to_map
    [("#a", mkChannel {["1MLAAAAAA"; "2AAAAAAAA"; "5DDAAAAAA"]} "" false);
     ("#b", mkChannel {["2AAAAAAAA"; "3BBAAAAAA"]} "" false)].

Definition demo : Network :=
  mkNetwork "net" (Some "0AL") (Some "1ML") demo_servers demo_users demo_channels [].

(** *** Reasoning about monadic code *)

Lemma bind_Ok {A C} (m : M A) (k : A -> M C) st a st' :
  m st = (Ok a, st') -> bind m k st = k a st'.
Proof. unfold bind. by intros ->. Qed.

Lemma bind_Raise {A C} (m : M A) (k : A -> M C) st e st' :
  m st = (Raise e, st') -> bind m k st = (Raise e, st').
Proof. unfold bind. by intros ->. Qed.

(** [preserves P m]: whatever [m] does, and however it ends, a state
    satisfying [P] is left satisfying [P]. *)
Definition preserves {A} (P : Network -> Prop) (m : M A) : Prop :=
  forall st, P st -> P (m st).2.

Lemma preserves_ret {A} P (a : A) : preserves P (ret a).
Proof. by intros st H. Qed.

Lemma preserves_raise {A} P e : preserves P (@raise A e).
Proof. by intros st H. Qed.

Lemma preserves_out_of_fuel {A} P : preserves P (@out_of_fuel A).
Proof. by intros st H. Qed.

Lemma preserves_lift {A} P (o : outcome A) : preserves P (lift o).
Proof. by intros st H. Qed.

Lemma preserves_get P : preserves P get.
Proof. by intros st H. Qed.

Lemma preserves_dict_get {V} P (d : gmap string V) k : preserves P (dict_get d k).
Proof. intros st H. unfold dict_get. by destruct (d !! k). Qed.

Lemma preserves_bind {A C} P (m : M A) (k : A -> M C) :
  preserves P m -> (forall a, preserves P (k a)) -> preserves P (bind m k).
Proof.
  intros Hm Hk st H. unfold bind. specialize (Hm st H).
  destruct (m st) as [[a|e|] st']; simpl in *; try assumption.
  by apply Hk.
Qed.

Lemma preserves_foldM {A C} P (f : C -> A -> M C) l :
  (forall acc x, preserves P (f acc x)) -> forall acc, preserves P (foldM f l acc).
Proof.
  intros Hf. induction l as [|x l IH]; intros acc; simpl.
  - apply preserves_ret.
  - apply preserves_bind; [apply Hf|exact IH].
Qed.

Lemma preserves_bind_get {C} P (k : Network -> M C) :
  (forall s, P s -> P (k s s).2) -> preserves P (bind get k).
Proof. intros Hk st H. unfold bind, get. by apply Hk. Qed.

Ltac pres_step :=
  lazymatch goal with
  | |- preserves _ (ret _) => apply preserves_ret
  | |- preserves _ (raise _) => apply preserves_raise
  | |- preserves _ out_of_fuel => apply preserves_out_of_fuel
  | |- preserves _ (lift _) => apply preserves_lift
  | |- preserves _ get => apply preserves_get
  | |- preserves _ (dict_get _ _) => apply preserves_dict_get
  | |- preserves _ (bind _ _) => apply preserves_bind; [|intros ?]
  | |- preserves _ (foldM _ _ _) => apply preserves_foldM; intros ? ?
  end.

Ltac pres := repeat pres_step.

Create HintDb preserves.
#[local] Hint Resolve preserves_ret preserves_raise preserves_out_of_fuel
  preserves_lift preserves_get preserves_dict_get : preserves.

(** *** Membership consistency *)

Definition members (st : Network) (c : string) : gset string :=
  c_users (channel_at st c).

Definition chans_of (st : Network) (u : string) : gset string :=
  match users st !! u with
  | Some U => channels U
  | None => ∅
  end.

(** [user ∈ channel.members ⇔ channel.name ∈ user.channels], a missing
    channel or user counting as an empty set. *)
Definition consistent (st : Network) : Prop :=
  forall c u, u ∈ members st c <-> c ∈ chans_of st u.

Section Invariant.
Variable B : Base.

Lemma members_remove_client u st c :
  members (_remove_client B u st).2 c = members st c ∖ {[u]}.
Proof.
  unfold members, channel_at, _remove_client. cbn [snd _channels].
  destruct (filter _ _ !! c) as [x|] eqn:E.
  - apply map_lookup_filter_Some in E as [E _]. rewrite lookup_fmap in E.
    destruct (_channels st !! c) as [ch|]; [|discriminate].
    injection E as <-. reflexivity.
  - apply map_lookup_filter_None in E. rewrite lookup_fmap in E.
    destruct (_channels st !! c) as [ch|]; cbn in *; [|set_solver].
    destruct E as [E|E]; [discriminate|].
    specialize (E _ eq_refl). unfold channel_kept in E. cbn in E.
    destruct (bool_decide (c_users ch ∖ {[u]} = ∅)) eqn:Hb.
    + apply bool_decide_eq_true in Hb. by rewrite Hb.
    + cbn in E. by destruct E.
Qed.

Lemma chans_of_remove_client u st u' :
  chans_of (_remove_client B u st).2 u' = if decide (u' = u) then ∅ else chans_of st u'.
Proof.
  unfold chans_of, _remove_client. cbn [snd users].
  destruct (decide (u' = u)) as [->|Hne].
  - by rewrite lookup_delete_eq.
  - by rewrite lookup_delete_ne.
Qed.

Lemma consistent_remove_client u : preserves consistent (_remove_client B u).
Proof.
  intros st H c u'. rewrite members_remove_client, chans_of_remove_client.
  specialize (H c u'). destruct (decide (u' = u)); set_solver.
Qed.

Lemma members_insert st c c' ch :
  members (set_channels st (<[c := ch]> (_channels st))) c'
  = if decide (c' = c) then c_users ch else members st c'.
Proof.
  unfold members, channel_at. cbn [_channels set_channels].
  destruct (decide (c' = c)) as [->|Hne].
  - by rewrite lookup_insert_eq.
  - by rewrite lookup_insert_ne.
Qed.

(** What one round of the part loop does to the network. *)
Definition part_effect (source channel : string) (st : Network) : Network :=
  let st1 := set_channels st (<[channel := remove_user source (channel_at st channel)]>
                                (_channels st)) in
  match users st1 !! source with
  | Some u => set_users st1 (<[source := mkUser (nick u) (channels u ∖ {[channel]})]>
                               (users st1))
  | None => st1
  end.

Definition not_on (source channel : string) (st : Network) : bool :=
  negb (bool_decide (is_Some (_channels st !! channel)))
  || negb (bool_decide (source ∈ c_users (channel_at st channel))).

Lemma part_step_run source args acc channel st :
  part_step source args acc channel st
  = if not_on source channel st then
      match list_remove channel acc.1 with
      | Some l => (Ok (l, Some (default "" (args !! 1%nat))), part_effect source channel st)
      | None => (Raise ValueError, st)
      end
    else (Ok (acc.1, Some (default "" (args !! 1%nat))), part_effect source channel st).
Proof.
  unfold part_step, not_on, bind, get.
  destruct (_ || _); [destruct (list_remove channel acc.1)|]; reflexivity.
Qed.

Lemma consistent_part_effect source channel st :
  consistent st -> consistent (part_effect source channel st).
Proof.
  intros H c u. specialize (H c u).
  unfold part_effect, members, channel_at, chans_of in *. cbn.
  destruct (users st !! source) as [U|] eqn:HU; cbn.
  + destruct (decide (c = channel)) as [->|Hc], (decide (u = source)) as [->|Hu];
      rewrite ?lookup_insert_eq, ?lookup_insert_ne by done; cbn;
      rewrite ?HU in H; set_solver.
  + destruct (decide (c = channel)) as [->|Hc], (decide (u = source)) as [->|Hu];
      rewrite ?lookup_insert_eq, ?lookup_insert_ne by done; cbn;
      rewrite ?HU in *; set_solver.
Qed.

Lemma consistent_part_step source args acc channel :
  preserves consistent (part_step source args acc channel).
Proof.
  intros st H. rewrite part_step_run.
  destruct (not_on _ _ _); [destruct (list_remove _ _)|]; cbn [snd];
    auto using consistent_part_effect.
Qed.

Lemma consistent_handle_part source command args :
  preserves consistent (handle_part source command args).
Proof.
  unfold handle_part. pres.
  - apply consistent_part_step.
  - destruct a0.1; [pres|]. destruct a0.2; pres.
Qed.

Lemma consistent_handle_kick source command args :
  preserves consistent (handle_kick B source command args).
Proof.
  unfold handle_kick. pres. apply consistent_handle_part.
Qed.

Lemma consistent_handle_quit numeric command args :
  preserves consistent (handle_quit B numeric command args).
Proof.
  unfold handle_quit. pres. apply consistent_remove_client.
Qed.

(** Anything kept by client removal and by dropping a server entry is kept
    by the whole cascade, wherever it stops. *)
Lemma squit_preserves (P : Network -> Prop) :
  (forall u, preserves P (_remove_client B u)) ->
  (forall st k, P st -> P (set_servers st (delete k (servers st)))) ->
  forall fuel numeric command args, preserves P (_squit B fuel numeric command args).
Proof.
  intros Hrm Hdel. induction fuel as [|fuel IH]; intros numeric command args.
  - apply preserves_out_of_fuel.
  - cbn [_squit]. pres.
    destruct (is_target _ _); [pres|].
    destruct (negb _); pres.
    + unfold squit_child_step. destruct (bool_decide _); pres; [apply IH|].
      match goal with |- preserves _ (match ?x with _ => _ end) => destruct x end; pres.
    + unfold squit_user_step. pres. apply Hrm.
    + intros st Hst. unfold pop_server. destruct (servers st !! _); cbn; auto.
Qed.

Lemma consistent_squit fuel numeric command args :
  preserves consistent (_squit B fuel numeric command args).
Proof.
  apply squit_preserves; [apply consistent_remove_client|].
  intros st k H c u. exact (H c u).
Qed.

Lemma consistent_handle_squit numeric command args :
  preserves consistent (handle_squit B numeric command args).
Proof. intros st H. unfold handle_squit. by apply consistent_squit. Qed.

(** Inbound traffic that touches membership. *)
Inductive event : Type :=
  | EvPart (source : string) (args : list string)
  | EvKick (source : string) (args : list string)
  | EvQuit (source : string) (args : list string)
  | EvSquit (source : string) (args : list string).

(** The state a handler leaves behind, whether it returned or raised. *)
Definition apply_event (ev : event) (st : Network) : Network :=
  match ev with
  | EvPart source args => (handle_part source "PART" args st).2
  | EvKick source args => (handle_kick B source "KICK" args st).2
  | EvQuit source args => (handle_quit B source "QUIT" args st).2
  | EvSquit source args => (handle_squit B source "SQUIT" args st).2
  end.

Definition run_events (evs : list event) (st : Network) : Network :=
  fold_left (fun s ev => apply_event ev s) evs st.

Lemma consistent_apply_event ev st : consistent st -> consistent (apply_event ev st).
Proof.
  destruct ev; cbn [apply_event].
  - apply consistent_handle_part.
  - apply consistent_handle_kick.
  - apply consistent_handle_quit.
  - apply consistent_handle_squit.
Qed.

End Invariant.

(** *** Kick of a target that is not on the channel *)

(** [same_view st st']: nothing an observer of users, servers, wire traffic
    or channel membership can see differs, and every channel entry of [st]
    is still there as it was. *)
Definition same_view (st st' : Network) : Prop :=
  users st' = users st /\ servers st' = servers st /\ sent st' = sent st /\
  sid st' = sid st /\ uplink st' = uplink st /\
  (forall c, members st' c = members st c) /\
  (forall c ch, _channels st !! c = Some ch -> _channels st' !! c = Some ch).

Lemma same_view_refl st : same_view st st.
Proof. by repeat split. Qed.

Lemma same_view_trans st1 st2 st3 :
  same_view st1 st2 -> same_view st2 st3 -> same_view st1 st3.
Proof.
  intros (Hu & Hs & Hw & Hi & Hl & Hm & Hc) (Hu' & Hs' & Hw' & Hi' & Hl' & Hm' & Hc').
  unfold same_view. split; [congruence|]. split; [congruence|]. split; [congruence|].
  split; [congruence|]. split; [congruence|]. split.
  - intros c. by rewrite Hm', Hm.
  - intros c ch H. auto.
Qed.

Lemma remove_user_absent u ch : u ∉ c_users ch -> remove_user u ch = ch.
Proof.
  intros H. unfold remove_user. destruct ch as [us t ts]. cbn in *.
  f_equal. apply difference_disjoint_L. set_solver.
Qed.

Lemma part_effect_absent source channel st :
  source ∉ members st channel -> channel ∉ chans_of st source ->
  same_view st (part_effect source channel st).
Proof.
  intros Hm Hc. unfold part_effect. cbn [users set_channels].
  assert (Hu : (match users st !! source with
                | Some u => <[source := mkUser (nick u) (channels u ∖ {[channel]})]> (users st)
                | None => users st
                end) = users st).
  { unfold chans_of in Hc. destruct (users st !! source) as [U|] eqn:HU; [|done].
    apply insert_id. rewrite HU. f_equal. destruct U as [n cs]. cbn in *.
    f_equal. symmetry. apply difference_disjoint_L. set_solver. }
  assert (Hch : forall c ch, _channels st !! c = Some ch ->
                  <[channel := remove_user source (channel_at st channel)]> (_channels st) !! c
                  = Some ch).
  { intros c ch H. destruct (decide (c = channel)) as [->|Hne].
    - rewrite lookup_insert_eq. unfold members, channel_at in *. rewrite H in *. cbn in *.
      by rewrite remove_user_absent.
    - by rewrite lookup_insert_ne. }
  assert (Hmem : forall c, c_users (default new_channel
                   ((<[channel := remove_user source (channel_at st channel)]> (_channels st)) !! c))
                 = members st c).
  { intros c. destruct (decide (c = channel)) as [->|Hne].
    - rewrite lookup_insert_eq. cbn. fold (members st channel). set_solver.
    - by rewrite lookup_insert_ne. }
  destruct (users st !! source) as [U|]; repeat split; cbn; auto.
Qed.

Lemma foldM_part_absent source args : forall todo r st,
  (forall c, c ∈ todo -> (source ∉ members st c) /\ (c ∉ chans_of st source)) ->
  exists r' st',
    foldM (part_step source args) todo (todo, r) st = (Ok ([], r'), st')
    /\ same_view st st'.
Proof.
  induction todo as [|c todo IH]; intros r st Habs.
  - exists r, st. split; [reflexivity|apply same_view_refl].
  - destruct (Habs c) as [Hm Hc]; [set_solver|].
    pose proof (part_effect_absent source c st Hm Hc) as Hv.
    cbn [foldM]. unfold bind. rewrite part_step_run.
    assert (Hno : not_on source c st = true).
    { unfold not_on. apply orb_true_iff. right. apply negb_true_iff.
      by apply bool_decide_eq_false. }
    rewrite Hno. cbn [fst list_remove]. rewrite bool_decide_eq_true_2 by done.
    destruct (IH (Some (default "" (args !! 1%nat))) (part_effect source c st))
      as (r' & st' & Hrun & Hv').
    { intros c' Hc'. destruct (Habs c') as [Hm' Hk']; [set_solver|].
      destruct Hv as (Hu & _ & _ & _ & _ & Hmem & _). split.
      - by rewrite Hmem.
      - unfold chans_of in *. by rewrite Hu. }
    exists r', st'. split; [exact Hrun|]. eapply same_view_trans; eauto.
Qed.

Lemma handle_part_absent source command channel rest st :
  (forall c, c ∈ split "," channel -> (source ∉ members st c) /\ (c ∉ chans_of st source)) ->
  exists st',
    handle_part source command (channel :: rest) st = (Ok None, st') /\ same_view st st'.
Proof.
  intros Habs. unfold handle_part.
  destruct (foldM_part_absent source (channel :: rest) (split "," channel) None st Habs)
    as (r' & st' & Hrun & Hv).
  exists st'. split; [|exact Hv].
  unfold bind at 1. cbn [lift index lookup list_lookup]. cbn.
  unfold bind. rewrite Hrun. reflexivity.
Qed.

Lemma consistent_empty nm s u :
  consistent (mkNetwork nm s u ∅ ∅ ∅ []).
Proof. intros c x. unfold members, channel_at, chans_of. cbn. set_solver. Qed.

(** C1. Starting from a consistent network, any sequence of inbound part,
    kick, quit and squit invocations leaves membership consistent: a user
    is in a channel's member set exactly when the channel is in the user's
    channel set. *)
Theorem membership_consistent (B : Base) (st : Network) (evs : list event) :
  consistent st -> consistent (run_events B evs st).
Proof.
  revert st. induction evs as [|ev evs IH]; intros st H; [exact H|].
  cbn [run_events fold_left]. apply IH. by apply consistent_apply_event.
Qed.

(** A checkable form of [consistent]. *)
Definition consistentb (st : Network) : bool :=
  forallb (fun kv => forallb (fun u => bool_decide (kv.1 ∈ chans_of st u))
                             (elements (c_users kv.2)))
          (map_to_list (_channels st))
  && forallb (fun kv => forallb (fun c => bool_decide (kv.1 ∈ members st c))
                                (elements (channels kv.2)))
             (map_to_list (users st)).

Lemma consistentb_sound st : consistentb st = true -> consistent st.
Proof.
  unfold consistentb. intros H. apply andb_true_iff in H as [H1 H2].
  rewrite forallb_forall in H1, H2. intros c u. split.
  - intros Hu. unfold members, channel_at in Hu.
    destruct (_channels st !! c) as [ch|] eqn:E; [|set_solver].
    assert (Hin : In (c, ch) (map_to_list (_channels st)))
      by (apply list_elem_of_In, elem_of_map_to_list, E).
    pose proof (H1 _ Hin) as Hf. rewrite forallb_forall in Hf.
    assert (Hin2 : In u (elements (c_users ch)))
      by (apply list_elem_of_In, elem_of_elements, Hu).
    pose proof (Hf _ Hin2) as Hb. by apply bool_decide_eq_true in Hb.
  - intros Hc. unfold chans_of in Hc.
    destruct (users st !! u) as [U|] eqn:E; [|set_solver].
    assert (Hin : In (u, U) (map_to_list (users st)))
      by (apply list_elem_of_In, elem_of_map_to_list, E).
    pose proof (H2 _ Hin) as Hf. rewrite forallb_forall in Hf.
    assert (Hin2 : In c (elements (channels U)))
      by (apply list_elem_of_In, elem_of_elements, Hc).
    pose proof (Hf _ Hin2) as Hb. by apply bool_decide_eq_true in Hb.
Qed.

Lemma consistent_demo : consistent demo.
Proof. apply consistentb_sound. vm_compute. reflexivity. Qed.

Lemma membership_consistent_witness :
  consistent demo /\
  consistent
    (run_events plain_base
       [EvPart "1MLAAAAAA" ["#a,#zz"; "bye"];
        EvKick "1MLAAAAAA" ["#b"; "3BBAAAAAA"];
        EvQuit "2AAAAAAAA" ["gone"];
        EvSquit "1ML" ["3BB"; "split"]]
       demo).
Proof.
  split; [exact consistent_demo|].
  apply (membership_consistent plain_base demo). exact consistent_demo.
Defined.

(** *** Netsplit of the own server or the uplink *)

Lemma index_last_cons {A} (x : A) l : exists y, index_last (x :: l) = Ok y.
Proof.
  unfold index_last. destruct (last (x :: l)) as [y|] eqn:E; [eauto|].
  apply last_None in E. discriminate.
Qed.

(** C4. A squit whose target resolves to the own SID or to the uplink
    raises ProtocolError and hands back the very state it was given. *)
Theorem squit_own_side_fatal (B : Base) (st : Network)
    (numeric command target : string) (rest : list string) :
  sid st = Some (_get_SID st target) \/ uplink st = Some (_get_SID st target) ->
  exists msg,
    handle_squit B numeric command (target :: rest) st = (Raise (ProtocolError msg), st).
Proof.
  intros H. unfold handle_squit. cbn [_squit].
  unfold bind at 1. cbn [lift index lookup list_lookup]. cbn.
  unfold bind at 1. cbn [get].
  assert (Ht : is_target st (_get_SID st target) = true).
  { unfold is_target. apply orb_true_iff.
    destruct H; [left|right]; by apply bool_decide_eq_true. }
  rewrite Ht. destruct (index_last_cons target rest) as [y Hy].
  unfold bind, lift. rewrite Hy. eexists. reflexivity.
Qed.

Lemma squit_own_side_fatal_witness :
  uplink demo = Some (_get_SID demo "UPLINK.net") /\
  exists msg,
    handle_squit plain_base "2AAAAAAAA" "SQUIT" ["UPLINK.net"; "0"; "test"] demo
    = (Raise (ProtocolError msg), demo).
Proof.
  split; [vm_compute; reflexivity|].
  apply (squit_own_side_fatal plain_base demo "2AAAAAAAA" "SQUIT" "UPLINK.net" ["0"; "test"]).
  right. vm_compute. reflexivity.
Defined.

(** *** Kill messages *)

(** [handle_kill] on a two-argument KILL, written out. *)
Lemma handle_kill_run (B : Base) (st : Network)
    (source command a0 a1 : string) (rest : list string) first more :
  split1 " " a1 = first :: more ->
  let killed := _get_UID B st a0 in
  let data := users st !! killed in
  let st1 := match data with
             | Some _ => (_remove_client B killed st).2
             | None => st
             end in
  let killmsg := slice_1_last (join " " (tail (split " " a1))) in
  let done := if bool_decide (killmsg = "") then (Raise NameError, st1)
              else (Ok (Some (mkKill killed killmsg data)), st1) in
  handle_kill B source command (a0 :: a1 :: rest) st
  = if contains "!" first then
      match get_friendly_name B st1 source with
      | Ok _ => done
      | Raise KeyError => done
      | Raise e => (Raise e, st1)
      | OutOfFuel => (OutOfFuel, st1)
      end
    else (Ok (Some (mkKill killed a1 data)), st1).
Proof.
  intros Hsp. cbn zeta.
  unfold handle_kill, bind, lift, index, get, ret, raise, out_of_fuel. cbn.
  rewrite Hsp. cbn.
  destruct (users st !! _get_UID B st a0); cbn;
    (destruct (contains "!" first); [|reflexivity]);
    (destruct (get_friendly_name B _ source) as [n|[]|]; try reflexivity);
    destruct (bool_decide _); reflexivity.
Qed.

(** A reason whose first word has no '!' is passed through untouched. *)
Lemma handle_kill_passthrough (B : Base) (st : Network)
    (source command a0 a1 : string) (rest : list string) first more :
  split1 " " a1 = first :: more ->
  contains "!" first = false ->
  exists st',
    handle_kill B source command (a0 :: a1 :: rest) st
    = (Ok (Some (mkKill (_get_UID B st a0) a1 (users st !! _get_UID B st a0))), st').
Proof.
  intros Hsp Hno. rewrite (handle_kill_run B st source command a0 a1 rest first more Hsp).
  rewrite Hno. eexists. reflexivity.
Qed.

(** A reason whose first word has a '!': whenever a payload comes back its
    text is the bracketed message alone, whoever the killer is. *)
Lemma handle_kill_text_no_killer (B : Base) (st st' : Network)
    (source command a0 a1 : string) (rest : list string) first more p :
  split1 " " a1 = first :: more ->
  contains "!" first = true ->
  handle_kill B source command (a0 :: a1 :: rest) st = (Ok (Some p), st') ->
  kill_text p = slice_1_last (join " " (tail (split " " a1))).
Proof.
  intros Hsp Hbang. rewrite (handle_kill_run B st source command a0 a1 rest first more Hsp).
  rewrite Hbang.
  destruct (get_friendly_name B _ source) as [n|[]|]; try discriminate;
    destruct (bool_decide _); try discriminate; by intros [= <- _].
Qed.

(** C5. Uplink user alice (1MLAAAAAA) kills carol with the raw reason
    "hidden-1C620195!alice (test)".  The first word has a '!', the killer
    resolves to the display name "alice", and the hook text is the bare
    "test": the display name is looked up and then left out. *)
Theorem handle_kill_drops_killer_name :
  let reason := "hidden-1C620195!alice (test)" in
  let r := (handle_kill plain_base "1MLAAAAAA" "KILL" ["3BBAAAAAA"; reason] demo).1 in
  contains "!" (default "" (head (split1 " " reason))) = true
  /\ get_friendly_name plain_base demo "1MLAAAAAA" = Ok "alice"
  /\ r = Ok (Some (mkKill "3BBAAAAAA" "test" (Some (mkUser "carol" {["#b"]}))))
  /\ String.prefix "alice" "test" = false.
Proof.
  cbn zeta. split; [reflexivity|]. split; [vm_compute; reflexivity|].
  split; [|reflexivity]. vm_compute. reflexivity.
Qed.

(** *** Kick of an absent target *)

Lemma handle_kick_run (B : Base) (st : Network)
    (source command channel target : string) (rest : list string) :
  let kicked := _get_UID B st target in
  let reason := default "" (rest !! 0%nat) in
  handle_kick B source command (channel :: target :: rest) st
  = match handle_part kicked "KICK" [channel; reason] st with
    | (Ok _, st') => (Ok (Some (mkKick channel kicked reason)), st')
    | (Raise e, st') => (Raise e, st')
    | (OutOfFuel, st') => (OutOfFuel, st')
    end.
Proof. reflexivity. Qed.

(** C7 (as the code has it). In a consistent network, a KICK whose resolved
    target is on none of the channels it names returns normally, leaves
    users, servers and every channel's membership as they were, and still
    returns the KICK hook with the channel, the resolved target and the
    reason received. *)
Theorem handle_kick_absent_target (B : Base) (st : Network)
    (source command channel target : string) (rest : list string) :
  consistent st ->
  (forall c, c ∈ split "," channel -> _get_UID B st target ∉ members st c) ->
  exists st',
    handle_kick B source command (channel :: target :: rest) st
    = (Ok (Some (mkKick channel (_get_UID B st target) (default "" (rest !! 0%nat)))), st')
    /\ same_view st st'.
Proof.
  intros Hcons Habs.
  destruct (handle_part_absent (_get_UID B st target) "KICK" channel
              [default "" (rest !! 0%nat)] st) as (st' & Hrun & Hv).
  { intros c Hc. split; [by apply Habs|]. rewrite <- (Hcons c). by apply Habs. }
  exists st'. split; [|exact Hv].
  rewrite handle_kick_run. cbn zeta. rewrite Hrun. reflexivity.
Qed.

Lemma not_member_demo : "1MLAAAAAA" ∉ members demo "#b".
Proof.
  intros Hin. apply (bool_decide_pack _) in Hin. vm_compute in Hin. exact Hin.
Qed.

Lemma handle_kick_absent_target_witness :
  consistent demo /\
  (forall c, c ∈ split "," "#b" -> _get_UID plain_base demo "1MLAAAAAA" ∉ members demo c) /\
  exists st',
    handle_kick plain_base "2AAAAAAAA" "KICK" ["#b"; "1MLAAAAAA"; "out"] demo
    = (Ok (Some (mkKick "#b" "1MLAAAAAA" "out")), st')
    /\ same_view demo st'.
Proof.
  assert (Habs : forall c, c ∈ split "," "#b" ->
                   _get_UID plain_base demo "1MLAAAAAA" ∉ members demo c).
  { intros c Hc. change (split "," "#b") with ["#b"] in Hc.
    apply list_elem_of_singleton in Hc. subst c. exact not_member_demo. }
  split; [exact consistent_demo|]. split; [exact Habs|].
  exact (handle_kick_absent_target plain_base demo "2AAAAAAAA" "KICK" "#b" "1MLAAAAAA"
           ["out"] consistent_demo Habs).
Defined.

(** The hook of such a KICK does carry the target: alice is not on #b, yet
    the payload for #b names her. *)
Lemma kick_absent_target_in_hook :
("1MLAAAAAA" ∉ members demo "#b") /\
  (handle_kick plain_base "2AAAAAAAA" "KICK" ["#b"; "1MLAAAAAA"; "out"] demo).1
  = Ok (Some (mkKick "#b" "1MLAAAAAA" "out")).
Proof. split; [exact not_member_demo|]. vm_compute. reflexivity. Qed.

(** *** Outbound builders and the ownership check *)

Section Builders.
Variable B : Base.
Variable st : Network.

Lemma invite_unowned source target channel :
  is_internal_client B st source = false ->
  invite B source target channel st = (Raise no_client, st).
Proof. intros H. unfold invite, bind, get. by rewrite H. Qed.

Lemma part_unowned client channel reason :
  is_internal_client B st client = false ->
  part B client channel reason st = (Raise no_client, st).
Proof. intros H. unfold part, bind, get. by rewrite H. Qed.

Lemma quit_unowned numeric reason :
  is_internal_client B st numeric = false ->
  quit B numeric reason st = (Raise no_client, st).
Proof. intros H. unfold quit, bind, get. by rewrite H. Qed.

Lemma message_unowned numeric target text :
  is_internal_client B st numeric = false ->
  message B numeric target text st = (Raise no_client, st).
Proof. intros H. unfold message, bind, get. by rewrite H. Qed.

Lemma kick_unowned numeric channel target reason :
  is_internal_client B st numeric = false ->
  is_internal_server B st numeric = false ->
  kick B numeric channel target reason st = (Raise no_client_server, st).
Proof. intros H1 H2. unfold kick, bind, get. by rewrite H1, H2. Qed.

Lemma notice_unowned numeric target text :
  is_internal_client B st numeric = false ->
  is_internal_server B st numeric = false ->
  notice B numeric target text st = (Raise no_client_server, st).
Proof. intros H1 H2. unfold notice, bind, get. by rewrite H1, H2. Qed.

Lemma topic_unowned source target text :
  is_internal_client B st source = false ->
  is_internal_server B st source = false ->
  topic B source target text st = (Raise no_client_server, st).
Proof. intros H1 H2. unfold topic, bind, get. by rewrite H1, H2. Qed.

(** [numeric] and [squit] have no such check: whoever the source is, the
    line goes out. *)
Lemma numeric_always_sends source num target text :
  numeric B source num target text st
  = (Ok tt, set_sent st (sent st ++ [":" +:+ _expandPUID B st source +:+ " " +:+
                                     (num +:+ " " +:+ _expandPUID B st target
                                          +:+ " " +:+ text)])).
Proof. reflexivity. Qed.

Lemma squit_always_sends source target text :
  sent (squit B source target text st).2
  = sent st ++ [":" +:+ _expandPUID B st source +:+ " " +:+
                ("SQUIT " +:+ _expandPUID B st target +:+ " :" +:+ text)].
Proof.
  set (line := ":" +:+ _).
  assert (Hp : preserves (fun s => sent s = sent st ++ [line])
                 (handle_squit B source "SQUIT" [target; text])).
  { intros s Hs. unfold handle_squit.
    apply (squit_preserves B (fun s => sent s = sent st ++ [line])); [| |exact Hs].
    - by intros u s' Hs'.
    - by intros s' k Hs'. }
  unfold squit, bind at 1, get. unfold bind at 1.
  unfold _send_with_prefix, bind at 1, get, send. fold line.
  unfold bind.
  specialize (Hp (set_sent st (sent st ++ [line])) eq_refl).
  destruct (handle_squit _ _ _ _ _) as [[[]|e|] s']; exact Hp.
Qed.

End Builders.

(** C6. On the demo network nothing is internally owned, yet [squit] from
    the unknown identifier XYZ returns normally and puts a SQUIT line on the
    wire; the sibling builder [kick] refuses the same source. *)
Theorem squit_skips_ownership_check :
  is_internal_client plain_base demo "XYZ" = false
  /\ is_internal_server plain_base demo "XYZ" = false
  /\ (squit plain_base "XYZ" "9PZ" "bye" demo).1 = Ok tt
  /\ sent (squit plain_base "XYZ" "9PZ" "bye" demo).2 = [":XYZ SQUIT 9PZ :bye"]
  /\ kick plain_base "XYZ" "#a" "1MLAAAAAA" None demo = (Raise no_client_server, demo).
Proof.
  split; [reflexivity|]. split; [reflexivity|].
  split; [vm_compute; reflexivity|]. split; [vm_compute; reflexivity|].
  by apply kick_unowned.
Qed.

(** *** Topology cascade: what a split removes *)

(** [under st X s]: server [s] is [X] or is linked, through a chain of
    uplinks inside the table, to [X]. *)
Inductive under (st : Network) (X : string) : string -> Prop :=
  | under_self : is_Some (servers st !! X) -> under st X X
  | under_child s d p :
      servers st !! s = Some d -> s_uplink d = Some p ->
      under st X p -> under st X s.

(** [homed_under st X u]: client [u] sits on a server under [X]. *)
Definition homed_under (st : Network) (X u : string) : Prop :=
  exists s d, under st X s /\ servers st !! s = Some d /\ u ∈ s_users d.

(** A server table that is a forest along its uplinks ([rank] drops from a
    server to the servers behind it), whose identifiers resolve to
    themselves, and whose user sets list known clients, each on one server. *)
Record tree_state (rank : string -> nat) (st : Network) : Prop := mkTree {
  tree_rank : forall s d p,
    servers st !! s = Some d -> s_uplink d = Some p -> (rank s < rank p)%nat;
  tree_keys : forall s,
    is_Some (servers st !! s) -> is_Some (servers st !! lower s) -> lower s = s;
  tree_names : forall s k d,
    is_Some (servers st !! s) -> servers st !! k = Some d ->
    lower (s_name d) = lower s -> k = s;
  tree_known : forall s d u,
    servers st !! s = Some d -> u ∈ s_users d -> is_Some (users st !! u);
  tree_homes : forall s1 s2 d1 d2 u,
    servers st !! s1 = Some d1 -> servers st !! s2 = Some d2 ->
    u ∈ s_users d1 -> u ∈ s_users d2 -> s1 = s2
}.

Lemma get_SID_self rank st s :
  tree_state rank st -> is_Some (servers st !! s) -> _get_SID st s = s.
Proof.
  intros Ht Hs. unfold _get_SID. case_bool_decide as Hl.
  - by apply (tree_keys rank st Ht).
  - destruct (List.find _ _) as [[k d]|] eqn:Hf; [|reflexivity].
    apply find_some in Hf as [Hin Hname]. cbn in *.
    apply bool_decide_eq_true in Hname.
    apply list_elem_of_In, elem_of_map_to_list in Hin.
    by apply (tree_names rank st Ht s k d).
Qed.

Lemma under_present st X s : under st X s -> is_Some (servers st !! s).
Proof. destruct 1; eauto. Qed.

Lemma under_root_present st X s : under st X s -> is_Some (servers st !! X).
Proof. induction 1; auto. Qed.

Lemma under_rank rank st X s :
  tree_state rank st -> under st X s -> (rank s <= rank X)%nat.
Proof.
  intros Ht. induction 1 as [|s d p Hs Hp _ IH]; [lia|].
  pose proof (tree_rank rank st Ht s d p Hs Hp). lia.
Qed.

Lemma under_trans st X Y s : under st X Y -> under st Y s -> under st X s.
Proof.
  intros HXY. induction 1 as [|s d p Hs Hp _ IH]; [exact HXY|].
  eapply under_child; eauto.
Qed.

(** The ancestors of a server form a chain. *)
Lemma under_chain st a b s : under st a s -> under st b s -> under st a b \/ under st b a.
Proof.
  induction 1 as [Ha|s d p Hs Hp Hap IH]; intros Hb.
  - by right.
  - inversion Hb as [Hb'|s' d' p' Hs' Hp' Hbp]; subst.
    + left. eapply under_child; eauto.
    + assert (p' = p) as -> by congruence. by apply IH.
Qed.

(** Two servers with the same uplink have disjoint subtrees. *)
Lemma siblings_disjoint rank st X c1 c2 d1 d2 s :
  tree_state rank st ->
  servers st !! c1 = Some d1 -> s_uplink d1 = Some X ->
  servers st !! c2 = Some d2 -> s_uplink d2 = Some X ->
  under st c1 s -> under st c2 s -> c1 = c2.
Proof.
  intros Ht H1 U1 H2 U2 Hs1 Hs2.
  destruct (decide (c1 = c2)) as [|Hne]; [assumption|exfalso].
  pose proof (tree_rank rank st Ht c1 d1 X H1 U1) as R1.
  pose proof (tree_rank rank st Ht c2 d2 X H2 U2) as R2.
  destruct (under_chain st c1 c2 s Hs1 Hs2) as [H|H].
  - inversion H as [|s' d' p' Hs' Hp' Hup]; subst; [done|].
    assert (p' = X) as -> by congruence.
    pose proof (under_rank rank st c1 X Ht Hup). lia.
  - inversion H as [|s' d' p' Hs' Hp' Hup]; subst; [done|].
    assert (p' = X) as -> by congruence.
    pose proof (under_rank rank st c2 X Ht Hup). lia.
Qed.

(** The subtree of [X] is [X] and the subtrees of the servers uplinked
    to [X]. *)
Lemma under_split st X s :
  under st X s <->
  (s = X /\ is_Some (servers st !! X)) \/
  (exists c d, servers st !! c = Some d /\ s_uplink d = Some X /\
               is_Some (servers st !! X) /\ under st c s).
Proof.
  split.
  - induction 1 as [HX|s d p Hs Hp Hup IH]; [by left|]. right.
    destruct IH as [[-> HX]|(c & d' & Hc & Hu & HX & Hcs)].
    + exists s, d. repeat split; eauto. apply under_self. eauto.
    + exists c, d'. repeat split; eauto. eapply under_child; eauto.
  - intros [[-> HX]|(c & d & Hc & Hu & HX & Hcs)]; [by apply under_self|].
    apply (under_trans st X c s); [|exact Hcs].
    eapply under_child; eauto. by apply under_self.
Qed.

(** [removed st st' S U]: [st'] is [st] without the servers [S] and the
    clients [U]; every other server and user entry is as it was, every
    channel has lost exactly the members in [U], and a channel that still
    has members and lost none is the entry it was. *)
Definition removed (st st' : Network) (S U : gset string) : Prop :=
  (forall s, servers st' !! s = if decide (s ∈ S) then None else servers st !! s) /\
  (forall u, users st' !! u = if decide (u ∈ U) then None else users st !! u) /\
  (forall c, members st' c = members st c ∖ U) /\
  (forall c ch, _channels st !! c = Some ch -> c_users ch <> ∅ -> c_users ch ## U ->
                _channels st' !! c = Some ch) /\
  sid st' = sid st /\ uplink st' = uplink st /\ sent st' = sent st.

Lemma removed_refl st : removed st st ∅ ∅.
Proof.
  repeat split; auto.
  intros c. set_solver.
Qed.

Lemma removed_trans st1 st2 st3 S1 S2 U1 U2 :
  removed st1 st2 S1 U1 -> removed st2 st3 S2 U2 ->
  removed st1 st3 (S1 ∪ S2) (U1 ∪ U2).
Proof.
  intros (Hs & Hu & Hm & Hk & Hi & Hl & Hw) (Hs' & Hu' & Hm' & Hk' & Hi' & Hl' & Hw').
  split; [|split; [|split; [|split; [|split; [|split]]]]]; try congruence.
  - intros s. rewrite Hs', Hs. repeat case_decide; set_solver.
  - intros u. rewrite Hu', Hu. repeat case_decide; set_solver.
  - intros c. rewrite Hm', Hm. set_solver.
  - intros c ch Hc Hne Hdisj. apply Hk'; [apply Hk|..]; set_solver.
Qed.

Lemma removed_proper st st' S S' U U' :
  S = S' -> U = U' -> removed st st' S U -> removed st st' S' U'.
Proof. by intros -> ->. Qed.

Section Cascade.
Variable B : Base.

Definition remove_clients (l : list string) (st : Network) : Network :=
  fold_left (fun s u => (_remove_client B u s).2) l st.

Definition strip (U : gset string) (s : Server) : Server :=
  mkServer (s_name s) (s_uplink s) (s_users s ∖ U).

Lemma remove_client_kept u st c ch :
  _channels st !! c = Some ch -> c_users ch <> ∅ -> u ∉ c_users ch ->
  _channels (_remove_client B u st).2 !! c = Some ch.
Proof.
  intros Hc Hne Hu. cbn [_remove_client snd _channels].
  apply map_lookup_filter_Some. split.
  - rewrite lookup_fmap, Hc. cbn [fmap option_fmap option_map].
    by rewrite remove_user_absent.
  - unfold channel_kept. cbn [fst snd].
    by rewrite bool_decide_eq_false_2.
Qed.

Lemma remove_clients_spec l : forall st,
  let st' := remove_clients l st in
  (forall u, users st' !! u = if decide (u ∈ l) then None else users st !! u) /\
  (forall s, servers st' !! s = strip (list_to_set l) <$> servers st !! s) /\
  (forall c, members st' c = members st c ∖ list_to_set l) /\
  (forall c ch, _channels st !! c = Some ch -> c_users ch <> ∅ ->
                c_users ch ## list_to_set l -> _channels st' !! c = Some ch) /\
  sid st' = sid st /\ uplink st' = uplink st /\ sent st' = sent st.
Proof.
  induction l as [|u l IH]; intros st; cbn zeta.
  - cbn. split; [done|]. split.
    + intros s. destruct (servers st !! s) as [[n up us]|]; cbn; [|done].
      unfold strip. cbn. do 2 f_equal. set_solver.
    + split; [intros c; set_solver|]. done.
  - cbn [remove_clients fold_left].
    destruct (IH (_remove_client B u st).2) as (Hu & Hs & Hm & Hk & Hi & Hl & Hw).
    fold (remove_clients l (_remove_client B u st).2) in *.
    split; [|split; [|split; [|split]]].
    + intros u'. rewrite Hu. cbn [_remove_client snd users].
      destruct (decide (u' = u)) as [->|Hne].
      * rewrite lookup_delete_eq. repeat case_decide; set_solver.
      * rewrite lookup_delete_ne by done. repeat case_decide; set_solver.
    + intros s. rewrite Hs. cbn [_remove_client snd servers]. rewrite lookup_fmap.
      destruct (servers st !! s) as [[n up us]|]; cbn; [|done].
      unfold strip. cbn. do 2 f_equal. set_solver.
    + intros c. rewrite Hm, members_remove_client. set_solver.
    + intros c ch Hc Hne Hdisj. apply Hk; [|done|set_solver].
      apply remove_client_kept; [done..|set_solver].
    + done.
Qed.

Lemma squit_users_run oc : forall l acc st,
  NoDup l -> (forall u, u ∈ l -> is_Some (users st !! u)) ->
  exists nicks,
    foldM (squit_user_step B oc) l acc st = (Ok (acc.1 ++ l, nicks), remove_clients l st).
Proof.
  induction l as [|u l IH]; intros acc st Hnd Hknown.
  - exists acc.2. cbn. unfold ret. rewrite app_nil_r. by destruct acc.
  - apply NoDup_cons in Hnd as [Hu Hnd].
    destruct (Hknown u) as [U HU]; [set_solver|].
    cbn [foldM]. unfold bind at 1. unfold squit_user_step at 1.
    unfold bind at 1. cbn [get]. unfold bind at 1. unfold dict_get. rewrite HU.
    cbn [ret]. unfold bind at 1. cbn [_remove_client ret].
    destruct (IH (acc.1 ++ [u], note_nicks oc u (nick U) acc.2)
                 (_remove_client B u st).2 Hnd) as (nicks & Hrun).
    { intros u' Hu'. cbn [_remove_client snd users].
      rewrite lookup_delete_ne by set_solver. apply Hknown. set_solver. }
    exists nicks. cbn [_remove_client snd] in Hrun. rewrite Hrun.
    cbn [fst]. rewrite <- app_assoc. reflexivity.
Qed.

(** The last two steps of one cascade level: the clients of [X] go, then
    [X] itself. *)
Lemma own_level_removed rank st X d :
  tree_state rank st -> servers st !! X = Some d ->
  let st2 := remove_clients (elements (s_users d)) st in
  removed st (set_servers st2 (delete X (servers st2))) {[X]} (s_users d).
Proof.
  intros Ht HX st2.
  destruct (remove_clients_spec (elements (s_users d)) st)
    as (Hu & Hs & Hm & Hk & Hi & Hl & Hw).
  fold st2 in Hu, Hs, Hm, Hk, Hi, Hl, Hw.
  rewrite list_to_set_elements_L in Hs, Hm, Hk.
  split; [|split; [|split; [|split]]]; cbn [servers users set_servers sid uplink sent].
  - intros s. destruct (decide (s = X)) as [->|Hne].
    + rewrite lookup_delete_eq. by rewrite decide_True by set_solver.
    + rewrite lookup_delete_ne by done. rewrite decide_False by set_solver.
      rewrite Hs. destruct (servers st !! s) as [d'|] eqn:Hd'; [|done].
      cbn. f_equal. destruct d' as [n up us]. unfold strip. cbn. f_equal.
      apply difference_disjoint_L. intros u Hu1 Hu2.
      apply Hne. by apply (tree_homes rank st Ht s X _ d u Hd' HX).
  - intros u. rewrite Hu. repeat case_decide; set_solver.
  - exact Hm.
  - exact Hk.
  - done.
Qed.

Lemma removed_server_Some st st' S U s d :
  removed st st' S U -> servers st' !! s = Some d -> servers st !! s = Some d /\ s ∉ S.
Proof.
  intros (Hs & _) H. rewrite Hs in H. by case_decide.
Qed.

Lemma removed_server_keep st st' S U s :
  removed st st' S U -> s ∉ S -> servers st' !! s = servers st !! s.
Proof. intros (Hs & _) H. rewrite Hs. by rewrite decide_False. Qed.

(** A tree state stays one when whole servers go together with clients
    that sat on them only. *)
Lemma tree_removed rank st st' S U :
  tree_state rank st -> removed st st' S U ->
  (forall u s d, u ∈ U -> servers st !! s = Some d -> u ∈ s_users d -> s ∈ S) ->
  tree_state rank st'.
Proof.
  intros Ht Hr HU.
  assert (Hsome : forall s, is_Some (servers st' !! s) -> is_Some (servers st !! s)).
  { intros s [d Hd]. exists d. by apply (removed_server_Some st st' S U). }
  constructor.
  - intros s d p Hs Hp. apply (removed_server_Some st st' S U) in Hs as [Hs _]; [|done].
    by apply (tree_rank rank st Ht s d p).
  - intros s Hs Hl. apply (tree_keys rank st Ht); auto.
  - intros s k d Hs Hk Hn. apply (removed_server_Some st st' S U) in Hk as [Hk _]; [|done].
    apply (tree_names rank st Ht s k d); auto.
  - intros s d u Hs Hu. apply (removed_server_Some st st' S U) in Hs as [Hs HnS]; [|done].
    destruct Hr as (_ & Hus & _). rewrite Hus. case_decide as HuU.
    + exfalso. apply HnS. by apply (HU u s d).
    + by apply (tree_known rank st Ht s d u).
  - intros s1 s2 d1 d2 u H1 H2.
    apply (removed_server_Some st st' S U) in H1 as [H1 _]; [|done].
    apply (removed_server_Some st st' S U) in H2 as [H2 _]; [|done].
    by apply (tree_homes rank st Ht s1 s2 d1 d2 u).
Qed.

Lemma under_removed st st' S U c s :
  removed st st' S U -> (forall x, under st c x -> x ∉ S) ->
  under st' c s <-> under st c s.
Proof.
  intros Hr Hout. split.
  - induction 1 as [[d Hd]|x d p Hx Hp _ IH].
    + apply under_self. apply (removed_server_Some st st' S U) in Hd as [Hd _]; eauto.
    + apply (removed_server_Some st st' S U) in Hx as [Hx _]; [|done].
      eapply under_child; eauto.
  - intros H. induction H as [Hc|x d p Hx Hp Hup IH].
    + apply under_self. rewrite (removed_server_keep st st' S U c Hr); [done|].
      apply Hout. by apply under_self.
    + eapply under_child; [|exact Hp|exact IH].
      rewrite (removed_server_keep st st' S U x Hr); [done|].
      apply Hout. eapply under_child; eauto.
Qed.

Lemma homed_under_removed st st' S U c u :
  removed st st' S U -> (forall x, under st c x -> x ∉ S) ->
  homed_under st' c u <-> homed_under st c u.
Proof.
  intros Hr Hout. unfold homed_under. split.
  - intros (s & d & Hs & Hd & Hu). exists s, d.
    apply (under_removed st st' S U c s Hr Hout) in Hs.
    apply (removed_server_Some st st' S U) in Hd as [Hd _]; done.
  - intros (s & d & Hs & Hd & Hu). exists s, d. split; [|split; [|done]].
    + by apply (under_removed st st' S U c s Hr Hout).
    + rewrite (removed_server_keep st st' S U s Hr); [done|]. by apply Hout.
Qed.

(** What a finished cascade on [X] has done to [st] and what it reports. *)
Definition cascade_result (st : Network) (X : string) (p : squit_payload)
    (st' : Network) : Prop :=
  sq_target p = X /\
  NoDup (sq_affected_servers p) /\
  (forall s, s ∈ sq_affected_servers p <-> under st X s) /\
  (forall u, u ∈ sq_users p <-> homed_under st X u) /\
  removed st st' (list_to_set (sq_affected_servers p)) (list_to_set (sq_users p)).

(** The servers of a list of table entries that are uplinked to [X]. *)
Definition kids (X : string) (l : list (string * Server)) : list string :=
  (List.filter (fun kv => bool_decide (s_uplink kv.2 = Some X)) l).*1.

(** State of the loop over the children of [X] once the children [cs] are
    done. *)
Definition children_done (st : Network) (X : string) (cs : list string)
    (acc : list string * list string) (st_k : Network) : Prop :=
  (forall c, c ∈ cs -> exists d, servers st !! c = Some d /\ s_uplink d = Some X) /\
  (forall s, s ∈ acc.2 <-> s = X \/ exists c, c ∈ cs /\ under st c s) /\
  NoDup acc.2 /\
  (forall u, u ∈ acc.1 <-> exists c, c ∈ cs /\ homed_under st c u) /\
  removed st st_k (list_to_set acc.2 ∖ {[X]}) (list_to_set acc.1).

Section ChildrenLoop.
Variable rank : string -> nat.
Variable st : Network.
Variable X : string.
Variable rec : string -> string -> list string -> M (option squit_payload).
Hypothesis Htree : tree_state rank st.
Hypothesis Hsafe : forall s, under st X s -> is_target st s = false.
Hypothesis HX : is_Some (servers st !! X).
Hypothesis Hrec : forall st_k c dc,
  tree_state rank st_k -> servers st_k !! c = Some dc ->
  (rank c < rank X)%nat ->
  (forall s, under st_k c s -> is_target st_k s = false) ->
  exists p st',
    rec c "SQUIT" [c; "0"; "PyLink: Automatically splitting leaf servers of " +:+ c] st_k
    = (Ok (Some p), st')
    /\ cascade_result st_k c p st'.

Lemma child_not_above c d :
  servers st !! c = Some d -> s_uplink d = Some X -> ~ under st c X.
Proof.
  intros Hc Hu Hup. pose proof (tree_rank rank st Htree c d X Hc Hu).
  pose proof (under_rank rank st c X Htree Hup). lia.
Qed.

Lemma child_under c d s :
  servers st !! c = Some d -> s_uplink d = Some X -> under st c s -> under st X s.
Proof.
  intros Hc Hu Hs. apply (under_trans st X c s); [|exact Hs].
  eapply under_child; eauto. by apply under_self.
Qed.

(** Nothing under a child that is still to do has been removed yet. *)
Lemma child_untouched cs acc st_k c dc s :
  children_done st X cs acc st_k ->
  servers st !! c = Some dc -> s_uplink dc = Some X -> c ∉ cs ->
  under st c s -> s ∉ (list_to_set acc.2 ∖ {[X]} : gset string).
Proof.
  intros (Hkid & Hsrv & _) Hc Hu Hncs Hs Hin.
  apply elem_of_difference in Hin as [Hin HnX].
  apply elem_of_list_to_set in Hin. apply Hsrv in Hin as [->|(c' & Hc' & Hs')].
  - apply HnX. set_solver.
  - destruct (Hkid c' Hc') as (d' & Hd' & Hu').
    assert (c' = c) by (eapply (siblings_disjoint rank st X c' c); eauto).
    by subst.
Qed.

Lemma children_tree cs acc st_k :
  children_done st X cs acc st_k -> tree_state rank st_k.
Proof.
  intros Hinv. pose proof Hinv as (Hkid & Hsrv & _ & Husr & Hrem).
  apply (tree_removed rank st st_k _ _ Htree Hrem).
  intros u s d Hu Hs Hin. apply elem_of_list_to_set in Hu.
  apply Husr in Hu as (c & Hc & s' & d' & Hs' & Hd' & Hu').
  assert (s' = s) as -> by (by apply (tree_homes rank st Htree s' s d' d u)).
  destruct (Hkid c Hc) as (dc & Hdc & Huc).
  apply elem_of_difference. split.
  - apply elem_of_list_to_set, Hsrv. right. eauto.
  - intros HsX. apply elem_of_singleton in HsX. subst s.
    by apply (child_not_above c dc).
Qed.

Lemma kids_cons c dc l :
  kids X ((c, dc) :: l)
  = if bool_decide (s_uplink dc = Some X) then c :: kids X l else kids X l.
Proof. unfold kids. cbn. by destruct (bool_decide _). Qed.

Lemma is_target_removed st' S U s :
  removed st st' S U -> is_target st' s = is_target st s.
Proof. intros (_ & _ & _ & _ & Hi & Hl & _). unfold is_target. by rewrite Hi, Hl. Qed.

(** One recursive call keeps the loop invariant. *)
Lemma children_step cs acc st_k c dc p st' :
  children_done st X cs acc st_k ->
  servers st !! c = Some dc -> s_uplink dc = Some X -> c ∉ cs ->
  cascade_result st_k c p st' ->
  children_done st X (cs ++ [c])
    (acc.1 ++ sq_users p, acc.2 ++ sq_affected_servers p) st'.
Proof.
  intros Hinv Hc Hu Hncs (_ & Hnd & Hsrv & Husr & Hrem).
  pose proof (fun s => child_untouched cs acc st_k c dc s Hinv Hc Hu Hncs) as Hout.
  pose proof Hinv as (Hkid & Hsrv0 & Hnd0 & Husr0 & Hrem0).
  assert (Hsrv' : forall s, s ∈ sq_affected_servers p <-> under st c s).
  { intros s. rewrite Hsrv. by apply (under_removed st st_k _ _ c s Hrem0). }
  assert (Husr' : forall u, u ∈ sq_users p <-> homed_under st c u).
  { intros u. rewrite Husr. by apply (homed_under_removed st st_k _ _ c u Hrem0). }
  assert (HXp : X ∉ sq_affected_servers p).
  { rewrite Hsrv'. by apply (child_not_above c dc). }
  split; [|split; [|split; [|split]]]; cbn [fst snd].
  - intros c' Hc'. apply elem_of_app in Hc' as [Hc'|Hc']; [by apply Hkid|].
    apply list_elem_of_singleton in Hc'. subst. eauto.
  - intros s. rewrite elem_of_app, Hsrv0, Hsrv'. split.
    + intros [[->|(c' & Hc' & Hs)]|Hs]; [by left|right..].
      * exists c'. split; [set_solver|done].
      * exists c. split; [set_solver|done].
    + intros [->|(c' & Hc' & Hs)]; [by left; left|].
      apply elem_of_app in Hc' as [Hc'|Hc']; [left; right; eauto|].
      apply list_elem_of_singleton in Hc'. subst. by right.
  - apply NoDup_app. split; [done|]. split; [|done].
    intros s Hs Hs'. apply Hsrv' in Hs'.
    apply (Hout s Hs'). apply elem_of_difference. split; [set_solver|].
    intros HsX. apply elem_of_singleton in HsX. subst. by apply HXp, Hsrv'.
  - intros u. rewrite elem_of_app, Husr0, Husr'. split.
    + intros [(c' & Hc' & Hs)|Hs].
      * exists c'. split; [set_solver|done].
      * exists c. split; [set_solver|done].
    + intros (c' & Hc' & Hs).
      apply elem_of_app in Hc' as [Hc'|Hc']; [left; eauto|].
      apply list_elem_of_singleton in Hc'. subst. by right.
  - eapply removed_proper; [| |exact (removed_trans _ _ _ _ _ _ _ Hrem0 Hrem)].
    + rewrite list_to_set_app_L. apply set_eq. intros s.
      rewrite !elem_of_union, !elem_of_difference, elem_of_union, !elem_of_list_to_set,
        elem_of_singleton.
      split; [|tauto]. intros [?|Hs]; [tauto|]. split; [tauto|].
      intros ->. by apply HXp.
    + by rewrite list_to_set_app_L.
Qed.

Lemma children_run : forall l cs acc st_k,
  (forall kv, kv ∈ l -> servers st !! kv.1 = Some kv.2) ->
  NoDup l.*1 ->
  (forall kv, kv ∈ l -> kv.1 ∉ cs) ->
  children_done st X cs acc st_k ->
  exists acc' st',
    foldM (squit_child_step rec X) l acc st_k = (Ok acc', st')
    /\ children_done st X (cs ++ kids X l) acc' st'.
Proof.
  induction l as [|[c dc] l IH]; intros cs acc st_k Hent Hnd Hfresh Hinv.
  - exists acc, st_k. split; [reflexivity|]. unfold kids. cbn. by rewrite app_nil_r.
  - cbn [fmap list_fmap fst] in Hnd. apply NoDup_cons in Hnd as [Hcl Hnd].
    assert (Hc : servers st !! c = Some dc) by (apply (Hent (c, dc)); set_solver).
    assert (Hncs : c ∉ cs) by (apply (Hfresh (c, dc)); set_solver).
    assert (Hent' : forall kv, kv ∈ l -> servers st !! kv.1 = Some kv.2)
      by (intros kv Hkv; apply Hent; set_solver).
    rewrite kids_cons. cbn [foldM]. unfold bind at 1, squit_child_step at 1.
    cbn [fst snd]. case_bool_decide as Hu.
    + pose proof (fun s => child_untouched cs acc st_k c dc s Hinv Hc Hu Hncs) as Hout.
      pose proof Hinv as (_ & _ & _ & _ & Hrem).
      destruct (Hrec st_k c dc) as (p & st' & Hrun & Hres).
      * by apply (children_tree cs acc).
      * rewrite (removed_server_keep st st_k _ _ c Hrem); [done|].
        apply Hout, under_self. eauto.
      * by apply (tree_rank rank st Htree c dc X).
      * intros s Hs. rewrite (is_target_removed st_k _ _ s Hrem).
        apply Hsafe, (child_under c dc); [done..|].
        by apply (under_removed st st_k _ _ c s Hrem).
      * unfold bind. rewrite Hrun. cbn [ret].
        destruct (IH (cs ++ [c]) (acc.1 ++ sq_users p, acc.2 ++ sq_affected_servers p) st')
          as (acc' & st'' & Hrun' & Hinv'); auto.
        { intros kv Hkv Hin. apply elem_of_app in Hin as [Hin|Hin].
          - by apply (Hfresh kv); [set_solver|].
          - apply list_elem_of_singleton in Hin. apply Hcl.
            apply list_elem_of_fmap. exists kv. split; [done|]. done. }
        { by apply (children_step cs acc st_k c dc p st'). }
        exists acc', st''. split; [exact Hrun'|].
        by rewrite <- app_assoc in Hinv'.
    + cbn [ret]. apply IH; auto. intros kv Hkv. apply Hfresh. set_solver.
Qed.

End ChildrenLoop.

Lemma kids_spec st X c :
  c ∈ kids X (map_to_list (servers st)) <->
  exists d, servers st !! c = Some d /\ s_uplink d = Some X.
Proof.
  unfold kids. rewrite list_elem_of_fmap. split.
  - intros ([c' d] & -> & Hin). apply list_elem_of_In, filter_In in Hin as [Hin Hb].
    apply list_elem_of_In, elem_of_map_to_list in Hin. apply bool_decide_eq_true in Hb.
    eauto.
  - intros (d & Hc & Hu). exists (c, d). split; [done|].
    apply list_elem_of_In, filter_In. split.
    + by apply list_elem_of_In, elem_of_map_to_list.
    + by apply bool_decide_eq_true.
Qed.

(** The cascade on a tree: with a budget above the rank of [X] the call
    returns, and it has removed the subtree of [X] and nothing else. *)
Lemma squit_cascade rank : forall fuel st numeric command t rest X,
  tree_state rank st ->
  _get_SID st t = X ->
  is_Some (servers st !! X) ->
  (forall s, under st X s -> is_target st s = false) ->
  (rank X < fuel)%nat ->
  exists p st',
    _squit B fuel numeric command (t :: rest) st = (Ok (Some p), st')
    /\ cascade_result st X p st'.
Proof.
  induction fuel as [|fuel IH]; intros st numeric command t rest X Htree Hres HX Hsafe Hfuel;
    [lia|].
  destruct HX as [d Hd].
  assert (Hrec : forall st_k c dc,
    tree_state rank st_k -> servers st_k !! c = Some dc -> (rank c < rank X)%nat ->
    (forall s, under st_k c s -> is_target st_k s = false) ->
    exists p st',
      _squit B fuel c "SQUIT"
        [c; "0"; "PyLink: Automatically splitting leaf servers of " +:+ c] st_k
      = (Ok (Some p), st') /\ cascade_result st_k c p st').
  { intros st_k c dc Htk Hc Hrk Hsk. apply IH; eauto; [|lia].
    apply (get_SID_self rank); eauto. }
  destruct (children_run rank st X (_squit B fuel) Htree Hsafe (ex_intro _ d Hd) Hrec
              (map_to_list (servers st)) [] ([], [X]) st)
    as (acc & st1 & Hrun & Hinv).
  { intros [k v] Hkv. by apply elem_of_map_to_list. }
  { apply NoDup_fst_map_to_list. }
  { intros kv _. set_solver. }
  { split; [set_solver|]. split; [|split; [|split]]; cbn [fst snd].
    - intros s. rewrite list_elem_of_singleton. split; [by left|].
      intros [?|(c & Hc & _)]; [done|set_solver].
    - apply NoDup_singleton.
    - intros u. split; [set_solver|]. intros (c & Hc & _). set_solver.
    - eapply removed_proper; [| |exact (removed_refl st)]; set_solver. }
  cbn [app] in Hinv.
  pose proof Hinv as (Hkid & Hsrv & Hnd & Husr & Hrem).
  assert (Htree1 : tree_state rank st1)
    by exact (children_tree rank st X Htree _ acc st1 Hinv).
  assert (HXacc : X ∈ acc.2) by (apply Hsrv; by left).
  assert (Hd1 : servers st1 !! X = Some d).
  { rewrite (removed_server_keep st st1 _ _ X Hrem); [done|]. set_solver. }
  assert (Hkidu : forall c s, c ∈ kids X (map_to_list (servers st)) ->
                              under st c s -> under st X s).
  { intros c s Hc Hs. destruct (Hkid c Hc) as (dc & Hdc & Huc).
    apply (child_under st X (ex_intro _ d Hd) c dc); done. }
  destruct (squit_users_run (_channels st) (elements (s_users d)) (acc.1, ∅) st1)
    as (nicks & Hurun).
  { apply NoDup_elements. }
  { intros u Hu. apply elem_of_elements in Hu.
    destruct Hrem as (_ & Hus & _). rewrite Hus. rewrite decide_False.
    - by apply (tree_known rank st Htree X d).
    - intros Hin. apply elem_of_list_to_set, Husr in Hin
        as (c & Hc & s & ds & Hs & Hds & Hus').
      assert (s = X) as -> by (by apply (tree_homes rank st Htree s X ds d u)).
      destruct (Hkid c Hc) as (dc & Hdc & Huc).
      by apply (child_not_above rank st X Htree c dc). }
  cbn [fst] in Hurun.
  pose proof (own_level_removed rank st1 X d Htree1 Hd1) as Hown. cbn zeta in Hown.
  destruct (remove_clients_spec (elements (s_users d)) st1) as (_ & Hsrv2 & _).
  set (st2 := remove_clients (elements (s_users d)) st1) in *.
  assert (Hd2 : servers st2 !! X = Some (strip (list_to_set (elements (s_users d))) d))
    by (by rewrite Hsrv2, Hd1).
  eexists _, (set_servers st2 (delete X (servers st2))). split.
  - cbn [_squit]. unfold bind at 1. unfold lift at 1.
    change (index (t :: rest) 0) with (Ok t).
    unfold bind at 1. cbn [get]. rewrite Hres.
    rewrite (Hsafe X) by (apply under_self; eauto).
    rewrite bool_decide_eq_true_2 by eauto. cbn [negb].
    unfold bind at 1. rewrite Hrun.
    unfold bind at 1. cbn [get].
    unfold bind at 1. unfold dict_get at 1. rewrite Hd1. cbn [ret].
    unfold bind at 1. rewrite Hurun.
    unfold bind at 1. unfold pop_server. fold st2. rewrite Hd2.
    reflexivity.
  - split; [reflexivity|]. cbn [sq_affected_servers sq_users fst snd].
    split; [exact Hnd|]. split; [|split].
    + intros s. rewrite Hsrv, under_split. split.
      * intros [->|(c & Hc & Hs)]; [left; eauto|].
        right. apply kids_spec in Hc as (dc & Hdc & Huc). exists c, dc. eauto.
      * intros [[-> _]|(c & dc & Hdc & Huc & _ & Hs)]; [by left|].
        right. exists c. split; [|done]. apply kids_spec. eauto.
    + intros u. rewrite elem_of_app, Husr, elem_of_elements. split.
      * intros [(c & Hc & s & ds & Hs & Hds & Hu)|Hu].
        -- exists s, ds. split; [|done]. by apply (Hkidu c).
        -- exists X, d. split; [|done]. apply under_self. eauto.
      * intros (s & ds & Hs & Hds & Hu).
        apply under_split in Hs as [[-> _]|(c & dc & Hdc & Huc & _ & Hs)].
        -- right. congruence.
        -- left. exists c. split; [apply kids_spec; eauto|]. exists s, ds. done.
    + eapply removed_proper; [| |exact (removed_trans _ _ _ _ _ _ _ Hrem Hown)].
      * apply set_eq. intros s.
        rewrite elem_of_union, elem_of_difference, elem_of_singleton, elem_of_list_to_set.
        split.
        -- intros [[? _]| ->]; done.
        -- intros Hs. destruct (decide (s = X)); [by right|by left].
      * by rewrite list_to_set_app_L, list_to_set_elements_L.
Qed.

End Cascade.

(** The cascade where identifiers resolve to themselves.  On a tree state
    (in particular: no key of the server table is shadowed by its own
    lower-cased form or by a server name), for a target that resolves
    to a known server [X] with neither the own SID nor the uplink under it,
    the cascade returns (with a recursion budget above the rank of [X]);
    exactly the servers under [X] and the clients homed on them are gone,
    every other server and user entry is untouched, every channel has lost
    exactly those clients and a channel that keeps its members is untouched,
    and the affected-servers list is duplicate-free and holds exactly [X]
    and the servers under it. *)
Theorem squit_removes_subtree (B : Base) (rank : string -> nat) (st : Network)
    (numeric command t : string) (rest : list string) (X : string) (fuel : nat) :
  tree_state rank st ->
  _get_SID st t = X ->
  is_Some (servers st !! X) ->
  (forall s, under st X s -> sid st <> Some s /\ uplink st <> Some s) ->
  (rank X < fuel)%nat ->
  exists p st',
    _squit B fuel numeric command (t :: rest) st = (Ok (Some p), st')
    /\ (forall s, under st X s -> servers st' !! s = None)
    /\ (forall s, ~ under st X s -> servers st' !! s = servers st !! s)
    /\ (forall u, homed_under st X u -> users st' !! u = None)
    /\ (forall u, ~ homed_under st X u -> users st' !! u = users st !! u)
    /\ (forall c u, u ∈ members st' c <-> u ∈ members st c /\ ~ homed_under st X u)
    /\ (forall c ch, _channels st !! c = Some ch -> c_users ch <> ∅ ->
                      (forall u, u ∈ c_users ch -> ~ homed_under st X u) ->
                      _channels st' !! c = Some ch)
    /\ NoDup (sq_affected_servers p)
    /\ (forall s, s ∈ sq_affected_servers p <-> under st X s).
Proof.
  intros Htree Hres HX Hsafe Hfuel.
  destruct (squit_cascade B rank fuel st numeric command t rest X Htree Hres HX)
    as (p & st' & Hrun & _ & Hnd & Hsrv & Husr & Hs & Hu & Hm & Hk & _); [|done|].
  { intros s Hs. destruct (Hsafe s Hs) as [H1 H2]. unfold is_target.
    by rewrite !bool_decide_eq_false_2. }
  exists p, st'. split; [exact Hrun|].
  assert (HinS : forall s, s ∈ (list_to_set (sq_affected_servers p) : gset string)
                           <-> under st X s)
    by (intros s; by rewrite elem_of_list_to_set).
  assert (HinU : forall u, u ∈ (list_to_set (sq_users p) : gset string)
                           <-> homed_under st X u)
    by (intros u; by rewrite elem_of_list_to_set).
  split; [|split; [|split; [|split; [|split; [|split; [|split]]]]]].
  - intros s Hus. rewrite Hs, decide_True; [done|]. by apply HinS.
  - intros s Hus. rewrite Hs, decide_False; [done|]. by rewrite HinS.
  - intros u Hh. rewrite Hu, decide_True; [done|]. by apply HinU.
  - intros u Hh. rewrite Hu, decide_False; [done|]. by rewrite HinU.
  - intros c u. rewrite Hm, elem_of_difference, HinU. done.
  - intros c ch Hc Hne Hall. apply Hk; [done..|].
    intros u Hin Hin'. apply (Hall u Hin). by apply HinU.
  - exact Hnd.
  - exact Hsrv.
Qed.

(** *** A checkable form of [tree_state] *)

Definition tree_stateb (rank : string -> nat) (st : Network) : bool :=
  let es := map_to_list (servers st) in
  forallb (fun kv => match s_uplink kv.2 with
                     | Some p => (rank kv.1 <? rank p)%nat
                     | None => true
                     end) es
  && forallb (fun kv => implb (bool_decide (is_Some (servers st !! lower kv.1)))
                              (bool_decide (lower kv.1 = kv.1))) es
  && forallb (fun kv =>
                forallb (fun kv' => implb (bool_decide (lower (s_name kv'.2) = lower kv.1))
                                          (bool_decide (kv'.1 = kv.1))) es) es
  && forallb (fun kv => forallb (fun u => bool_decide (is_Some (users st !! u)))
                                (elements (s_users kv.2))) es
  && forallb (fun kv =>
                forallb (fun kv' =>
                           forallb (fun u => implb (bool_decide (u ∈ s_users kv'.2))
                                                   (bool_decide (kv.1 = kv'.1)))
                                   (elements (s_users kv.2))) es) es.

Lemma forallb_entries {V} (m : gmap string V) (f : string * V -> bool) :
  forallb f (map_to_list m) = true -> forall k v, m !! k = Some v -> f (k, v) = true.
Proof.
  rewrite forallb_forall. intros H k v Hk. apply H.
  by apply list_elem_of_In, elem_of_map_to_list.
Qed.

Lemma forallb_elems (X : gset string) (f : string -> bool) :
  forallb f (elements X) = true -> forall u, u ∈ X -> f u = true.
Proof.
  rewrite forallb_forall. intros H u Hu. apply H.
  by apply list_elem_of_In, elem_of_elements.
Qed.

Lemma tree_stateb_sound rank st : tree_stateb rank st = true -> tree_state rank st.
Proof.
  unfold tree_stateb. cbn zeta. rewrite !andb_true_iff.
  intros [[[[H1 H2] H3] H4] H5]. constructor.
  - intros s d p Hs Hp. pose proof (forallb_entries _ _ H1 s d Hs) as H.
    cbn in H. rewrite Hp in H. by apply Nat.ltb_lt.
  - intros s [d Hs] Hl. pose proof (forallb_entries _ _ H2 s d Hs) as H.
    cbn in H. rewrite bool_decide_eq_true_2 in H by done. cbn in H.
    by apply bool_decide_eq_true in H.
  - intros s k d [ds Hs] Hk Hn. pose proof (forallb_entries _ _ H3 s ds Hs) as H.
    pose proof (forallb_entries _ _ H k d Hk) as H'.
    cbn in H'. rewrite bool_decide_eq_true_2 in H' by done. cbn in H'.
    by apply bool_decide_eq_true in H'.
  - intros s d u Hs Hu. pose proof (forallb_entries _ _ H4 s d Hs) as H.
    pose proof (forallb_elems _ _ H u Hu) as H'. by apply bool_decide_eq_true in H'.
  - intros s1 s2 d1 d2 u Hs1 Hs2 Hu1 Hu2.
    pose proof (forallb_entries _ _ H5 s1 d1 Hs1) as H.
    pose proof (forallb_entries _ _ H s2 d2 Hs2) as H'.
    pose proof (forallb_elems _ _ H' u Hu1) as H''.
    cbn in H''. rewrite bool_decide_eq_true_2 in H'' by done. cbn in H''.
    by apply bool_decide_eq_true in H''.
Qed.

(** Ranks for the demo network: leaves lowest, the two roots highest. *)
Definition demo_rank (s : string) : nat :=
  if bool_decide (s = "0AL") then 3
  else if bool_decide (s = "1ML") then 3
  else if bool_decide (s = "2AA") then 2
  else if bool_decide (s = "3BB") then 1
  else 0.

Lemma tree_demo : tree_state demo_rank demo.
Proof. apply tree_stateb_sound. vm_compute. reflexivity. Qed.

(** A second small network, with server numerics that differ in case only
    (P10 numerics are case-sensitive): hub HUB behind the uplink with leaf
    AB below it, and an unrelated server ab directly on the uplink. *)
Definition casey : Network :=
  mkNetwork "p10net" (Some "0AL") (Some "1ML")
    (list_to_map
       [("0AL", mkServer "pylink.local" None ∅);
        ("1ML", mkServer "uplink.net" None ∅);
        ("HUB", mkServer "hub.net" (Some "1ML") ∅);
        ("AB", mkServer "a.net" (Some "HUB") {["ABAAA"]});
        ("ab", mkServer "b.net" (Some "1ML") {["abAAA"]})])
    (list_to_map
       [("ABAAA", mkUser "ann" ∅);
        ("abAAA", mkUser "bea" ∅)])
    ∅ [].

Lemma squit_removes_subtree_witness :
  tree_state demo_rank demo /\
  exists p st',
    _squit plain_base 5 "1ML" "SQUIT" ["2AA"; "bye"] demo = (Ok (Some p), st')
    /\ (forall s, under demo "2AA" s -> servers st' !! s = None)
    /\ (forall s, ~ under demo "2AA" s -> servers st' !! s = servers demo !! s)
    /\ (forall u, homed_under demo "2AA" u -> users st' !! u = None)
    /\ (forall u, ~ homed_under demo "2AA" u -> users st' !! u = users demo !! u)
    /\ (forall c u, u ∈ members st' c <-> u ∈ members demo c /\ ~ homed_under demo "2AA" u)
    /\ (forall c ch, _channels demo !! c = Some ch -> c_users ch <> ∅ ->
                      (forall u, u ∈ c_users ch -> ~ homed_under demo "2AA" u) ->
                      _channels st' !! c = Some ch)
    /\ NoDup (sq_affected_servers p)
    /\ (forall s, s ∈ sq_affected_servers p <-> under demo "2AA" s).
Proof.
  split; [exact tree_demo|].
  apply (squit_removes_subtree plain_base demo_rank demo "1ML" "SQUIT" "2AA" ["bye"] "2AA" 5).
  - exact tree_demo.
  - vm_compute. reflexivity.
  - eexists. vm_compute. reflexivity.
  - intros s Hs. pose proof (under_rank demo_rank demo "2AA" s tree_demo Hs) as Hr.
    split; intros Heq; injection Heq as <-; vm_compute in Hr; lia.
  - vm_compute. lia.
Defined.

Example squit_demo :
  let r := handle_squit plain_base "1ML" "SQUIT" ["2AA"; "bye"] demo in
  match r.1 with
  | Ok (Some p) =>
      sq_affected_servers p = ["2AA"; "3BB"; "5DD"; "4CC"]
      /\ sq_users p = ["5DDAAAAAA"; "3BBAAAAAA"; "2AAAAAAAA"]
  | _ => False
  end
  /\ (map_to_list (servers r.2)).*1 = ["1ML"; "0AL"]
  /\ (map_to_list (users r.2)).*1 = ["1MLAAAAAA"].
Proof. vm_compute. repeat split. Qed.

(** Server ranks for [casey]. *)
Definition casey_rank (s : string) : nat :=
  if bool_decide (s = "0AL") then 3
  else if bool_decide (s = "1ML") then 3
  else if bool_decide (s = "HUB") then 2
  else if bool_decide (s = "ab") then 2
  else 0.

(** C3. On [casey] the uplinks form a tree and HUB is a known server, not
    the own SID, not the uplink, that resolves to itself; AB is below HUB
    and ab is not.  Splitting HUB makes the recursive call for the child
    key AB resolve that key once more, to the unrelated server ab: ab and
    its client are removed and reported as affected, while AB and its
    client stay in the tables, AB with an uplink that is gone. *)
Theorem squit_case_collision :
  (forall s d p, servers casey !! s = Some d -> s_uplink d = Some p ->
                 (casey_rank s < casey_rank p)%nat)
  /\ _get_SID casey "HUB" = "HUB"
  /\ sid casey <> Some "HUB" /\ uplink casey <> Some "HUB"
  /\ under casey "HUB" "AB"
  /\ ~ under casey "HUB" "ab"
  /\ exists p st',
       handle_squit plain_base "1ML" "SQUIT" ["HUB"; "bye"] casey = (Ok (Some p), st')
       /\ sq_affected_servers p = ["HUB"; "ab"]
       /\ sq_users p = ["abAAA"]
       /\ servers st' !! "AB" = Some (mkServer "a.net" (Some "HUB") {["ABAAA"]})
       /\ users st' !! "ABAAA" = Some (mkUser "ann" ∅)
       /\ servers st' !! "HUB" = None
       /\ servers st' !! "ab" = None
       /\ users st' !! "abAAA" = None.
Proof.
  split; [|split; [|split; [|split; [|split; [|split]]]]].
  - intros s d p Hs Hp.
    assert (Hall : forallb (fun kv : string * Server =>
                              match s_uplink kv.2 with
                              | Some p => (casey_rank kv.1 <? casey_rank p)%nat
                              | None => true
                              end) (map_to_list (servers casey)) = true)
      by (vm_compute; reflexivity).
    pose proof (forallb_entries _ _ Hall s d Hs) as H. cbn in H. rewrite Hp in H.
    by apply Nat.ltb_lt.
  - vm_compute. reflexivity.
  - discriminate.
  - discriminate.
  - apply (under_child casey "HUB" "AB" (mkServer "a.net" (Some "HUB") {["ABAAA"]}) "HUB").
    + vm_compute. reflexivity.
    + reflexivity.
    + apply under_self. eexists. vm_compute. reflexivity.
  - intros H. inversion H as [|s d p Hs Hp Hup]; subst.
    vm_compute in Hs. injection Hs as <-. cbn in Hp. injection Hp as <-.
    inversion Hup as [|s' d' p' Hs' Hp' Hup']; subst.
    vm_compute in Hs'. injection Hs' as <-. discriminate Hp'.
  - eexists _, _. split; [vm_compute; reflexivity|].
    repeat (split; [vm_compute; reflexivity|]). vm_compute. reflexivity.
Qed.

(** *** Further properties of the handlers *)

Lemma get_SID_three (st : Network) (sname : string) :
  (is_Some (servers st !! lower sname) -> _get_SID st sname = lower sname)
  /\ (servers st !! lower sname = None ->
      (exists k d, servers st !! k = Some d /\ lower (s_name d) = lower sname) ->
      exists d, servers st !! _get_SID st sname = Some d
                /\ lower (s_name d) = lower sname)
  /\ (servers st !! lower sname = None ->
      (forall k d, servers st !! k = Some d -> lower (s_name d) <> lower sname) ->
      _get_SID st sname = sname).
Proof.
  unfold _get_SID. split; [|split].
  - intros H. by rewrite bool_decide_eq_true_2.
  - intros Hnone (k & d & Hk & Hn).
    rewrite bool_decide_eq_false_2 by (rewrite Hnone; by intros [? ?]).
    destruct (List.find _ _) as [[k' d']|] eqn:Hf.
    + apply find_some in Hf as [Hin Hname]. cbn in *.
      apply bool_decide_eq_true in Hname.
      apply list_elem_of_In, elem_of_map_to_list in Hin. eauto.
    + exfalso.
      assert (Hin : In (k, d) (map_to_list (servers st)))
        by (by apply list_elem_of_In, elem_of_map_to_list).
      pose proof (find_none _ _ Hf (k, d) Hin) as Hb. cbn in Hb.
      by apply bool_decide_eq_false in Hb.
  - intros Hnone Hno.
    rewrite bool_decide_eq_false_2 by (rewrite Hnone; by intros [? ?]).
    destruct (List.find _ _) as [[k' d']|] eqn:Hf; [|reflexivity].
    apply find_some in Hf as [Hin Hname]. cbn in *.
    apply bool_decide_eq_true in Hname.
    apply list_elem_of_In, elem_of_map_to_list in Hin.
    by destruct (Hno k' d' Hin).
Qed.

(** X8. What [_get_SID] returns: the lower-cased text when that is a key
    of the server table; otherwise the key of a server whose lower-cased
    name is the lower-cased text when there is one; otherwise the text as
    given.  It never returns anything else. *)
Theorem get_SID_cases (st : Network) (sname : string) :
  (is_Some (servers st !! lower sname) -> _get_SID st sname = lower sname)
  /\ (servers st !! lower sname = None ->
      (exists k d, servers st !! k = Some d /\ lower (s_name d) = lower sname) ->
      exists d, servers st !! _get_SID st sname = Some d
                /\ lower (s_name d) = lower sname)
  /\ (servers st !! lower sname = None ->
      (forall k d, servers st !! k = Some d -> lower (s_name d) <> lower sname) ->
      _get_SID st sname = sname).
Proof. apply get_SID_three. Qed.

Lemma get_SID_cases_witness :
  exists d, servers demo !! _get_SID demo "Hub.NET" = Some d
            /\ lower (s_name d) = lower "Hub.NET".
Proof.
  apply (proj1 (proj2 (get_SID_cases demo "Hub.NET"))).
  - vm_compute. reflexivity.
  - exists "2AA", (mkServer "hub.net" (Some "1ML") {["2AAAAAAAA"]}).
    split; vm_compute; reflexivity.
Defined.

(** Membership after one round of the part loop. *)
Lemma members_part_effect source channel st x :
  members (part_effect source channel st) x
  = if decide (x = channel) then members st channel ∖ {[source]} else members st x.
Proof.
  unfold part_effect. cbn [users set_channels].
  assert (H : members (set_channels st
                (<[channel := remove_user source (channel_at st channel)]> (_channels st))) x
              = if decide (x = channel) then members st channel ∖ {[source]} else members st x).
  { rewrite members_insert. by destruct (decide (x = channel)). }
  by destruct (users st !! source).
Qed.

Lemma users_part_effect source channel st u :
  u <> source -> users (part_effect source channel st) !! u = users st !! u.
Proof.
  intros Hne. unfold part_effect. cbn [users set_channels].
  destruct (users st !! source); cbn; [|done]. by rewrite lookup_insert_ne.
Qed.

Lemma rest_part_effect source channel st :
  servers (part_effect source channel st) = servers st
  /\ sent (part_effect source channel st) = sent st
  /\ sid (part_effect source channel st) = sid st
  /\ uplink (part_effect source channel st) = uplink st.
Proof. unfold part_effect. cbn. by destruct (users st !! source). Qed.

Definition part_all (source : string) (chans : list string) (st : Network) : Network :=
  fold_left (fun s c => part_effect source c s) chans st.

Lemma members_part_all source chans : forall st x,
  members (part_all source chans st) x
  = if decide (x ∈ chans) then members st x ∖ {[source]} else members st x.
Proof.
  induction chans as [|c chans IH]; intros st x; cbn [part_all fold_left].
  - by rewrite decide_False by set_solver.
  - fold (part_all source chans (part_effect source c st)). rewrite IH.
    rewrite !members_part_effect.
    destruct (decide (x = c)) as [->|Hne].
    + rewrite (decide_True (P := c ∈ c :: chans)) by set_solver.
      destruct (decide (c ∈ chans)); set_solver.
    + destruct (decide (x ∈ chans)).
      * by rewrite (decide_True (P := x ∈ c :: chans)) by set_solver.
      * by rewrite (decide_False (P := x ∈ c :: chans)) by set_solver.
Qed.

Lemma users_part_all source chans : forall st u,
  u <> source -> users (part_all source chans st) !! u = users st !! u.
Proof.
  induction chans as [|c chans IH]; intros st u Hne; [done|].
  cbn [part_all fold_left]. fold (part_all source chans (part_effect source c st)).
  rewrite IH by done. by apply users_part_effect.
Qed.

Lemma rest_part_all source chans : forall st,
  servers (part_all source chans st) = servers st
  /\ sent (part_all source chans st) = sent st
  /\ sid (part_all source chans st) = sid st
  /\ uplink (part_all source chans st) = uplink st.
Proof.
  induction chans as [|c chans IH]; intros st; [done|].
  cbn [part_all fold_left]. fold (part_all source chans (part_effect source c st)).
  destruct (IH (part_effect source c st)) as (H1 & H2 & H3 & H4).
  destruct (rest_part_effect source c st) as (G1 & G2 & G3 & G4).
  repeat split; congruence.
Qed.

Lemma source_part_effect source channel st :
  users (part_effect source channel st) !! source
  = (fun u => mkUser (nick u) (channels u ∖ {[channel]})) <$> users st !! source.
Proof.
  unfold part_effect. cbn [users set_channels].
  destruct (users st !! source) as [u|] eqn:E; cbn.
  - by rewrite lookup_insert_eq.
  - exact E.
Qed.

Lemma source_part_all source chans : forall st,
  users (part_all source chans st) !! source
  = (fun u => mkUser (nick u) (channels u ∖ list_to_set chans)) <$> users st !! source.
Proof.
  induction chans as [|c chans IH]; intros st.
  - cbn [part_all fold_left list_to_set]. destruct (users st !! source) as [[n cs]|]; [|done].
    cbn. do 2 f_equal. set_solver.
  - cbn [part_all fold_left]. fold (part_all source chans (part_effect source c st)).
    rewrite IH, source_part_effect. destruct (users st !! source) as [[n cs]|]; [|done].
    cbn. do 2 f_equal. set_solver.
Qed.

Lemma list_remove_perm x l : x ∈ l -> exists l', list_remove x l = Some l' /\ l ≡ₚ x :: l'.
Proof.
  induction l as [|y l IH]; intros Hin; [by apply elem_of_nil in Hin|].
  cbn [list_remove]. case_bool_decide as Hy.
  - subst. eauto.
  - apply elem_of_cons in Hin as [->|Hin]; [done|].
    destruct (IH Hin) as (l' & -> & Hp). eexists. split; [reflexivity|].
    rewrite Hp. apply Permutation_swap.
Qed.

(** The part loop never fails, and what is left of the channel list are
    channels the source was on when the handler started. *)
Lemma part_loop_run source args st0 : forall todo kept cur r st,
  cur ≡ₚ kept ++ todo ->
  (forall x, x ∈ kept -> source ∈ members st0 x) ->
  (forall x, members st x ⊆ members st0 x) ->
  exists cur' r',
    foldM (part_step source args) todo (cur, r) st
    = (Ok (cur', r'), part_all source todo st)
    /\ (forall x, x ∈ cur' -> source ∈ members st0 x)
    /\ (todo <> [] -> r' = Some (default "" (args !! 1%nat))).
Proof.
  induction todo as [|c todo IH]; intros kept cur r st Hperm Hkept Hsub.
  - exists cur, r. split; [reflexivity|]. split; [|done].
    intros x Hx. apply Hkept. rewrite app_nil_r in Hperm. by rewrite <- Hperm.
  - cbn [foldM part_all fold_left]. fold (part_all source todo (part_effect source c st)).
    unfold bind. rewrite part_step_run. cbn [fst].
    assert (Hsub' : forall x, members (part_effect source c st) x ⊆ members st0 x).
    { intros x. rewrite members_part_effect. specialize (Hsub x).
      destruct (decide (x = c)) as [->|]; set_solver. }
    destruct (not_on source c st) eqn:Hon.
    + destruct (list_remove_perm c cur) as (cur1 & Hrm & Hp1).
      { rewrite Hperm. set_solver. }
      rewrite Hrm.
      destruct (IH kept cur1 (Some (default "" (args !! 1%nat))) (part_effect source c st))
        as (cur' & r' & Hrun & Hin & Hr); auto.
      { apply (Permutation_cons_inv (a := c)). rewrite <- Hp1, Hperm.
        by rewrite Permutation_middle. }
      exists cur', r'. split; [exact Hrun|]. split; [exact Hin|].
      intros _. destruct todo; [|by apply Hr]. cbn in Hrun. by injection Hrun as <- <-.
    + destruct (IH (kept ++ [c]) cur (Some (default "" (args !! 1%nat)))
                  (part_effect source c st)) as (cur' & r' & Hrun & Hin & Hr); auto.
      { rewrite Hperm, <- app_assoc. reflexivity. }
      { intros x Hx. apply elem_of_app in Hx as [Hx|Hx]; [by apply Hkept|].
        apply list_elem_of_singleton in Hx. subst x.
        unfold not_on in Hon. apply orb_false_iff in Hon as [_ Hon].
        apply negb_false_iff, bool_decide_eq_true in Hon. by apply Hsub. }
      exists cur', r'. split; [exact Hrun|]. split; [exact Hin|].
      intros _. destruct todo; [|by apply Hr]. cbn in Hrun. by injection Hrun as <- <-.
Qed.

Lemma handle_part_post (source command a0 : string) (rest : list string)
    (st : Network) :
  exists r st',
    handle_part source command (a0 :: rest) st = (Ok r, st')
    /\ (forall x, members st' x
                  = if decide (x ∈ split "," a0) then members st x ∖ {[source]}
                    else members st x)
    /\ (forall u, u <> source -> users st' !! u = users st !! u)
    /\ servers st' = servers st /\ sent st' = sent st
    /\ match r with
       | None => True
       | Some p =>
           part_text p = default "" (rest !! 0%nat)
           /\ forall x, x ∈ part_channels p -> source ∈ members st x
       end.
Proof.
  destruct (part_loop_run source (a0 :: rest) st (split "," a0) [] (split "," a0) None st)
    as (cur' & r' & Hrun & Hin & Hr); [done|set_solver|set_solver|].
  pose proof (split_nonempty "," a0) as Hne. specialize (Hr Hne).
  destruct (rest_part_all source (split "," a0) st) as (Hs & Hw & _ & _).
  pose proof (members_part_all source (split "," a0) st) as Hm.
  pose proof (users_part_all source (split "," a0) st) as Hu.
  unfold handle_part. unfold bind at 1. unfold lift at 1.
  change (index (a0 :: rest) 0) with (Ok a0). cbv beta iota.
  unfold bind at 1. rewrite Hrun. cbn [fst snd]. subst r'.
  destruct cur' as [|c cs].
  - exists None, (part_all source (split "," a0) st). done.
  - eexists (Some _), (part_all source (split "," a0) st).
    split; [reflexivity|]. done.
Qed.

(** The state [handle_part] leaves behind. *)
Lemma handle_part_state (source command a0 : string) (rest : list string)
    (st : Network) :
  exists r, handle_part source command (a0 :: rest) st
            = (Ok r, part_all source (split "," a0) st).
Proof.
  destruct (part_loop_run source (a0 :: rest) st (split "," a0) [] (split "," a0) None st)
    as (cur' & r' & Hrun & Hin & Hr); [done|set_solver|set_solver|].
  pose proof (split_nonempty "," a0) as Hne. specialize (Hr Hne).
  unfold handle_part. unfold bind at 1. unfold lift at 1.
  change (index (a0 :: rest) 0) with (Ok a0). cbv beta iota.
  unfold bind at 1. rewrite Hrun. cbn [fst snd]. subst r'.
  destruct cur' as [|c cs]; eexists; reflexivity.
Qed.

(** X9. With at least one argument [handle_part] always returns.  The
    source is then on none of the channels named, every other membership,
    every other user, the servers and the wire are as before, and a hook, if
    one is returned, carries the second argument (or the empty text) and
    lists only channels the source was on. *)
Theorem handle_part_effect (source command a0 : string) (rest : list string)
    (st : Network) :
  exists r st',
    handle_part source command (a0 :: rest) st = (Ok r, st')
    /\ (forall x, members st' x
                  = if decide (x ∈ split "," a0) then members st x ∖ {[source]}
                    else members st x)
    /\ (forall u, u <> source -> users st' !! u = users st !! u)
    /\ servers st' = servers st /\ sent st' = sent st
    /\ match r with
       | None => True
       | Some p =>
           part_text p = default "" (rest !! 0%nat)
           /\ forall x, x ∈ part_channels p -> source ∈ members st x
       end.
Proof. apply handle_part_post. Qed.

(** X10. With a channel and a target [handle_kick] always returns its hook
    (channel, resolved target, third argument or empty text).  Afterwards
    every channel named has exactly its former members less the resolved
    target, every other channel has exactly its former members, the
    target's own record has lost exactly the channels named, and all other
    users, the servers and the wire are as before.  With fewer than two
    arguments it raises IndexError and changes nothing. *)
Theorem handle_kick_effect (B : Base) (source command channel target : string)
    (rest : list string) (st : Network) :
  let kicked := _get_UID B st target in
  (exists st',
     handle_kick B source command (channel :: target :: rest) st
     = (Ok (Some (mkKick channel kicked (default "" (rest !! 0%nat)))), st')
     /\ (forall x, members st' x
                   = if decide (x ∈ split "," channel) then members st x ∖ {[kicked]}
                     else members st x)
     /\ users st' !! kicked
        = (fun u => mkUser (nick u) (channels u ∖ list_to_set (split "," channel)))
            <$> users st !! kicked
     /\ (forall u, u <> kicked -> users st' !! u = users st !! u)
     /\ servers st' = servers st /\ sent st' = sent st)
  /\ handle_kick B source command [channel] st = (Raise IndexError, st)
  /\ handle_kick B source command [] st = (Raise IndexError, st).
Proof.
  cbn zeta. split; [|split; reflexivity].
  destruct (handle_part_state (_get_UID B st target) "KICK" channel
              [default "" (rest !! 0%nat)] st) as (r & Hrun).
  destruct (rest_part_all (_get_UID B st target) (split "," channel) st)
    as (Hs & Hw & _ & _).
  eexists. rewrite handle_kick_run. cbn zeta. rewrite Hrun.
  split; [reflexivity|].
  split; [apply members_part_all|]. split; [apply source_part_all|].
  split; [intros u Hu; by apply users_part_all|]. done.
Qed.

(** X11. A KILL whose reason starts with a word holding '!' but has no
    bracketed message behind it does not fall back to a default text: the
    handler raises NameError, after the target has been removed. *)
Theorem handle_kill_empty_message (B : Base) (st : Network)
    (source command a0 a1 : string) (rest : list string) first more :
  split1 " " a1 = first :: more ->
  contains "!" first = true ->
  slice_1_last (join " " (tail (split " " a1))) = "" ->
  (forall s, (exists n, get_friendly_name B s source = Ok n)
             \/ get_friendly_name B s source = Raise KeyError) ->
  handle_kill B source command (a0 :: a1 :: rest) st
  = (Raise NameError,
     match users st !! _get_UID B st a0 with
     | Some _ => (_remove_client B (_get_UID B st a0) st).2
     | None => st
     end).
Proof.
  intros Hsp Hbang Hmsg Hname.
  rewrite (handle_kill_run B st source command a0 a1 rest first more Hsp).
  cbn zeta. rewrite Hbang, Hmsg.
  match goal with |- context [get_friendly_name B ?s source] =>
    destruct (Hname s) as [[n ->]| ->] end; reflexivity.
Qed.

Lemma handle_kill_empty_message_witness :
  handle_kill plain_base "1MLAAAAAA" "KILL" ["3BBAAAAAA"; "hidden-1C620195!alice"] demo
  = (Raise NameError,
     match users demo !! _get_UID plain_base demo "3BBAAAAAA" with
     | Some _ => (_remove_client plain_base (_get_UID plain_base demo "3BBAAAAAA") demo).2
     | None => demo
     end).
Proof.
  apply (handle_kill_empty_message plain_base demo "1MLAAAAAA" "KILL" "3BBAAAAAA"
           "hidden-1C620195!alice" [] "hidden-1C620195!alice" []).
  - reflexivity.
  - reflexivity.
  - reflexivity.
  - intros s. cbn. destruct (users s !! "1MLAAAAAA"); eauto.
Defined.

(** *** Inbound handlers and the wire *)

Lemma sent_remove_client B u (l : list string) :
  preserves (fun s => sent s = l) (_remove_client B u).
Proof. by intros s Hs. Qed.

Lemma sent_squit B fuel numeric command args (l : list string) :
  preserves (fun s => sent s = l) (_squit B fuel numeric command args).
Proof.
  apply (squit_preserves B (fun s => sent s = l)).
  - intros u. apply sent_remove_client.
  - by intros s k Hs.
Qed.

Lemma sent_handle_part source command args (l : list string) :
  preserves (fun s => sent s = l) (handle_part source command args).
Proof.
  unfold handle_part. pres.
  - intros s Hs. rewrite part_step_run.
    destruct (rest_part_effect source x s) as (_ & Hw & _).
    destruct (not_on _ _ _); [destruct (list_remove _ _)|]; cbn [snd]; congruence.
  - destruct a0.1; [pres|]. destruct a0.2; pres.
Qed.

(** X12. None of the inbound handlers for PART, KICK, QUIT, SQUIT and KILL
    puts a line on the wire, however it ends. *)
Theorem inbound_sends_nothing (B : Base) (st : Network) (ev : event)
    (source command : string) (args : list string) :
  sent (apply_event B ev st) = sent st
  /\ sent (handle_kill B source command args st).2 = sent st.
Proof.
  split.
  - destruct ev as [s a|s a|s a|s a]; cbn [apply_event].
    + by apply (sent_handle_part s "PART" a (sent st)).
    + assert (Hp : preserves (fun x => sent x = sent st) (handle_kick B s "KICK" a)).
      { unfold handle_kick. pres. apply sent_handle_part. }
      by apply Hp.
    + assert (Hp : preserves (fun x => sent x = sent st) (handle_quit B s "QUIT" a)).
      { unfold handle_quit. pres. apply sent_remove_client. }
      by apply Hp.
    + unfold handle_squit. by apply sent_squit.
  - assert (Hp : preserves (fun x => sent x = sent st) (handle_kill B source command args)).
    { unfold handle_kill. pres.
      - destruct (users a0 !! _); [apply sent_remove_client|pres].
      - destruct (contains _ _); pres.
        + destruct (get_friendly_name B a4 source) as [n|[]|]; pres.
        + destruct (bool_decide _); pres. }
    by apply Hp.
Qed.

(** *** A split that is repeated *)

(** X13. Once the cascade has removed the subtree of [X], a second split of
    [X] finds nothing to do: it returns no hook and leaves the state as it
    is. *)
Theorem squit_repeat_noop (B : Base) (rank : string -> nat) (st : Network)
    (numeric command X : string) (rest : list string) (fuel : nat)
    (numeric' command' : string) (rest' : list string) :
  tree_state rank st ->
  is_Some (servers st !! X) ->
  (forall s, under st X s -> sid st <> Some s /\ uplink st <> Some s) ->
  (rank X < fuel)%nat ->
  let st' := (_squit B fuel numeric command (X :: rest) st).2 in
  handle_squit B numeric' command' (X :: rest') st' = (Ok None, st').
Proof.
  intros Htree HX Hsafe Hfuel.
  assert (Hres : _get_SID st X = X) by (by apply (get_SID_self rank)).
  assert (HtX : is_target st X = false).
  { destruct (Hsafe X (under_self st X HX)) as [H1 H2]. unfold is_target.
    by rewrite !bool_decide_eq_false_2. }
  destruct (squit_cascade B rank fuel st numeric command X rest X Htree Hres HX)
    as (p & st1 & Hrun & _ & _ & Hsrv & _ & Hrem); [|done|].
  { intros s Hs. destruct (Hsafe s Hs) as [H1 H2]. unfold is_target.
    by rewrite !bool_decide_eq_false_2. }
  cbn zeta. rewrite Hrun. cbn [snd].
  assert (HXS : X ∈ (list_to_set (sq_affected_servers p) : gset string)).
  { apply elem_of_list_to_set, Hsrv. by apply under_self. }
  assert (Hgone : forall k d, servers st1 !! k = Some d -> k <> X).
  { intros k d Hk ->. apply (removed_server_Some st st1 _ _ X d Hrem) in Hk as [_ Hk].
    by apply Hk. }
  assert (Hnone : forall k, k = X -> servers st1 !! k = None).
  { intros k ->. destruct (servers st1 !! X) as [d|] eqn:E; [|done].
    by destruct (Hgone X d E). }
  assert (Hres1 : _get_SID st1 X = X).
  { apply (proj2 (proj2 (get_SID_three st1 X))).
    - destruct (servers st1 !! lower X) as [d|] eqn:E; [|done]. exfalso.
      pose proof (removed_server_Some st st1 _ _ _ d Hrem E) as [E0 _].
      apply (Hgone (lower X) d E). apply (tree_keys rank st Htree X HX). eauto.
    - intros k d Hk Hname.
      pose proof (removed_server_Some st st1 _ _ _ d Hrem Hk) as [E0 _].
      apply (Hgone k d Hk). by apply (tree_names rank st Htree X k d). }
  unfold handle_squit. cbn [_squit]. unfold bind at 1. unfold lift at 1.
  change (index (X :: rest') 0) with (Ok X). cbv beta iota.
  unfold bind at 1. cbn [get]. rewrite Hres1.
  destruct Hrem as (_ & _ & _ & _ & Hi & Hl & _).
  assert (Ht1 : is_target st1 X = false) by (unfold is_target in *; by rewrite Hi, Hl).
  rewrite Ht1, (Hnone X eq_refl).
  rewrite bool_decide_eq_false_2 by (by intros [? ?]). reflexivity.
Qed.

Lemma squit_repeat_noop_witness :
  let st' := (_squit plain_base 5 "1ML" "SQUIT" ["2AA"; "bye"] demo).2 in
  handle_squit plain_base "1ML" "SQUIT" ["2AA"; "again"] st' = (Ok None, st').
Proof.
  apply (squit_repeat_noop plain_base demo_rank demo "1ML" "SQUIT" "2AA" ["bye"] 5
           "1ML" "SQUIT" ["again"]).
  - exact tree_demo.
  - eexists. vm_compute. reflexivity.
  - intros s Hs. pose proof (under_rank demo_rank demo "2AA" s tree_demo Hs) as Hr.
    split; intros Heq; injection Heq as <-; vm_compute in Hr; lia.
  - vm_compute. lia.
Defined.

(** *** Outbound calls *)

Lemma consistent_send line : preserves consistent (send line).
Proof. intros st H c u. exact (H c u). Qed.

Lemma consistent_with_channel cname f :
  (forall c, c_users (f c) = c_users c) ->
  preserves consistent (with_channel cname f).
Proof.
  intros Hf st H c u. unfold with_channel. cbn [snd].
  rewrite members_insert, Hf. specialize (H c u). unfold chans_of in *. cbn [users set_channels].
  destruct (decide (c = cname)) as [->|]; exact H.
Qed.

Inductive out_call : Type :=
  | OInvite (source target channel : string)
  | OKick (numeric channel target : string) (reason : option string)
  | ONumeric (source num target text : string)
  | OPart (client channel : string) (reason : option string)
  | OQuit (numeric reason : string)
  | OMessage (numeric target text : string)
  | ONotice (numeric target text : string)
  | OSquit (source target text : string)
  | OTopic (source target text : string).

(** The state an outbound call leaves behind, whether it returned or
    raised. *)
Definition apply_call (B : Base) (c : out_call) (st : Network) : Network :=
  match c with
  | OInvite s t ch => (invite B s t ch st).2
  | OKick n ch t r => (kick B n ch t r st).2
  | ONumeric s n t x => (numeric B s n t x st).2
  | OPart cl ch r => (part B cl ch r st).2
  | OQuit n r => (quit B n r st).2
  | OMessage n t x => (message B n t x st).2
  | ONotice n t x => (notice B n t x st).2
  | OSquit s t x => (squit B s t x st).2
  | OTopic s t x => (topic B s t x st).2
  end.

Lemma consistent_send_with_prefix B source msg :
  preserves consistent (_send_with_prefix B source msg).
Proof. unfold _send_with_prefix. pres. apply consistent_send. Qed.

Lemma consistent_apply_call B c st : consistent st -> consistent (apply_call B c st).
Proof.
  destruct c; cbn [apply_call].
  - assert (Hp : preserves consistent (invite B source target channel)).
    { unfold invite. pres. destruct (negb _); pres. apply consistent_send_with_prefix. }
    apply Hp.
  - assert (Hp : preserves consistent (kick B numeric0 channel target reason)).
    { unfold kick. pres. destruct (_ && _); pres.
      - apply consistent_send_with_prefix.
      - apply consistent_handle_part. }
    apply Hp.
  - assert (Hp : preserves consistent (numeric B source num target text)).
    { unfold numeric. pres. apply consistent_send_with_prefix. }
    apply Hp.
  - assert (Hp : preserves consistent (part B client channel reason)).
    { unfold part. pres. destruct (negb _); pres.
      - apply consistent_send_with_prefix.
      - apply consistent_handle_part. }
    apply Hp.
  - assert (Hp : preserves consistent (quit B numeric0 reason)).
    { unfold quit. pres. destruct (is_internal_client _ _ _); pres.
      - apply consistent_send_with_prefix.
      - apply consistent_remove_client. }
    apply Hp.
  - assert (Hp : preserves consistent (message B numeric0 target text)).
    { unfold message. pres. destruct (negb _); pres. apply consistent_send_with_prefix. }
    apply Hp.
  - assert (Hp : preserves consistent (notice B numeric0 target text)).
    { unfold notice. pres. destruct (_ && _); pres. apply consistent_send_with_prefix. }
    apply Hp.
  - assert (Hp : preserves consistent (squit B source target text)).
    { unfold squit. pres.
      - apply consistent_send_with_prefix.
      - apply consistent_handle_squit. }
    apply Hp.
  - assert (Hp : preserves consistent (topic B source target text)).
    { unfold topic. pres. destruct (_ && _); pres.
      - apply consistent_send_with_prefix.
      - by apply consistent_with_channel.
      - by apply consistent_with_channel. }
    apply Hp.
Qed.

(** X14. Outbound calls keep membership consistent as well: after any
    sequence of invite, kick, numeric, part, quit, message, notice, squit
    and topic calls, accepted or refused, a user is in a channel's member
    set exactly when the channel is in the user's channel set. *)
Theorem outbound_consistent (B : Base) (st : Network) (calls : list out_call) :
  consistent st ->
  consistent (fold_left (fun s c => apply_call B c s) calls st).
Proof.
  revert st. induction calls as [|c calls IH]; intros st H; [exact H|].
  cbn [fold_left]. apply IH. by apply consistent_apply_call.
Qed.

(** Everything is owned: the counterpart of [plain_base] for calls made by
    PyLink's own clients. *)
Definition owner_base : Base :=
  mkBase (fun _ _ => None) (fun _ _ => true) (fun _ _ => true) (fun _ s => s)
         (fun st s => Ok s) (fun _ _ => true).

Lemma outbound_consistent_witness :
  consistent
    (fold_left (fun s c => apply_call owner_base c s)
       [OPart "2AAAAAAAA" "#a" (Some "bye"); OKick "1MLAAAAAA" "#b" "3BBAAAAAA" None;
        OTopic "1MLAAAAAA" "#new" "hello"; OQuit "5DDAAAAAA" "gone";
        OSquit "1ML" "3BB" "split"]
       demo).
Proof. apply (outbound_consistent owner_base demo). exact consistent_demo. Defined.


(** *** What the outbound builders do for an owned sender *)

Lemma send_with_prefix_run B source msg st :
  _send_with_prefix B source msg st
  = (Ok tt, set_sent st (sent st ++ [":" +:+ _expandPUID B st source +:+ " " +:+ msg])).
Proof. reflexivity. Qed.

Lemma members_set_sent st l x : members (set_sent st l) x = members st x.
Proof. reflexivity. Qed.

(** X15. [part] from an owned client always returns: exactly one line goes
    on the wire, "PART <channel>" with " :<reason>" only for a non-empty
    reason, prefixed with the expanded sender.  Locally every channel of
    the comma-separated list has exactly its former members less the
    client, every other channel exactly its former members, the client's
    own record has lost exactly the channels of the list, and no other user
    and no server changes. *)
Theorem part_sends_and_mirrors (B : Base) (st : Network) (client channel : string)
    (reason : option string) :
  is_internal_client B st client = true ->
  exists st',
    part B client channel reason st = (Ok tt, st')
    /\ sent st' = sent st ++
         [":" +:+ _expandPUID B st client +:+ " " +:+
          match reason with
          | Some r => if bool_decide (r = "") then "PART " +:+ channel
                      else ("PART " +:+ channel) +:+ " :" +:+ r
          | None => "PART " +:+ channel
          end]
    /\ (forall x, members st' x
                  = if decide (x ∈ split "," channel) then members st x ∖ {[client]}
                    else members st x)
    /\ users st' !! client
       = (fun u => mkUser (nick u) (channels u ∖ list_to_set (split "," channel)))
           <$> users st !! client
    /\ (forall u, u <> client -> users st' !! u = users st !! u)
    /\ servers st' = servers st.
Proof.
  intros Hown.
  set (msg := match reason with Some r => _ | None => _ end).
  set (st1 := set_sent st (sent st ++ [":" +:+ _expandPUID B st client +:+ " " +:+ msg])).
  destruct (handle_part_state client "PART" channel [] st1) as (r & Hrun).
  destruct (rest_part_all client (split "," channel) st1) as (Hs & Hw & _ & _).
  eexists. unfold part. unfold bind at 1, get. rewrite Hown. cbn [negb].
  fold msg. unfold bind at 1. rewrite send_with_prefix_run. fold st1.
  unfold bind at 1. rewrite Hrun.
  split; [reflexivity|]. split; [by rewrite Hw|].
  split; [intros x; by rewrite members_part_all|].
  split; [by rewrite source_part_all|].
  split; [intros u Hu; by rewrite users_part_all|exact Hs].
Qed.

Lemma part_sends_and_mirrors_witness :
  exists st',
    part owner_base "2AAAAAAAA" "#a,#b" (Some "") demo = (Ok tt, st')
    /\ sent st' = sent demo ++ [":2AAAAAAAA PART #a,#b"]
    /\ (forall x, members st' x
                  = if decide (x ∈ split "," "#a,#b") then members demo x ∖ {["2AAAAAAAA"]}
                    else members demo x)
    /\ users st' !! "2AAAAAAAA"
       = (fun u => mkUser (nick u) (channels u ∖ list_to_set (split "," "#a,#b")))
           <$> users demo !! "2AAAAAAAA"
    /\ (forall u, u <> "2AAAAAAAA" -> users st' !! u = users demo !! u)
    /\ servers st' = servers demo.
Proof.
  exact (part_sends_and_mirrors owner_base demo "2AAAAAAAA" "#a,#b" (Some "") eq_refl).
Defined.

(** X16. [kick] from an owned client or server always returns: one line
    "KICK <channel> <expanded target> :<reason>" goes out, an absent or
    empty reason being replaced by "No reason given".  Locally it is the
    target as given (not expanded, not resolved) that leaves: every channel
    named has exactly its former members less that target, every other
    channel exactly its former members, the target's own record has lost
    exactly the channels named, and no other user and no server changes. *)
Theorem kick_sends_and_mirrors (B : Base) (st : Network)
    (numeric channel target : string) (reason : option string) :
  is_internal_client B st numeric = true \/ is_internal_server B st numeric = true ->
  exists st',
    kick B numeric channel target reason st = (Ok tt, st')
    /\ sent st' = sent st ++
         [":" +:+ _expandPUID B st numeric +:+ " " +:+
          ("KICK " +:+ channel +:+ " " +:+ _expandPUID B st target +:+ " :" +:+
           match reason with
           | Some r => if bool_decide (r = "") then "No reason given" else r
           | None => "No reason given"
           end)]
    /\ (forall x, members st' x
                  = if decide (x ∈ split "," channel) then members st x ∖ {[target]}
                    else members st x)
    /\ users st' !! target
       = (fun u => mkUser (nick u) (channels u ∖ list_to_set (split "," channel)))
           <$> users st !! target
    /\ (forall u, u <> target -> users st' !! u = users st !! u)
    /\ servers st' = servers st.
Proof.
  intros Hown.
  set (why := match reason with Some r => _ | None => _ end).
  set (st1 := set_sent st (sent st ++ [":" +:+ _expandPUID B st numeric +:+ " " +:+
               ("KICK " +:+ channel +:+ " " +:+ _expandPUID B st target +:+ " :" +:+ why)])).
  destruct (handle_part_state target "KICK" channel [] st1) as (r & Hrun).
  destruct (rest_part_all target (split "," channel) st1) as (Hs & Hw & _ & _).
  assert (Hc : negb (is_internal_client B st numeric)
               && negb (is_internal_server B st numeric) = false).
  { destruct Hown as [-> | ->]; [done|]. by rewrite andb_false_r. }
  eexists. unfold kick. unfold bind at 1, get. rewrite Hc.
  fold why. unfold bind at 1. rewrite send_with_prefix_run. fold st1.
  unfold bind at 1. rewrite Hrun.
  split; [reflexivity|]. split; [by rewrite Hw|].
  split; [intros x; by rewrite members_part_all|].
  split; [by rewrite source_part_all|].
  split; [intros u Hu; by rewrite users_part_all|exact Hs].
Qed.

Lemma kick_sends_and_mirrors_witness :
  exists st',
    kick owner_base "1ML" "#a" "2AAAAAAAA" None demo = (Ok tt, st')
    /\ sent st' = sent demo ++ [":1ML KICK #a 2AAAAAAAA :No reason given"]
    /\ (forall x, members st' x
                  = if decide (x ∈ split "," "#a") then members demo x ∖ {["2AAAAAAAA"]}
                    else members demo x)
    /\ users st' !! "2AAAAAAAA"
       = (fun u => mkUser (nick u) (channels u ∖ list_to_set (split "," "#a")))
           <$> users demo !! "2AAAAAAAA"
    /\ (forall u, u <> "2AAAAAAAA" -> users st' !! u = users demo !! u)
    /\ servers st' = servers demo.
Proof.
  exact (kick_sends_and_mirrors owner_base demo "1ML" "#a" "2AAAAAAAA" None
           (or_intror eq_refl)).
Defined.

(** *** Topics *)

Record topic_payload : Type := mkTopic {
  topic_channel : string;
  topic_setter : string;
  topic_text : string;
  topic_oldtopic : string
}.

(** [handle_topic]: the channel is looked up in the channel table (and so
    comes into being when it was not there), its topic replaced and marked
    as set; the hook carries the topic it had before. *)
Definition handle_topic (numeric command : string) (args : list string)
    : M (option topic_payload) :=
  let* channel := lift (index args 0) in
  let* topic := lift (index args 1) in
  let* st := get in
  let oldtopic := c_topic (channel_at st channel) in
  let* _ := with_channel channel (fun c => mkChannel (c_users c) topic (c_topicset c)) in
  let* _ := with_channel channel (fun c => mkChannel (c_users c) (c_topic c) true) in
  ret (Some (mkTopic channel numeric topic oldtopic)).

Lemma channel_at_insert st c c' ch :
  channel_at (set_channels st (<[c := ch]> (_channels st))) c'
  = if decide (c' = c) then ch else channel_at st c'.
Proof.
  unfold channel_at. cbn [_channels set_channels].
  destruct (decide (c' = c)) as [->|Hne].
  - by rewrite lookup_insert_eq.
  - by rewrite lookup_insert_ne.
Qed.

Definition set_topic (channel text : string) (st : Network) : Network :=
  (with_channel channel (fun c => mkChannel (c_users c) (c_topic c) true)
     (with_channel channel (fun c => mkChannel (c_users c) text (c_topicset c)) st).2).2.

Lemma set_topic_at channel text st x :
  channel_at (set_topic channel text st) x
  = if decide (x = channel) then mkChannel (c_users (channel_at st channel)) text true
    else channel_at st x.
Proof.
  unfold set_topic, with_channel. cbn [snd].
  rewrite !channel_at_insert. by destruct (decide (x = channel)); rewrite ?decide_True by done.
Qed.

Lemma set_topic_rest channel text st :
  users (set_topic channel text st) = users st
  /\ servers (set_topic channel text st) = servers st
  /\ sent (set_topic channel text st) = sent st.
Proof. done. Qed.

Lemma handle_topic_run numeric command channel text rest st :
  handle_topic numeric command (channel :: text :: rest) st
  = (Ok (Some (mkTopic channel numeric text (c_topic (channel_at st channel)))),
     set_topic channel text st).
Proof. reflexivity. Qed.

(** X17. [handle_topic] with a channel and a text always returns its hook,
    which carries the topic the channel had before (the empty topic for a
    channel not seen before); afterwards the channel has the new topic,
    marked as set, the same members, and every other channel is as it was.
    The next [handle_topic] on that channel reports this text as the old
    topic.  With fewer than two arguments it raises IndexError and changes
    nothing. *)
Theorem handle_topic_round_trip (st : Network) (n1 c1 n2 c2 channel t1 t2 : string)
    (r1 r2 : list string) :
  (exists st1 st2,
     handle_topic n1 c1 (channel :: t1 :: r1) st
     = (Ok (Some (mkTopic channel n1 t1
                    (match _channels st !! channel with
                     | Some c => c_topic c
                     | None => ""
                     end))), st1)
     /\ channel_at st1 channel = mkChannel (members st channel) t1 true
     /\ (forall x, x <> channel -> channel_at st1 x = channel_at st x)
     /\ users st1 = users st /\ servers st1 = servers st /\ sent st1 = sent st
     /\ handle_topic n2 c2 (channel :: t2 :: r2) st1
        = (Ok (Some (mkTopic channel n2 t2 t1)), st2))
  /\ handle_topic n1 c1 [channel] st = (Raise IndexError, st)
  /\ handle_topic n1 c1 [] st = (Raise IndexError, st).
Proof.
  split; [|split; reflexivity].
  exists (set_topic channel t1 st), (set_topic channel t2 (set_topic channel t1 st)).
  rewrite !handle_topic_run.
  split.
  { unfold channel_at. by destruct (_channels st !! channel). }
  split; [by rewrite set_topic_at, decide_True|].
  split; [intros x Hx; by rewrite set_topic_at, decide_False|].
  split; [done|]. split; [done|]. split; [done|].
  by rewrite set_topic_at, decide_True.
Qed.

(** X18. [topic] from an owned client or server always returns: one line
    "TOPIC <channel> :<text>" goes out and the local record of the channel
    gets that topic, marked as set, with its members unchanged; the topic an
    inbound TOPIC then reports as the old one is this text. *)
Theorem topic_sends_and_records (B : Base) (st : Network)
    (source target text n c t2 : string) (rest : list string) :
  is_internal_client B st source = true \/ is_internal_server B st source = true ->
  exists st' st2,
    topic B source target text st = (Ok tt, st')
    /\ sent st' = sent st ++
         [":" +:+ _expandPUID B st source +:+ " " +:+
          ("TOPIC " +:+ target +:+ " :" +:+ text)]
    /\ channel_at st' target = mkChannel (members st target) text true
    /\ (forall x, x <> target -> channel_at st' x = channel_at st x)
    /\ users st' = users st /\ servers st' = servers st
    /\ handle_topic n c (target :: t2 :: rest) st'
       = (Ok (Some (mkTopic target n t2 text)), st2).
Proof.
  intros Hown.
  assert (Hc : negb (is_internal_client B st source)
               && negb (is_internal_server B st source) = false).
  { destruct Hown as [-> | ->]; [done|]. by rewrite andb_false_r. }
  set (st1 := set_sent st (sent st ++ [":" +:+ _expandPUID B st source +:+ " " +:+
               ("TOPIC " +:+ target +:+ " :" +:+ text)])).
  exists (set_topic target text st1), (set_topic target t2 (set_topic target text st1)).
  rewrite handle_topic_run.
  split.
  { unfold topic. unfold bind at 1, get. rewrite Hc. reflexivity. }
  split; [done|].
  split; [by rewrite set_topic_at, decide_True|].
  split; [intros x Hx; by rewrite set_topic_at, decide_False|].
  split; [done|]. split; [done|].
  by rewrite set_topic_at, decide_True.
Qed.

Lemma topic_sends_and_records_witness :
  exists st' st2,
    topic owner_base "1MLAAAAAA" "#new" "hello" demo = (Ok tt, st')
    /\ sent st' = sent demo ++ [":1MLAAAAAA TOPIC #new :hello"]
    /\ channel_at st' "#new" = mkChannel (members demo "#new") "hello" true
    /\ (forall x, x <> "#new" -> channel_at st' x = channel_at demo x)
    /\ users st' = users demo /\ servers st' = servers demo
    /\ handle_topic "2AAAAAAAA" "TOPIC" ["#new"; "bye"] st'
       = (Ok (Some (mkTopic "#new" "2AAAAAAAA" "bye" "hello")), st2).
Proof.
  exact (topic_sends_and_records owner_base demo "1MLAAAAAA" "#new" "hello"
           "2AAAAAAAA" "TOPIC" "bye" [] (or_introl eq_refl)).
Defined.

End Proto.

(** * The event dispatcher (IRCS2SProtocol.handle_events) *)

Module Events.
Import Py Proto.

(** [s.upper()] on ASCII text. *)
Definition upper_ascii (c : ascii) : ascii :=
  let n := nat_of_ascii c in
  if (97 <=? n)%nat && (n <=? 122)%nat then ascii_of_nat (n - 32) else c.

Fixpoint upper (s : string) : string :=
  match s with
  | EmptyString => EmptyString
  | String c s' => String (upper_ascii c) (upper s')
  end.

(** [s.lstrip(c)] for a one-character set: every leading [c] goes. *)
Fixpoint lstrip (c : ascii) (s : string) : string :=
  match s with
  | EmptyString => EmptyString
  | String d s' => if Ascii.eqb d c then lstrip c s' else s
  end.

Section Dispatch.
Variable B : Base.
(** What a handler returns (a dict in the code). *)
Variable P : Type.
Variable COMMAND_TOKENS : gmap string string.
(** [getattr(self, 'handle_' + x)]: the method of that name if the protocol
    class has one.  The sender a handler receives is [self.uplink] for a
    line without prefix, which may still be None. *)
Variable handlers :
  string -> option (option string -> string -> list string -> M (option P)).
(** [self.is_internal_client(None) or self.is_internal_server(None)] of the
    base class. *)
Variable internal_none : Network -> bool.

(** The sender a line is attributed to, and whether it was put in front of
    the argument list ([args.insert(0, sender)]). *)
Definition sender_of (st : Network) (a0 : string) : option string * bool :=
  let sender := lstrip ":" a0 in
  let sender_sid := _get_SID st sender in
  let sender_uid := _get_UID B st sender in
  if bool_decide (is_Some (servers st !! sender_sid)) then (Some sender_sid, false)
  else if bool_decide (is_Some (users st !! sender_uid)) then (Some sender_uid, false)
  else if negb (startswith ":" a0) then (uplink st, true)
  else (Some sender, false).

Definition routed_wrong (st : Network) (sender : option string) : bool :=
  match sender with
  | Some s => is_internal_client B st s || is_internal_server B st s
  | None => internal_none st
  end.

(** From [raw_command = args[1].upper()] on; [tl] is [args[1:]] (the first
    element of [args] is not read again). *)
Definition dispatch (sender : option string) (tl : list string)
    : M (option (option string * string * P)) :=
  let* raw := lift (index tl 0) in
  let raw_command := upper raw in
  let args := drop 1 tl in
  let command := default raw_command (COMMAND_TOKENS !! raw_command) in
  let* st := get in
  if routed_wrong st sender then ret None
  else
    let* ca := (if bool_decide (command = "ENCAP") then
                  let* c := lift (index args 1) in
                  ret (c, drop 2 args)
                else ret (command, args)) in
    match handlers (lower ca.1) with
    | None => ret None
    | Some func =>
        let* parsed_args := func sender ca.1 ca.2 in
        match parsed_args with
        | Some p => ret (Some (sender, ca.1, p))
        | None => ret None
        end
    end.

Definition handle_events (data : string)
    : M (option (option string * string * P)) :=
  let data := split " " data in
  let args := Args.parse_args (Args.ArgList data) in
  let* a0 := lift (index args 0) in
  let* st := get in
  let '(sender, inserted) := sender_of st a0 in
  dispatch sender (if inserted then args else drop 1 args).

(** *** Properties *)

Lemma parse_args_loop_pos i j l :
  Args.parse_args_loop (S i) l = Args.parse_args_loop (S j) l.
Proof.
  revert i j. induction l as [|a l IH]; intros i j; [reflexivity|].
  cbn [Args.parse_args_loop]. cbn [Nat.eqb negb]. rewrite !andb_true_r.
  destruct (startswith ":" a); [reflexivity|]. f_equal. apply IH.
Qed.

Lemma parse_args_first a l :
  Args.parse_args (Args.ArgList (a :: l)) = a :: Args.parse_args_loop 1 l.
Proof.
  unfold Args.parse_args. cbn [Args.parse_args_loop Nat.eqb negb].
  by rewrite andb_false_r.
Qed.

Lemma parse_args_loop_plain_cons i a l :
  startswith ":" a = false ->
  Args.parse_args_loop i (a :: l) = a :: Args.parse_args_loop (S i) l.
Proof. intros H. cbn [Args.parse_args_loop]. by rewrite H. Qed.

Lemma lstrip_id c s : startswith c s = false -> lstrip c s = s.
Proof. destruct s as [|d s]; [done|]. cbn. by intros ->. Qed.

Lemma dispatch_run sender raw args st :
  dispatch sender (raw :: args) st
  = let command := default (upper raw) (COMMAND_TOKENS !! upper raw) in
    if routed_wrong st sender then (Ok None, st)
    else
      (let* ca := (if bool_decide (command = "ENCAP") then
                     let* c := lift (index args 1) in
                     ret (c, drop 2 args)
                   else ret (command, args)) in
       match handlers (lower ca.1) with
       | None => ret None
       | Some func =>
           let* parsed_args := func sender ca.1 ca.2 in
           match parsed_args with
           | Some p => ret (Some (sender, ca.1, p))
           | None => ret None
           end
       end) st.
Proof.
  unfold dispatch. unfold bind at 1, lift at 1.
  change (index (raw :: args) 0) with (Ok raw). cbv beta iota.
  unfold bind at 1, get. cbn zeta. by destruct (routed_wrong st sender).
Qed.

Lemma handle_events_run data a0 ws st :
  split " " data = a0 :: ws ->
  handle_events data st
  = dispatch (sender_of st a0).1
      (if (sender_of st a0).2 then a0 :: Args.parse_args_loop 1 ws
       else Args.parse_args_loop 1 ws) st.
Proof.
  intros Hsp. unfold handle_events. rewrite Hsp, parse_args_first.
  unfold bind at 1, lift at 1. change (index (a0 :: _) 0) with (Ok a0). cbv beta iota.
  unfold bind at 1, get. by destruct (sender_of st a0) as [s [|]].
Qed.

Lemma split_colon data a0 ws :
  split " " data = a0 :: ws ->
  split " " (String ":" data) = String ":" a0 :: ws.
Proof. intros H. rewrite Args.split_cons_other by reflexivity. by rewrite H. Qed.

(** X19. A first word that resolves to a known server or user is the sender
    whether or not the line has the ':' prefix: the line with a ':' put in
    front is handled exactly as the line itself.  (So a line without prefix
    whose command word happens to be the name of a server or the nick of a
    user is read as coming from it, with its next word as the command.) *)
Theorem known_sender_prefix_optional (data a0 : string) (ws : list string)
    (st : Network) :
  split " " data = a0 :: ws ->
  is_Some (servers st !! _get_SID st (lstrip ":" a0))
  \/ is_Some (users st !! _get_UID B st (lstrip ":" a0)) ->
  handle_events (":" +:+ data) st = handle_events data st
  /\ (sender_of st a0).2 = false
  /\ ((sender_of st a0).1 = Some (_get_SID st (lstrip ":" a0))
      \/ (sender_of st a0).1 = Some (_get_UID B st (lstrip ":" a0))).
Proof.
  intros Hsp Hknown.
  assert (Hs : sender_of st (String ":" a0) = sender_of st a0
               /\ (sender_of st a0).2 = false
               /\ ((sender_of st a0).1 = Some (_get_SID st (lstrip ":" a0))
                   \/ (sender_of st a0).1 = Some (_get_UID B st (lstrip ":" a0)))).
  { unfold sender_of. change (lstrip ":" (String ":" a0)) with (lstrip ":" a0).
    destruct (bool_decide (is_Some (servers st !! _))) eqn:E1; [by auto|].
    destruct (bool_decide (is_Some (users st !! _))) eqn:E2; [by auto|].
    apply bool_decide_eq_false in E1, E2. by destruct Hknown. }
  destruct Hs as (Hs & Hins & Hwho). split; [|by split].
  rewrite (handle_events_run data a0 ws st Hsp).
  change (":" +:+ data) with (String ":" data).
  rewrite (handle_events_run _ _ ws st (split_colon data a0 ws Hsp)).
  rewrite Hs, Hins. reflexivity.
Qed.

(** X20. A line without prefix whose first word names no known server or
    user is handled as coming from the uplink: exactly as the same line with
    ":<uplink> " put in front, when the uplink is a known server. *)
Theorem prefixless_is_from_uplink (data w u : string) (ws : list string)
    (st : Network) :
  uplink st = Some u ->
  is_Some (servers st !! u) ->
  _get_SID st u = u ->
  contains " " u = false ->
  startswith ":" u = false ->
  split " " data = w :: ws ->
  startswith ":" w = false ->
  servers st !! _get_SID st w = None ->
  users st !! _get_UID B st w = None ->
  handle_events (":" +:+ u +:+ " " +:+ data) st = handle_events data st
  /\ sender_of st w = (Some u, true).
Proof.
  intros Hup Hu Hsid Hsp Hcol Hdata Hw Hns Hnu.
  assert (Hright : sender_of st w = (Some u, true)).
  { unfold sender_of. rewrite (lstrip_id _ _ Hw), Hns, Hnu, Hw, Hup.
    rewrite !bool_decide_eq_false_2 by (by intros [? ?]). reflexivity. }
  split; [|exact Hright].
  assert (Hleft : sender_of st (String ":" u) = (Some u, false)).
  { unfold sender_of. change (lstrip ":" (String ":" u)) with (lstrip ":" u).
    rewrite (lstrip_id _ _ Hcol), Hsid. by rewrite bool_decide_eq_true_2. }
  rewrite (handle_events_run data w ws st Hdata), Hright. cbn [fst snd].
  assert (Hsplit : split " " (":" +:+ u +:+ " " +:+ data) = String ":" u :: w :: ws).
  { change (":" +:+ u +:+ " " +:+ data) with (String ":" u ++ String " " data)%string.
    rewrite Args.split_app_sep by exact Hsp. by rewrite Hdata. }
  rewrite (handle_events_run _ _ _ st Hsplit), Hleft. cbn [fst snd].
  rewrite (parse_args_loop_plain_cons 1 w ws Hw).
  by rewrite (parse_args_loop_pos 1 0 ws).
Qed.

(** The text after the command word: nothing, or a space and the rest. *)
Definition after (rest : option string) : string :=
  match rest with
  | Some r => " " +:+ r
  | None => ""
  end.

Lemma append_empty_r (w : string) : w +:+ "" = w.
Proof.
  induction w as [|c w IH]; [reflexivity|].
  change (String c w +:+ "") with (String c (w +:+ "")). by rewrite IH.
Qed.

Lemma split_word_after w rest :
  contains " " w = false ->
  split " " (w +:+ after rest)
  = w :: match rest with Some r => split " " r | None => [] end.
Proof.
  intros Hw. destruct rest as [r|]; cbn [after].
  - change (w +:+ " " +:+ r) with (w ++ String " " r)%string.
    by rewrite Args.split_app_sep.
  - rewrite append_empty_r. by apply split_no_sep.
Qed.

(** X21. An encapsulated command is unwrapped: ":<sender> ENCAP <target>
    <CMD> ..." is handled exactly as ":<sender> <CMD> ...", for a command
    word in upper case that is no token and not ENCAP itself (ENCAP not
    being a token either); the target of the ENCAP is not looked at. *)
Theorem encap_unwrapped (pfx tgt cmd : string) (rest : option string) (st : Network) :
  startswith ":" pfx = true ->
  contains " " pfx = false ->
  contains " " tgt = false -> startswith ":" tgt = false ->
  contains " " cmd = false -> startswith ":" cmd = false ->
  upper cmd = cmd ->
  cmd <> "ENCAP" ->
  COMMAND_TOKENS !! "ENCAP" = None ->
  COMMAND_TOKENS !! cmd = None ->
  handle_events (pfx +:+ " ENCAP " +:+ tgt +:+ " " +:+ cmd +:+ after rest) st
  = handle_events (pfx +:+ " " +:+ cmd +:+ after rest) st.
Proof.
  intros Hp Hps Hts Htc Hcs Hcc Hup Hne Htok Hcmd.
  set (ws := match rest with Some r => split " " r | None => [] end).
  assert (H1 : split " " (pfx +:+ " ENCAP " +:+ tgt +:+ " " +:+ cmd +:+ after rest)
               = pfx :: "ENCAP" :: tgt :: cmd :: ws).
  { change (pfx +:+ " ENCAP " +:+ tgt +:+ " " +:+ cmd +:+ after rest)
      with (pfx ++ String " " ("ENCAP" ++ String " " (tgt ++ String " " (cmd +:+ after rest))))%string.
    rewrite !Args.split_app_sep by done. by rewrite split_word_after. }
  assert (H2 : split " " (pfx +:+ " " +:+ cmd +:+ after rest) = pfx :: cmd :: ws).
  { change (pfx +:+ " " +:+ cmd +:+ after rest)
      with (pfx ++ String " " (cmd +:+ after rest))%string.
    rewrite Args.split_app_sep by done. by rewrite split_word_after. }
  assert (Hs : (sender_of st pfx).2 = false).
  { unfold sender_of. rewrite Hp. by repeat destruct (bool_decide _). }
  rewrite (handle_events_run _ _ _ st H1), (handle_events_run _ _ _ st H2), Hs.
  rewrite (parse_args_loop_plain_cons 1 "ENCAP" _ eq_refl).
  rewrite (parse_args_loop_plain_cons 2 tgt _ Htc).
  rewrite (parse_args_loop_plain_cons 3 cmd _ Hcc).
  rewrite (parse_args_loop_plain_cons 1 cmd _ Hcc).
  rewrite (parse_args_loop_pos 3 1 ws).
  rewrite !dispatch_run. cbn zeta.
  change (upper "ENCAP") with "ENCAP". rewrite Hup, Htok, Hcmd. cbn [default].
  destruct (routed_wrong st (sender_of st pfx).1); [reflexivity|].
  rewrite (bool_decide_eq_true_2 ("ENCAP" = "ENCAP")) by done.
  rewrite (bool_decide_eq_false_2 (cmd = "ENCAP")) by done.
  reflexivity.
Qed.

End Dispatch.

(** An example table: PART alone, handled for a sender that is known. *)
Definition part_only (n : string)
    : option (option string -> string -> list string -> M (option part_payload)) :=
  if bool_decide (n = "part") then
    Some (fun s c a => match s with
                       | Some s => handle_part s c a
                       | None => raise TypeError
                       end)
  else None.

Definition no_tokens : gmap string string := ∅.

Example handle_events_part :
  handle_events plain_base part_payload no_tokens part_only (fun _ => false)
    ":2AAAAAAAA PART #a,#b :bye now" demo
  = (Ok (Some (Some "2AAAAAAAA", "PART", mkPart ["#a"; "#b"] "bye now")),
     (handle_part "2AAAAAAAA" "PART" ["#a,#b"; "bye now"] demo).2).
Proof. vm_compute. reflexivity. Qed.

Lemma known_sender_prefix_optional_witness :
  handle_events plain_base part_payload no_tokens part_only (fun _ => false)
    (":" +:+ "2AAAAAAAA PART #a") demo
  = handle_events plain_base part_payload no_tokens part_only (fun _ => false)
      "2AAAAAAAA PART #a" demo
  /\ (sender_of plain_base demo "2AAAAAAAA").2 = false
  /\ ((sender_of plain_base demo "2AAAAAAAA").1
      = Some (_get_SID demo (lstrip ":" "2AAAAAAAA"))
      \/ (sender_of plain_base demo "2AAAAAAAA").1
         = Some (_get_UID plain_base demo (lstrip ":" "2AAAAAAAA"))).
Proof.
  apply (known_sender_prefix_optional plain_base part_payload no_tokens part_only
           (fun _ => false) "2AAAAAAAA PART #a" "2AAAAAAAA" ["PART"; "#a"] demo).
  - reflexivity.
  - right. eexists. vm_compute. reflexivity.
Defined.

Lemma prefixless_is_from_uplink_witness :
  handle_events plain_base part_payload no_tokens part_only (fun _ => false)
    (":" +:+ "1ML" +:+ " " +:+ "PART #a") demo
  = handle_events plain_base part_payload no_tokens part_only (fun _ => false)
      "PART #a" demo
  /\ sender_of plain_base demo "PART" = (Some "1ML", true).
Proof.
  apply (prefixless_is_from_uplink plain_base part_payload no_tokens part_only
           (fun _ => false) "PART #a" "PART" "1ML" ["#a"] demo).
  - reflexivity.
  - eexists. vm_compute. reflexivity.
  - vm_compute. reflexivity.
  - reflexivity.
  - reflexivity.
  - reflexivity.
  - reflexivity.
  - vm_compute. reflexivity.
  - vm_compute. reflexivity.
Defined.

Lemma encap_unwrapped_witness :
  handle_events plain_base part_payload no_tokens part_only (fun _ => false)
    (":2AAAAAAAA" +:+ " ENCAP " +:+ "*" +:+ " " +:+ "PART" +:+ after (Some "#a :bye")) demo
  = handle_events plain_base part_payload no_tokens part_only (fun _ => false)
      (":2AAAAAAAA" +:+ " " +:+ "PART" +:+ after (Some "#a :bye")) demo.
Proof.
  apply (encap_unwrapped plain_base part_payload no_tokens part_only (fun _ => false)
           ":2AAAAAAAA" "*" "PART" (Some "#a :bye") demo).
  - reflexivity.
  - reflexivity.
  - reflexivity.
  - reflexivity.
  - reflexivity.
  - reflexivity.
  - reflexivity.
  - discriminate.
  - reflexivity.
  - reflexivity.
Defined.

End Events.

(** ** The remote command (plugins/networks.py) *)

Module Networks.
Import Py.

(** [irc.pseudoclient]. *)
Record Pseudo : Type := mkPseudo {
  pc_uid : string;
  pc_account : string
}.

(** Where [irc.reply()] of a network currently delivers. *)
Inductive reply_route : Type :=
  | ReplyOwn
  | ReplyTo (origin : string).

(** The parts of a network object the command reads or writes. *)
Record NetObj : Type := mkNet {
  connected : bool;
  pseudoclient : option Pseudo;
  called_in : option string;
  called_by : option string;
  _reply : reply_route;
  accounts : gmap string string   (* [irc.users[uid].account] *)
}.

Record Service : Type := mkService {
  uids : gmap string string
}.

(** The process: the module-level flag, [world.networkobjects],
    [world.services], and the error texts handed to callers through
    [irc.error()], each with the network it was given on. *)
Record World : Type := mkWorld {
  REMOTE_IN_USE : bool;
  networkobjects : gmap string NetObj;
  services : gmap string Service;
  errors : list (string * string)
}.

Definition set_flag (b : bool) (w : World) : World :=
  mkWorld b (networkobjects w) (services w) (errors w).

Definition set_net (k : string) (n : NetObj) (w : World) : World :=
  mkWorld (REMOTE_IN_USE w) (<[k := n]> (networkobjects w)) (services w) (errors w).

(** [irc.error(text)]. *)
Definition irc_error (irc text : string) (w : World) : World :=
  mkWorld (REMOTE_IN_USE w) (networkobjects w) (services w) (errors w ++ [(irc, text)]).

(** Result of [remote_parser.parse_args]. *)
Record parsed : Type := mkParsed {
  service : string;
  network : string;
  command : list string
}.

(** ['%r' % s] for a plain string. *)
Definition repr (s : string) : string := "'" +:+ s +:+ "'".

Section Remote.
(** Collaborators outside this module: the argument parser built from
    [utils.IRCParser], [permissions.check_permissions] (its exception when
    access is denied, or nothing), and [call_cmd] of a service. *)
Variable parse_args : list string -> outcome parsed.
Variable check_permissions : World -> string -> string -> list string -> option exn.
Variable call_cmd : string -> string -> string -> string -> World -> outcome unit * World.

Definition remote_perms (a : parsed) : list string :=
  ["networks.remote";
   "networks.remote." +:+ network a;
   "networks.remote." +:+ network a +:+ "." +:+ service a;
   "networks.remote." +:+ network a +:+ "." +:+ service a +:+ "."
     +:+ default "" (head (command a))].

(** The [try ... finally] around the remote call: restore the reply
    route, blank the pseudoclient account if the network is still there
    (a failure there is only logged), clear the flag; an exception of the
    call is raised again afterwards. *)
Definition remote_call (irc netname : string) (a : parsed) (remoteirc : NetObj)
    (uid : string) (old_reply : reply_route) (w : World) : outcome unit * World :=
  let w1 := set_net netname
              (mkNet (connected remoteirc) (pseudoclient remoteirc) (called_in remoteirc)
                     (called_by remoteirc) (ReplyTo irc) (accounts remoteirc)) w in
  let '(r, w2) := call_cmd (service a) netname uid (join " " (command a)) w1 in
  let w3 := match networkobjects w2 !! netname with
            | Some n =>
                set_net netname
                  (mkNet (connected n)
                         (match pseudoclient n with
                          | Some pc => Some (mkPseudo (pc_uid pc) "")
                          | None => None
                          end)
                         (called_in n) (called_by n) old_reply (accounts n)) w2
            | None => w2
            end in
  (r, set_flag false w3).

Definition remote (irc source : string) (args : list string) (w : World)
    : outcome unit * World :=
  match parse_args args with
  | Raise e => (Raise e, w)
  | OutOfFuel => (OutOfFuel, w)
  | Ok a =>
      match command a with
      | [] => (Ok tt, irc_error irc "No command given!" w)
      | _ :: _ =>
          let netname := network a in
          match check_permissions w irc source (remote_perms a) with
          | Some e => (Raise e, w)
          | None =>
              if REMOTE_IN_USE w then
                (Ok tt, irc_error irc "The 'remote' command can not be nested." w)
              else
                let w := set_flag true w in
                if bool_decide (netname = irc) then
                  (Ok tt,
                   set_flag false
                     (irc_error irc
                        "Cannot remote-send a command to the local network; use a normal command!"
                        w))
                else
                  match networkobjects w !! netname with
                  | None =>
                      (Ok tt,
                       set_flag false
                         (irc_error irc
                            ("No such network " +:+ repr netname +:+ " (case sensitive).") w))
                  | Some remoteirc =>
                      match services w !! service a with
                      | None =>
                          (Ok tt,
                           set_flag false
                             (irc_error irc ("Unknown service " +:+ repr (service a) +:+ ".") w))
                      | Some svc =>
                          if negb (connected remoteirc) then
                            (Ok tt,
                             set_flag false
                               (irc_error irc
                                  ("Network " +:+ repr netname +:+ " is not connected.") w))
                          else
                            match uids svc !! netname with
                            | None | Some "" =>
                                (Ok tt,
                                 set_flag false
                                   (irc_error irc
                                      ("The requested service " +:+ repr (service a)
                                         +:+ " is not available on " +:+ repr netname +:+ ".")
                                      w))
                            | Some _ =>
                                (* called_in / called_by / account override; any
                                   failure clears the flag and is raised again *)
                                match pseudoclient remoteirc with
                                | None => (Raise (OtherError "AttributeError"), set_flag false w)
                                | Some pc =>
                                    let r1 := mkNet (connected remoteirc) (pseudoclient remoteirc)
                                                    (Some (pc_uid pc)) (Some (pc_uid pc))
                                                    (_reply remoteirc) (accounts remoteirc) in
                                    let w1 := set_net netname r1 w in
                                    match networkobjects w1 !! irc with
                                    | None => (Raise (OtherError "AttributeError"), set_flag false w1)
                                    | Some origin =>
                                        match accounts origin !! source with
                                        | None => (Raise KeyError, set_flag false w1)
                                        | Some acct =>
                                            let r2 := mkNet (connected r1)
                                                        (Some (mkPseudo (pc_uid pc) acct))
                                                        (called_in r1) (called_by r1)
                                                        (_reply r1) (accounts r1) in
                                            remote_call irc netname a r2 (pc_uid pc)
                                                        (_reply remoteirc)
                                                        (set_net netname r2 w1)
                                        end
                                    end
                                end
                            end
                      end
                  end
          end
      end
  end.

End Remote.

Definition local_network_error : string :=
  "Cannot remote-send a command to the local network; use a normal command!".

(** C9 (as the code has it). When the arguments parse with a command, the
    permission check passes and no remote command is in flight, a request
    whose target network is the origin network returns normally with the
    "local network" error given to the caller; nothing else in the process
    changes, so no command ran, and the in-use flag is clear on return. *)
Theorem remote_local_network_rejected
    (parse_args : list string -> outcome parsed)
    (check_permissions : World -> string -> string -> list string -> option exn)
    (call_cmd : string -> string -> string -> string -> World -> outcome unit * World)
    (irc source : string) (args : list string) (w : World) (a : parsed) :
  parse_args args = Ok a ->
  command a <> [] ->
  check_permissions w irc source (remote_perms a) = None ->
  REMOTE_IN_USE w = false ->
  network a = irc ->
  let r := remote parse_args check_permissions call_cmd irc source args w in
  r = (Ok tt, irc_error irc local_network_error w)
  /\ REMOTE_IN_USE r.2 = false
  /\ networkobjects r.2 = networkobjects w
  /\ services r.2 = services w
  /\ errors r.2 = errors w ++ [(irc, local_network_error)].
Proof.
  intros Hparse Hcmd Hperm Hflag Hnet. cbn zeta.
  assert (Hrun : remote parse_args check_permissions call_cmd irc source args w
                 = (Ok tt, irc_error irc local_network_error w)).
  { unfold remote. rewrite Hparse. destruct (command a) as [|c cs] eqn:Hc; [done|].
    rewrite Hperm, Hflag. rewrite bool_decide_eq_true_2 by done.
    destruct w as [f n sv e]. cbn in Hflag. subst f. reflexivity. }
  rewrite Hrun. cbn. by rewrite Hflag.
Qed.

(** Stand-ins for the collaborators: first word the network, the rest the
    command; everybody is allowed; commands do nothing. *)
Definition parse_plain (args : list string) : outcome parsed :=
  match args with
  | [] => Raise (OtherError "InvalidArgumentsError")
  | n :: c => Ok (mkParsed "pylink" n c)
  end.

Definition allow_all (w : World) (irc source : string) (perms : list string)
    : option exn := None.

Definition call_nothing (svc netname uid text : string) (w : World)
    : outcome unit * World := (Ok tt, w).

Definition idle_world : World := mkWorld false ∅ ∅ [].
Definition busy_world : World := mkWorld true ∅ ∅ [].

Lemma remote_local_network_rejected_witness :
  let r := remote parse_plain allow_all call_nothing "net1" "uid1"
                  ["net1"; "echo"; "hi"] idle_world in
  r = (Ok tt, irc_error "net1" local_network_error idle_world)
  /\ REMOTE_IN_USE r.2 = false
  /\ networkobjects r.2 = networkobjects idle_world
  /\ services r.2 = services idle_world
  /\ errors r.2 = errors idle_world ++ [("net1", local_network_error)].
Proof.
  apply (remote_local_network_rejected parse_plain allow_all call_nothing
           "net1" "uid1" ["net1"; "echo"; "hi"] idle_world
           (mkParsed "pylink" "net1" ["echo"; "hi"])).
  - reflexivity.
  - discriminate.
  - reflexivity.
  - reflexivity.
  - reflexivity.
Defined.

(** While another remote command is in flight, the same self-targeted
    request is answered with the nesting error instead, and the flag is
    still set when the invocation returns. *)
Lemma remote_local_network_while_busy :
  let r := remote parse_plain allow_all call_nothing "net1" "uid1"
                  ["net1"; "echo"; "hi"] busy_world in
  r.1 = Ok tt
  /\ errors r.2 = [("net1", "The 'remote' command can not be nested.")]
  /\ REMOTE_IN_USE r.2 = true.
Proof. cbn. repeat split. Qed.

(** Without a command the caller is told so; the target is not looked at. *)
Example remote_no_command :
  remote parse_plain allow_all call_nothing "net1" "uid1" ["net1"] idle_world
  = (Ok tt, irc_error "net1" "No command given!" idle_world).
Proof. reflexivity. Qed.

(** *** The in-use flag *)

(** X22. [remote] hands the in-use flag back as it found it, on every path
    and whatever the parser, the permission check and the remote command
    do: clear at entry, it is clear again on return, also when the remote
    command raised; set at entry (another remote command is in flight), it
    stays set, and then neither a network object nor the services are
    touched. *)
Theorem remote_restores_flag
    (parse_args : list string -> outcome parsed)
    (check_permissions : World -> string -> string -> list string -> option exn)
    (call_cmd : string -> string -> string -> string -> World -> outcome unit * World)
    (irc source : string) (args : list string) (w : World) :
  let r := remote parse_args check_permissions call_cmd irc source args w in
  REMOTE_IN_USE r.2 = REMOTE_IN_USE w
  /\ (REMOTE_IN_USE w = true ->
      networkobjects r.2 = networkobjects w /\ services r.2 = services w).
Proof.
  cbn zeta. unfold remote.
  destruct (parse_args args) as [a|e|]; [|by split..].
  destruct (command a) as [|c cs]; [by split|].
  destruct (check_permissions w irc source (remote_perms a)); [by split|].
  destruct (REMOTE_IN_USE w) eqn:Hflag; [by split|].
  split; [|discriminate].
  destruct (bool_decide (network a = irc)); [reflexivity|].
  cbn [networkobjects set_flag services].
  destruct (networkobjects w !! network a) as [remoteirc|]; [|reflexivity].
  destruct (services w !! service a) as [svc|]; [|reflexivity].
  destruct (negb (connected remoteirc)); [reflexivity|].
  destruct (uids svc !! network a) as [[|ch u]|]; [reflexivity| |reflexivity].
  destruct (pseudoclient remoteirc) as [pc|]; [|reflexivity].
  match goal with |- context [match ?x !! irc with _ => _ end] =>
    destruct (x !! irc) as [origin|] end; [|reflexivity].
  destruct (accounts origin !! source) as [acct|]; [|reflexivity].
  unfold remote_call.
  match goal with |- context [call_cmd ?a1 ?a2 ?a3 ?a4 ?a5] =>
    destruct (call_cmd a1 a2 a3 a4 a5) as [r w2] end.
  reflexivity.
Qed.

Lemma remote_restores_flag_witness :
  let r := remote parse_plain allow_all call_nothing "net1" "uid1"
                  ["net2"; "echo"; "hi"] busy_world in
  REMOTE_IN_USE r.2 = REMOTE_IN_USE busy_world
  /\ (REMOTE_IN_USE busy_world = true ->
      networkobjects r.2 = networkobjects busy_world
      /\ services r.2 = services busy_world).
Proof.
  exact (remote_restores_flag parse_plain allow_all call_nothing "net1" "uid1"
           ["net2"; "echo"; "hi"] busy_world).
Defined.

(** *** autoconnect *)

(** What the command reads and writes: for every network object the
    'autoconnect' entry of its [serverdata] (if it has one), and the texts
    given to the caller through [irc.error()] and [irc.reply()]. *)
Record AutoWorld (F : Type) : Type := mkAuto {
  serverdata_autoconnect : gmap string (option F);
  auto_errors : list string;
  auto_replies : list string
}.
Arguments mkAuto {F} _ _ _.
Arguments serverdata_autoconnect {F} _.
Arguments auto_errors {F} _.
Arguments auto_replies {F} _.

Definition dquote : string := String (ascii_of_nat 34) EmptyString.

Section Autoconnect.
(** Floats, and [float(s)] on a string ([None]: ValueError). *)
Variable F : Type.
Variable float : string -> option F.
Variable check_permissions : string -> string -> list string -> option exn.

Definition auto_error (text : string) (w : AutoWorld F) : AutoWorld F :=
  mkAuto (serverdata_autoconnect w) (auto_errors w ++ [text]) (auto_replies w).

Definition not_enough : string :=
  "Not enough arguments (needs 2: network name (case sensitive), autoconnect time (in seconds)).".

Definition autoconnect (irc source : string) (args : list string) (w : AutoWorld F)
    : outcome unit * AutoWorld F :=
  match check_permissions irc source ["networks.autoconnect"] with
  | Some e => (Raise e, w)
  | None =>
      match args !! 0%nat with
      | None => (Ok tt, auto_error not_enough w)
      | Some netname =>
          match args !! 1%nat with
          | None => (Ok tt, auto_error not_enough w)
          | Some a1 =>
              match float a1 with
              | None =>
                  (* the ValueError handler formats [seconds], which was
                     never bound: UnboundLocalError, a NameError *)
                  (Raise NameError, w)
              | Some seconds =>
                  match serverdata_autoconnect w !! netname with
                  | None =>
                      (Ok tt,
                       auto_error ("No such network " +:+ dquote +:+ netname +:+ dquote
                                     +:+ " (case sensitive).") w)
                  | Some _ =>
                      (Ok tt,
                       mkAuto (<[netname := Some seconds]> (serverdata_autoconnect w))
                              (auto_errors w) (auto_replies w ++ ["Done."]))
                  end
              end
          end
      end
  end.

End Autoconnect.

(** X23. [autoconnect] either answers "Done." once, having set the entry of
    the network named by its first argument (a network that exists) to the
    value of its second, or it leaves every network's entry as it was and
    answers nothing.  An invalid <seconds> is never reported to the caller:
    with two arguments of which the second is no number the command raises
    NameError, nothing said and nothing changed, whether or not the network
    exists. *)
Theorem autoconnect_effect (F : Type) (float : string -> option F)
    (check_permissions : string -> string -> list string -> option exn)
    (irc source : string) (args : list string) (w : AutoWorld F) :
  let r := autoconnect F float check_permissions irc source args w in
  ((exists netname a1 seconds,
      args !! 0%nat = Some netname /\ args !! 1%nat = Some a1
      /\ float a1 = Some seconds
      /\ is_Some (serverdata_autoconnect w !! netname)
      /\ r = (Ok tt, mkAuto (<[netname := Some seconds]> (serverdata_autoconnect w))
                            (auto_errors w) (auto_replies w ++ ["Done."])))
   \/ (serverdata_autoconnect r.2 = serverdata_autoconnect w
       /\ auto_replies r.2 = auto_replies w))
  /\ (check_permissions irc source ["networks.autoconnect"] = None ->
      forall a1, args !! 1%nat = Some a1 -> float a1 = None ->
      r = (Raise NameError, w)).
Proof.
  cbn zeta. unfold autoconnect. split.
  - destruct (check_permissions _ _ _); [by right|].
    destruct (args !! 0%nat) as [netname|] eqn:E0; [|by right].
    destruct (args !! 1%nat) as [a1|] eqn:E1; [|by right].
    destruct (float a1) as [seconds|] eqn:Ef; [|by right].
    destruct (serverdata_autoconnect w !! netname) as [old|] eqn:En; [|by right].
    left. exists netname, a1, seconds. by eauto 10.
  - intros -> a1 E1 Ef.
    destruct (args !! 0%nat) as [netname|] eqn:E0.
    + by rewrite E1, Ef.
    + destruct args; discriminate.
Qed.

(** An example float parser: whole numbers of seconds. *)
Definition whole_seconds (s : string) : option nat :=
  if bool_decide (s = "10") then Some 10%nat
  else if bool_decide (s = "0") then Some 0%nat
  else None.

Lemma autoconnect_effect_witness :
  let w := mkAuto (<["net2" := None]> ∅) [] [] in
  let r := autoconnect nat whole_seconds (fun _ _ _ => None) "net1" "uid1"
             ["net2"; "soon"] w in
  ((exists netname a1 seconds,
      ["net2"; "soon"] !! 0%nat = Some netname /\ ["net2"; "soon"] !! 1%nat = Some a1
      /\ whole_seconds a1 = Some seconds
      /\ is_Some (serverdata_autoconnect w !! netname)
      /\ r = (Ok tt, mkAuto (<[netname := Some seconds]> (serverdata_autoconnect w))
                            (auto_errors w) (auto_replies w ++ ["Done."])))
   \/ (serverdata_autoconnect r.2 = serverdata_autoconnect w
       /\ auto_replies r.2 = auto_replies w))
  /\ ((fun _ _ _ => None) "net1" "uid1" ["networks.autoconnect"] = @None exn ->
      forall a1, ["net2"; "soon"] !! 1%nat = Some a1 -> whole_seconds a1 = None ->
      r = (Raise NameError, w)).
Proof.
  exact (autoconnect_effect nat whole_seconds (fun _ _ _ => None) "net1" "uid1"
           ["net2"; "soon"] (mkAuto (<["net2" := None]> ∅) [] [])).
Defined.

Example autoconnect_bad_seconds :
  autoconnect nat whole_seconds (fun _ _ _ => None) "net1" "uid1" ["net2"; "soon"]
    (mkAuto (<["net2" := None]> ∅) [] [])
  = (Raise NameError, mkAuto (<["net2" := None]> ∅) [] []).
Proof. reflexivity. Qed.

End Networks.

(** ** Capability parsing (parse_isupport, parse_isupport_prefixes) *)

Module Caps.
Import Py.

(** [key, value = cap.split('=', 1)], with the ValueError of a token that
    has no '=' caught: the token is the key and the value is [fallback]. *)
Definition parse_token (fallback cap : string) : string * string :=
  match split1 "=" cap with
  | [key; value] => (key, value)
  | _ => (cap, fallback)
  end.

(** [parse_isupport(args, fallback)] on a list of tokens; a [str] is split
    on single spaces first. *)
Definition parse_isupport_list (args : list string) (fallback : string)
    : gmap string string :=
  fold_left (fun caps cap => <[(parse_token fallback cap).1 := (parse_token fallback cap).2]> caps)
            args ∅.

Definition parse_isupport (args : Args.raw_args) (fallback : string) : gmap string string :=
  match args with
  | Args.ArgStr s => parse_isupport_list (split " " s) fallback
  | Args.ArgList l => parse_isupport_list l fallback
  end.

(** [A-Za-z]. *)
Definition is_letter (c : ascii) : bool :=
  let n := nat_of_ascii c in
  ((65 <=? n)%nat && (n <=? 90)%nat) || ((97 <=? n)%nat && (n <=? 122)%nat).

(** The longest run of letters at the front of a string, and what follows. *)
Fixpoint take_letters (s : string) : string * string :=
  match s with
  | EmptyString => (EmptyString, EmptyString)
  | String c s' =>
      if is_letter c then
        let r := take_letters s' in (String c r.1, r.2)
      else (EmptyString, s)
  end.

(** [.*]: everything up to the end of the line. *)
Fixpoint to_end_of_line (s : string) : string :=
  match s with
  | EmptyString => EmptyString
  | String c s' =>
      if Ascii.eqb c "010" then EmptyString else String c (to_end_of_line s')
  end.

(** A match of the pattern of [parse_isupport_prefixes] (an opening
    parenthesis, one or more letters, a closing parenthesis, the rest of the
    line) that starts at the front of [s].  The letter group has to run up
    to the closing parenthesis, since no letter is one. *)
Definition match_here (s : string) : option (string * string) :=
  match s with
  | String "(" r =>
      match take_letters r with
      | (String c ls, String ")" rest) => Some (String c ls, to_end_of_line rest)
      | _ => None
      end
  | _ => None
  end.

(** [re.search]: the leftmost position with a match. *)
Fixpoint search (s : string) : option (string * string) :=
  match match_here s with
  | Some r => Some r
  | None =>
      match s with
      | EmptyString => None
      | String _ s' => search s'
      end
  end.

(** [dict(zip(a, b))] over the characters of two strings. *)
Fixpoint zip_dict (a b : string) (m : gmap string string) : gmap string string :=
  match a, b with
  | String x a', String y b' =>
      zip_dict a' b' (<[String x EmptyString := String y EmptyString]> m)
  | _, _ => m
  end.

(** [parse_isupport_prefixes(args)]; without a match [prefixsearch] is
    [None] and [.group] raises AttributeError. *)
Definition parse_isupport_prefixes (args : string) : outcome (gmap string string) :=
  match search args with
  | Some (letters, symbols) => Ok (zip_dict letters symbols ∅)
  | None => Raise (OtherError "AttributeError")
  end.

Example prefixes_inspircd :
  parse_isupport_prefixes "(Yqaohv)*~&@%+"
  = Ok (list_to_map [("Y", "*"); ("q", "~"); ("a", "&"); ("o", "@"); ("h", "%"); ("v", "+")]).
Proof. vm_compute. reflexivity. Qed.

Example isupport_ngircd :
  parse_isupport (Args.ArgStr "RFC2812 IRCD=ngIRCd CHANLIMIT=#&+:10 EXCEPTS=e A=b=c") ""
  = list_to_map [("RFC2812", ""); ("IRCD", "ngIRCd"); ("CHANLIMIT", "#&+:10");
                 ("EXCEPTS", "e"); ("A", "b=c")].
Proof. vm_compute. reflexivity. Qed.

Lemma parse_isupport_snoc l cap fb :
  parse_isupport_list (l ++ [cap]) fb
  = <[(parse_token fb cap).1 := (parse_token fb cap).2]> (parse_isupport_list l fb).
Proof. unfold parse_isupport_list. by rewrite fold_left_app. Qed.

Lemma parse_token_pair fb key value :
  contains "=" key = false ->
  parse_token fb (key ++ String "=" value)%string = (key, value).
Proof. intros H. unfold parse_token. by rewrite Args.split1_app_sep. Qed.

Lemma parse_token_bare fb cap :
  contains "=" cap = false -> parse_token fb cap = (cap, fb).
Proof. intros H. unfold parse_token. by rewrite split1_no_sep. Qed.

(** X24. Parsing a concatenation of token lists is the map of the second
    list, completed by the map of the first for the keys the second does
    not have; hence parsing a list twice over changes nothing. *)
Theorem parse_isupport_app (l1 l2 : list string) (fb : string) :
  parse_isupport (Args.ArgList (l1 ++ l2)) fb
  = parse_isupport (Args.ArgList l2) fb ∪ parse_isupport (Args.ArgList l1) fb
  /\ parse_isupport (Args.ArgList (l1 ++ l1)) fb = parse_isupport (Args.ArgList l1) fb.
Proof.
  assert (Happ : forall a b, parse_isupport_list (a ++ b) fb
                             = parse_isupport_list b fb ∪ parse_isupport_list a fb).
  { intros a b. induction b as [|cap b IH] using rev_ind.
    - rewrite app_nil_r. unfold parse_isupport_list at 2. cbn.
      by rewrite (left_id_L ∅ (∪)).
    - rewrite app_assoc, !parse_isupport_snoc, IH. by rewrite insert_union_l. }
  cbn [parse_isupport]. split; [apply Happ|].
  rewrite Happ. apply (idemp_L (∪)).
Qed.

(** X25. A token KEY=VALUE is cut at its first '=', and the last token for
    a key decides: if no later token has that key, the map holds VALUE for
    KEY, whatever came earlier. *)
Theorem parse_isupport_last_wins (l1 l2 : list string) (fb key value : string) :
  contains "=" key = false ->
  Forall (fun cap => (parse_token fb cap).1 <> key) l2 ->
  parse_isupport (Args.ArgList (l1 ++ (key ++ String "=" value)%string :: l2)) fb !! key
  = Some value.
Proof.
  intros Hkey Hl2. cbn [parse_isupport].
  induction l2 as [|cap l2 IH] using rev_ind.
  - rewrite parse_isupport_snoc, parse_token_pair by exact Hkey. cbn [fst snd].
    apply lookup_insert_eq.
  - apply Forall_app in Hl2 as [Hl2 Hcap]. apply Forall_cons in Hcap as [Hcap _].
    rewrite app_comm_cons, app_assoc, parse_isupport_snoc.
    rewrite lookup_insert_ne by exact Hcap. by apply IH.
Qed.

Lemma parse_isupport_last_wins_witness :
  parse_isupport
    (Args.ArgList (["NICKLEN=9"] ++ ("NICKLEN" ++ String "=" "21=x")%string :: ["MAP"])) ""
  !! "NICKLEN" = Some "21=x".
Proof.
  apply (parse_isupport_last_wins ["NICKLEN=9"] ["MAP"] "" "NICKLEN" "21=x").
  - reflexivity.
  - repeat constructor. discriminate.
Defined.

(** A token without '=' is its own key and gets the fallback value
    (unless a later token has the same key). *)
Theorem parse_isupport_bare_token (l1 l2 : list string) (fb cap : string) :
  contains "=" cap = false ->
  Forall (fun c => (parse_token fb c).1 <> cap) l2 ->
  parse_isupport (Args.ArgList (l1 ++ cap :: l2)) fb !! cap = Some fb.
Proof.
  intros Hcap Hl2. cbn [parse_isupport].
  induction l2 as [|c l2 IH] using rev_ind.
  - rewrite parse_isupport_snoc, parse_token_bare by exact Hcap. cbn [fst snd].
    apply lookup_insert_eq.
  - apply Forall_app in Hl2 as [Hl2 Hc]. apply Forall_cons in Hc as [Hc _].
    rewrite app_comm_cons, app_assoc, parse_isupport_snoc.
    rewrite lookup_insert_ne by exact Hc. by apply IH.
Qed.

Lemma parse_isupport_bare_token_witness :
  parse_isupport (Args.ArgList (["A=1"] ++ "EXCEPTS" :: ["INVEX=I"])) "x" !! "EXCEPTS"
  = Some "x".
Proof.
  apply (parse_isupport_bare_token ["A=1"] ["INVEX=I"] "x" "EXCEPTS").
  - reflexivity.
  - repeat constructor. discriminate.
Defined.

(** *** The prefix string *)

Definition chars (s : string) : list ascii := list_ascii_of_string s.

Definition one (c : ascii) : string := String c EmptyString.

Lemma zip_dict_other a : forall b m c,
  c ∉ chars a -> zip_dict a b m !! one c = m !! one c.
Proof.
  induction a as [|x a IH]; intros b m c Hc; [reflexivity|].
  destruct b as [|y b]; [reflexivity|]. cbn [zip_dict].
  cbn [chars list_ascii_of_string] in Hc. apply not_elem_of_cons in Hc as [Hx Hc].
  rewrite IH by exact Hc. apply lookup_insert_ne. unfold one. congruence.
Qed.

Lemma zip_dict_lookup a : forall b m i c,
  NoDup (chars a) -> chars a !! i = Some c -> m !! one c = None ->
  zip_dict a b m !! one c = one <$> chars b !! i.
Proof.
  induction a as [|x a IH]; intros b m i c Hnd Hi Hm; [discriminate|].
  cbn [chars list_ascii_of_string] in Hnd, Hi. apply NoDup_cons in Hnd as [Hx Hnd].
  destruct b as [|y b].
  - cbn [zip_dict chars list_ascii_of_string]. by rewrite Hm.
  - cbn [zip_dict]. destruct i as [|i].
    + injection Hi as ->. rewrite zip_dict_other by exact Hx.
      by rewrite lookup_insert_eq.
    + cbn in Hi. apply (IH b _ i c Hnd Hi).
      rewrite lookup_insert_ne; [exact Hm|].
      unfold one. intros [= ->]. apply Hx. apply list_elem_of_lookup. eauto.
Qed.

Lemma take_letters_run ls rest :
  forallb is_letter (chars ls) = true ->
  take_letters (ls ++ String ")" rest)%string = (ls, String ")" rest).
Proof.
  induction ls as [|c ls IH]; intros H; [reflexivity|].
  cbn [chars list_ascii_of_string forallb] in H. apply andb_true_iff in H as [Hc Hls].
  change (String c ls ++ String ")" rest)%string with (String c (ls ++ String ")" rest)).
  cbn [take_letters]. rewrite Hc, (IH Hls). reflexivity.
Qed.

Lemma to_end_of_line_id s : contains "010" s = false -> to_end_of_line s = s.
Proof.
  induction s as [|c s IH]; [reflexivity|]. cbn [contains to_end_of_line].
  intros H. apply orb_false_iff in H as [Hc Hs]. by rewrite Hc, IH.
Qed.

(** X26. For a prefix string "(letters)symbols" with distinct letters, each
    letter is mapped to the symbol at its position; a letter that has no
    symbol at its position is simply left out, which is no error. *)
Theorem parse_isupport_prefixes_zip (l0 : ascii) (ls ss : string) :
  forallb is_letter (chars (String l0 ls)) = true ->
  NoDup (chars (String l0 ls)) ->
  contains "010" ss = false ->
  exists m,
    parse_isupport_prefixes (String "(" (String l0 ls ++ String ")" ss))%string = Ok m
    /\ forall i c, chars (String l0 ls) !! i = Some c ->
                   m !! one c = one <$> chars ss !! i.
Proof.
  intros Hlet Hnd Hnl. eexists. split.
  - unfold parse_isupport_prefixes. cbn [search match_here].
    rewrite (take_letters_run (String l0 ls) ss Hlet).
    rewrite (to_end_of_line_id ss Hnl). reflexivity.
  - intros i c Hi. by apply zip_dict_lookup.
Qed.

Lemma parse_isupport_prefixes_zip_witness :
  exists m,
    parse_isupport_prefixes (String "(" (String "q" "aohv" ++ String ")" "~&@%"))%string = Ok m
    /\ forall i c, chars (String "q" "aohv") !! i = Some c ->
                   m !! one c = one <$> chars "~&@%" !! i.
Proof.
  apply (parse_isupport_prefixes_zip "q" "aohv" "~&@%").
  - reflexivity.
  - apply (bool_decide_unpack _). vm_compute. exact I.
  - reflexivity.
Defined.

(** X27. A prefix string without an opening parenthesis has no match, and
    the function raises AttributeError instead of returning a map. *)
Theorem parse_isupport_prefixes_no_paren (s : string) :
  contains "(" s = false ->
  parse_isupport_prefixes s = Raise (OtherError "AttributeError").
Proof.
  intros H. unfold parse_isupport_prefixes.
  assert (Hs : search s = None).
  { induction s as [|c s IH]; [reflexivity|].
    cbn [contains] in H. apply orb_false_iff in H as [Hc Hs].
    cbn [search]. assert (Hm : match_here (String c s) = None).
    { unfold match_here. destruct c as [[] [] [] [] [] [] [] []]; try reflexivity.
      discriminate Hc. }
    rewrite Hm. by apply IH. }
  by rewrite Hs.
Qed.

Lemma parse_isupport_prefixes_no_paren_witness :
  parse_isupport_prefixes "qaohv~&@%+" = Raise (OtherError "AttributeError").
Proof. apply (parse_isupport_prefixes_no_paren "qaohv~&@%+"). reflexivity. Defined.

(** *** The 005 handler *)

(** The attributes of the network object that [handle_005] reads and
    writes. *)
Record CapState : Type := mkCaps {
  _use_builtin_005_handling : bool;
  _caps : gmap string string;
  cmodes : gmap string string;
  umodes : gmap string string;
  casemapping : string;
  prefixmodes : gmap string string;
  maxnicklen : Z;
  protocol_caps : gset string
}.

Definition set_caps (v : gmap string string) (s : CapState) : CapState :=
  mkCaps (_use_builtin_005_handling s) v (cmodes s) (umodes s) (casemapping s)
         (prefixmodes s) (maxnicklen s) (protocol_caps s).
Definition set_cmodes (v : gmap string string) (s : CapState) : CapState :=
  mkCaps (_use_builtin_005_handling s) (_caps s) v (umodes s) (casemapping s)
         (prefixmodes s) (maxnicklen s) (protocol_caps s).
Definition set_umodes (v : gmap string string) (s : CapState) : CapState :=
  mkCaps (_use_builtin_005_handling s) (_caps s) (cmodes s) v (casemapping s)
         (prefixmodes s) (maxnicklen s) (protocol_caps s).
Definition set_casemapping (v : string) (s : CapState) : CapState :=
  mkCaps (_use_builtin_005_handling s) (_caps s) (cmodes s) (umodes s) v
         (prefixmodes s) (maxnicklen s) (protocol_caps s).
Definition set_prefixmodes (v : gmap string string) (s : CapState) : CapState :=
  mkCaps (_use_builtin_005_handling s) (_caps s) (cmodes s) (umodes s) (casemapping s)
         v (maxnicklen s) (protocol_caps s).
Definition set_maxnicklen (v : Z) (s : CapState) : CapState :=
  mkCaps (_use_builtin_005_handling s) (_caps s) (cmodes s) (umodes s) (casemapping s)
         (prefixmodes s) v (protocol_caps s).
Definition set_protocol_caps (v : gset string) (s : CapState) : CapState :=
  mkCaps (_use_builtin_005_handling s) (_caps s) (cmodes s) (umodes s) (casemapping s)
         (prefixmodes s) (maxnicklen s) v.

(** One statement of the handler: it ends normally or raises, and leaves a
    state either way. *)
Definition step : Type := CapState -> outcome unit * CapState.

Definition and_then (a b : step) : step :=
  fun s =>
    match a s with
    | (Ok _, s') => b s'
    | (Raise e, s') => (Raise e, s')
    | (OutOfFuel, s') => (OutOfFuel, s')
    end.

Definition skip : step := fun s => (Ok tt, s).

(** [if key in newcaps: body(newcaps[key])]. *)
Definition when_cap (newcaps : gmap string string) (key : string)
    (body : string -> step) : step :=
  match newcaps !! key with
  | Some v => body v
  | None => skip
  end.

(** [a, b, c, d = value.split(',')] written into the four class entries. *)
Definition set_classes (setter : gmap string string -> CapState -> CapState)
    (table : CapState -> gmap string string) (value : string) : step :=
  fun s =>
    match split "," value with
    | [a; b; c; d] =>
        (Ok tt, setter (<["*D" := d]> (<["*C" := c]> (<["*B" := b]> (<["*A" := a]> (table s))))) s)
    | _ => (Raise ValueError, s)
    end.

(** [COMMON_PREFIXMODES]. *)
Definition COMMON_PREFIXMODES : list (string * string) :=
  [("h", "halfop"); ("a", "admin"); ("q", "owner"); ("y", "owner")].

(** The loop that names well-known prefix modes. *)
Definition autodetect (pm cm : gmap string string) : gmap string string :=
  fold_left (fun cm (e : string * string) =>
               if bool_decide (is_Some (pm !! e.1)) && negb (bool_decide (is_Some (cm !! e.2)))
               then <[e.2 := e.1]> cm
               else cm)
            COMMON_PREFIXMODES cm.

(** [newcaps.get(key) or dflt] for a key that is present. *)
Definition or_default (v dflt : string) : string :=
  if bool_decide (v = "") then dflt else v.

(** [args[1:-1]]. *)
Definition middle (args : list string) : list string := removelast (tail args).

Section Handle005.
(** [int(text)]: the number, or nothing where [int] raises ValueError. *)
Variable int_of : string -> option Z.

Definition handle_005 (source command : string) (args : list string) : step :=
  fun s =>
    if negb (_use_builtin_005_handling s) then (Ok tt, s)
    else
      let newcaps := parse_isupport (Args.ArgList (middle args)) "" in
      (and_then (fun s => (Ok tt, set_caps (newcaps ∪ _caps s) s))
      (and_then (when_cap newcaps "CHANMODES" (set_classes set_cmodes cmodes))
      (and_then (when_cap newcaps "USERMODES" (set_classes set_umodes umodes))
      (and_then (when_cap newcaps "CASEMAPPING" (fun v s => (Ok tt, set_casemapping v s)))
      (and_then (when_cap newcaps "PREFIX"
                   (fun v s =>
                      match parse_isupport_prefixes v with
                      | Ok pm =>
                          let s := set_prefixmodes pm s in
                          (Ok tt, set_cmodes (autodetect pm (cmodes s)) s)
                      | Raise e => (Raise e, s)
                      | OutOfFuel => (OutOfFuel, s)
                      end))
      (and_then (when_cap newcaps "EXCEPTS"
                   (fun v s => (Ok tt, set_cmodes (<["banexception" := or_default v "e"]> (cmodes s)) s)))
      (and_then (when_cap newcaps "INVEX"
                   (fun v s => (Ok tt, set_cmodes (<["invex" := or_default v "I"]> (cmodes s)) s)))
      (and_then (when_cap newcaps "NICKLEN"
                   (fun v s =>
                      if bool_decide (v = "") then (Raise (OtherError "AssertionError"), s)
                      else match int_of v with
                           | Some n => (Ok tt, set_maxnicklen n s)
                           | None => (Raise ValueError, s)
                           end))
      (and_then (when_cap newcaps "DEAF"
                   (fun v s => (Ok tt, set_umodes (<["deaf" := or_default v "D"]> (umodes s)) s)))
      (and_then (when_cap newcaps "CALLERID"
                   (fun v s => (Ok tt, set_umodes (<["callerid" := or_default v "g"]> (umodes s)) s)))
                (when_cap newcaps "STATUSMSG"
                   (fun _ s => (Ok tt, set_protocol_caps (protocol_caps s ∪ {["has-statusmsg"]}) s)))
      )))))))))) s.

End Handle005.

(** A plain decimal reader for the examples. *)
Fixpoint digits_value (acc : Z) (s : string) : option Z :=
  match s with
  | EmptyString => Some acc
  | String c s' =>
      let n := nat_of_ascii c in
      if (48 <=? n)%nat && (n <=? 57)%nat
      then digits_value (acc * 10 + Z.of_nat (n - 48)) s'
      else None
  end.

Definition int_plain (s : string) : option Z :=
  match s with
  | EmptyString => None
  | _ => digits_value 0 s
  end.

Definition caps0 : CapState := mkCaps true ∅ ∅ ∅ "rfc1459" ∅ 30 ∅.

Example handle_005_ngircd :
  let r := handle_005 int_plain "ngircd.local" "005"
             ["pylink"; "NICKLEN=21"; "PREFIX=(qaohv)~&@%+"; "CHANMODES=beI,k,l,imn";
              "EXCEPTS"; "CASEMAPPING=ascii"; "STATUSMSG=~&@%+"; "are supported"] caps0 in
  r.1 = Ok tt
  /\ maxnicklen r.2 = 21%Z
  /\ casemapping r.2 = "ascii"
  /\ cmodes r.2 !! "*A" = Some "beI" /\ cmodes r.2 !! "*D" = Some "imn"
  /\ cmodes r.2 !! "owner" = Some "q" /\ cmodes r.2 !! "halfop" = Some "h"
  /\ cmodes r.2 !! "banexception" = Some "e"
  /\ protocol_caps r.2 = {["has-statusmsg"]}.
Proof. vm_compute. repeat split. Qed.

Definition keeps_caps (st : step) : Prop := forall s, _caps (st s).2 = _caps s.

Lemma keeps_caps_and_then a b : keeps_caps a -> keeps_caps b -> keeps_caps (and_then a b).
Proof.
  intros Ha Hb s. unfold and_then. specialize (Ha s).
  destruct (a s) as [[[]|e|] s']; cbn in *; [|done..]. by rewrite Hb.
Qed.

Lemma keeps_caps_when newcaps key body :
  (forall v, keeps_caps (body v)) -> keeps_caps (when_cap newcaps key body).
Proof. intros H s. unfold when_cap. destruct (newcaps !! key); [apply H|done]. Qed.

Lemma keeps_caps_classes setter table value :
  (forall v s, _caps (setter v s) = _caps s) -> keeps_caps (set_classes setter table value).
Proof.
  intros H s. unfold set_classes.
  destruct (split "," value) as [|a [|b [|c [|d [|? ?]]]]]; cbn; auto.
Qed.

Lemma middle_framed (t tr : string) (mid : list string) : middle (t :: mid ++ [tr]) = mid.
Proof. unfold middle. cbn [tail]. apply removelast_last. Qed.

(** X28. With the built-in handling switched on, the tokens between the
    first and the last argument are merged over the running capability map,
    on every path: also when a later step of the handler raises.  The first
    argument (the addressee) and the last (the trailing text) are never read
    as capabilities. *)
Theorem handle_005_merges_caps (int_of : string -> option Z)
    (source command t tr : string) (mid : list string) (s : CapState) :
  _use_builtin_005_handling s = true ->
  _caps (handle_005 int_of source command (t :: mid ++ [tr]) s).2
  = parse_isupport (Args.ArgList mid) "" ∪ _caps s.
Proof.
  intros Hflag. unfold handle_005. rewrite Hflag. cbn [negb]. rewrite middle_framed.
  set (newcaps := parse_isupport (Args.ArgList mid) "").
  unfold and_then at 1.
  match goal with |- _caps (?rest ?s1).2 = _ =>
    assert (Hk : keeps_caps rest); [|exact (Hk s1)] end.
  repeat (apply keeps_caps_and_then);
    try (apply keeps_caps_when; intros v);
    try (apply keeps_caps_classes; done).
  - by intros s'.
  - intros s'. destruct (parse_isupport_prefixes v) as [pm|e|]; done.
  - by intros s'.
  - by intros s'.
  - intros s'. case_bool_decide; [done|]. by destruct (int_of v).
  - by intros s'.
  - by intros s'.
  - by intros s'.
Qed.

Lemma handle_005_merges_caps_witness :
  _caps (handle_005 int_plain "ngircd.local" "005"
           ("pylink" :: ["NICKLEN=abc"; "NETWORK=test"] ++ ["are supported"]) caps0).2
  = parse_isupport (Args.ArgList ["NICKLEN=abc"; "NETWORK=test"]) "" ∪ _caps caps0.
Proof.
  apply (handle_005_merges_caps int_plain "ngircd.local" "005" "pylink" "are supported"
           ["NICKLEN=abc"; "NETWORK=test"] caps0).
  reflexivity.
Defined.

(** X29. A CHANMODES value that does not split into exactly four
    comma-separated classes makes the handler raise ValueError; by then the
    capability map has been updated and nothing else has. *)
Theorem handle_005_bad_chanmodes (int_of : string -> option Z)
    (source command : string) (args : list string) (s : CapState) (v : string) :
  _use_builtin_005_handling s = true ->
  parse_isupport (Args.ArgList (middle args)) "" !! "CHANMODES" = Some v ->
  List.length (split "," v) <> 4%nat ->
  handle_005 int_of source command args s
  = (Raise ValueError,
     set_caps (parse_isupport (Args.ArgList (middle args)) "" ∪ _caps s) s).
Proof.
  intros Hflag Hcm Hlen. unfold handle_005. rewrite Hflag. cbn [negb].
  unfold and_then at 1. unfold and_then at 1. unfold when_cap at 1. rewrite Hcm.
  unfold set_classes.
  destruct (split "," v) as [|a [|b [|c [|d [|? ?]]]]]; try reflexivity.
  by destruct Hlen.
Qed.

Lemma handle_005_bad_chanmodes_witness :
  handle_005 int_plain "irc.local" "005"
    ["pylink"; "CHANMODES=beI,k,l"; "NICKLEN=21"; "are supported"] caps0
  = (Raise ValueError,
     set_caps (parse_isupport
                 (Args.ArgList (middle ["pylink"; "CHANMODES=beI,k,l"; "NICKLEN=21";
                                        "are supported"])) "" ∪ _caps caps0) caps0).
Proof.
  apply (handle_005_bad_chanmodes int_plain "irc.local" "005"
           ["pylink"; "CHANMODES=beI,k,l"; "NICKLEN=21"; "are supported"] caps0 "beI,k,l").
  - reflexivity.
  - vm_compute. reflexivity.
  - vm_compute. lia.
Defined.

Definition detect (pm cm : gmap string string) (e : string * string) : gmap string string :=
  if bool_decide (is_Some (pm !! e.1)) && negb (bool_decide (is_Some (cm !! e.2)))
  then <[e.2 := e.1]> cm
  else cm.

Lemma detect_keeps pm cm e name v :
  cm !! name = Some v -> detect pm cm e !! name = Some v.
Proof.
  intros Hv. unfold detect. destruct (_ && _) eqn:E; [|exact Hv].
  apply andb_true_iff in E as [_ E]. apply negb_true_iff, bool_decide_eq_false in E.
  rewrite lookup_insert_ne; [exact Hv|]. intros Heq. apply E. rewrite Heq. eauto.
Qed.

Lemma detect_other pm cm e name :
  e.2 <> name -> detect pm cm e !! name = cm !! name.
Proof.
  intros Hne. unfold detect. destruct (_ && _); [|reflexivity].
  by rewrite lookup_insert_ne.
Qed.

Lemma detect_hit pm cm e :
  is_Some (pm !! e.1) -> cm !! e.2 = None -> detect pm cm e !! e.2 = Some e.1.
Proof.
  intros Hpm Hcm. unfold detect.
  rewrite (bool_decide_eq_true_2 _ Hpm).
  rewrite bool_decide_eq_false_2 by (rewrite Hcm; by intros [? ?]).
  cbn. apply lookup_insert_eq.
Qed.

(** X30. Naming the well-known prefix modes never overwrites a mode name
    that is already defined, and where no "owner" is defined yet and the
    prefix letters include q, owner becomes q, also when y is there too. *)
Theorem autodetect_keeps_and_prefers_q (pm cm : gmap string string) :
  (forall name v, cm !! name = Some v -> autodetect pm cm !! name = Some v)
  /\ (cm !! "owner" = None -> is_Some (pm !! "q") ->
      autodetect pm cm !! "owner" = Some "q").
Proof.
  change (autodetect pm cm)
    with (detect pm (detect pm (detect pm (detect pm cm ("h", "halfop")) ("a", "admin"))
                       ("q", "owner")) ("y", "owner")).
  split.
  - intros name v Hv. by do 4 apply detect_keeps.
  - intros Hown Hq. apply detect_keeps.
    apply (detect_hit pm _ ("q", "owner")); [exact Hq|].
    cbn [snd]. rewrite !detect_other by discriminate. exact Hown.
Qed.

Lemma autodetect_keeps_and_prefers_q_witness :
  let pm : gmap string string := list_to_map [("y", "!"); ("q", "~"); ("o", "@")] in
  let cm : gmap string string := list_to_map [("admin", "A")] in
  autodetect pm cm !! "admin" = Some "A" /\ autodetect pm cm !! "owner" = Some "q".
Proof.
  cbn zeta.
  pose proof (autodetect_keeps_and_prefers_q
                (list_to_map [("y", "!"); ("q", "~"); ("o", "@")])
                (list_to_map [("admin", "A")])) as [Hkeep Hq].
  split.
  - apply Hkeep. vm_compute. reflexivity.
  - apply Hq; [vm_compute; reflexivity|]. eexists. vm_compute. reflexivity.
Defined.

End Caps.
